(** * Mock-your-APIs: the interception and resolution pipeline

    A shallow embedding of the three scripts that decide whether a page's
    network call is answered by a mock rule:

    - [src/background/service-worker.js]  (the rule authority, [checkMock]);
    - [src/content/interceptor.js]        (the relay between page and worker);
    - [src/content/injected.js]           (the in-page shim over [fetch] and
                                           [XMLHttpRequest] and the emulator).

    The scripts are event driven: every piece of asynchronous code is written
    here as a transition of an explicit state, fired by an event of the page's
    event loop (a call made by page code, a window message, a clock tick). *)

From stdpp Require Import base option list strings gmap pretty.
From Stdlib Require Import ZArith NArith Ascii String Lia.

Local Open Scope string_scope.
Local Open Scope list_scope.
Local Open Scope Z_scope.

(** ** The fragment of JavaScript the scripts rely on *)

Module JS.

(** Strings are sequences of 8-bit characters.  HTTP methods and header
    names are tokens of ASCII characters; on that repertoire
    [String.prototype.toUpperCase] and [toLowerCase] change the 26 letters
    and nothing else.  Characters above 127 are outside the repertoire the
    scripts are used on and are left alone. *)

Definition is_lower (c : ascii) : bool :=
  ((97 <=? N_of_ascii c) && (N_of_ascii c <=? 122))%N.

Definition is_upper (c : ascii) : bool :=
  ((65 <=? N_of_ascii c) && (N_of_ascii c <=? 90))%N.

Definition upper_char (c : ascii) : ascii :=
  if is_lower c then ascii_of_N (N_of_ascii c - 32) else c.

Definition lower_char (c : ascii) : ascii :=
  if is_upper c then ascii_of_N (N_of_ascii c + 32) else c.

Fixpoint toUpperCase (s : string) : string :=
  match s with
  | EmptyString => EmptyString
  | String c r => String (upper_char c) (toUpperCase r)
  end.

Fixpoint toLowerCase (s : string) : string :=
  match s with
  | EmptyString => EmptyString
  | String c r => String (lower_char c) (toLowerCase r)
  end.

(** Primitive values, as far as a decision payload can carry them. *)
Inductive Prim :=
| PUndefined
| PNull
| PBool (b : bool)
| PNum (n : Z)
| PStr (s : string).

(** [ToBoolean] on primitives. *)
Definition truthy (p : Prim) : bool :=
  match p with
  | PUndefined | PNull => false
  | PBool b => b
  | PNum n => negb (n =? 0)
  | PStr s => negb (String.eqb s "")
  end.

(** [x || d] for an optional number and for an optional string: the
    default is taken when the field is missing and when it is falsy. *)
Definition num_or (x : option Z) (d : Z) : Z :=
  match x with
  | Some n => if n =? 0 then d else n
  | None => d
  end.

Definition str_or (x : option string) (d : string) : string :=
  match x with
  | Some s => if String.eqb s "" then d else s
  | None => d
  end.

(** Completions: a JavaScript computation returns or throws. *)
Record Exn := Error { name : string; message : string }.

Definition TypeError : string → Exn := Error "TypeError".
Definition RangeError : string → Exn := Error "RangeError".

Inductive Completion (A : Type) :=
| Return (a : A)
| Throw (e : Exn).
Arguments Return {A} a.
Arguments Throw {A} e.

End JS.

Import JS.

(** ** Data shared by the three scripts *)

(** The response part of a rule, which is also the payload of an affirmative
    decision.  Every field may be missing from a payload. *)
Record ResponsePayload := {
  status : option Z;
  statusText : option string;
  headers : option (list (string * string));
  body : option string;
}.

(** What the [response] property of a decision holds: nothing, some
    primitive, or a payload object (objects are always truthy). *)
Inductive ResponseSlot :=
| SlotPrim (p : Prim)
| SlotObj (r : ResponsePayload).

Definition slot_truthy (s : ResponseSlot) : bool :=
  match s with
  | SlotPrim p => truthy p
  | SlotObj _ => true
  end.

(** The payload of a [MOCK_RESPONSE]: the object [checkMock] of the service
    worker returns, or the one the relay builds when forwarding fails. *)
Record MatchDecision := {
  shouldMock : bool;
  response : ResponseSlot;
  ruleId : option string;
  error : option string;
}.

Definition noMock : MatchDecision :=
  {| shouldMock := false; response := SlotPrim PUndefined;
     ruleId := None; error := None |}.

(** ** [src/background/service-worker.js] *)

Module ServiceWorker.

Record RuleRequest := {
  url : string;
  method : string;
}.

Record Rule := {
  id : string;
  enabled : bool;
  request : RuleRequest;
  rule_response : ResponsePayload;
}.

(** [chrome.storage.local]: each of the two keys may be unset. *)
Record Storage := {
  globalEnabled : option bool;
  mockRules : option (list Rule);
}.

Record RequestInfo := {
  req_url : string;
  req_method : string;
}.

(** The callback given to [rules.find]. *)
Definition rule_matches (requestInfo : RequestInfo) (rule : Rule) : bool :=
  if negb (enabled rule) then false
  else
    let urlMatch := String.eqb (url (request rule)) (req_url requestInfo) in
    let methodMatch :=
      String.eqb (toUpperCase (method (request rule)))
                 (toUpperCase (req_method requestInfo)) in
    urlMatch && methodMatch.

Definition checkMock (st : Storage) (requestInfo : RequestInfo) : MatchDecision :=
  match globalEnabled st with
  | Some false => noMock
  | _ =>
      let rules := default [] (mockRules st) in
      match List.find (rule_matches requestInfo) rules with
      | Some matchingRule =>
          {| shouldMock := true;
             response := SlotObj (rule_response matchingRule);
             ruleId := Some (id matchingRule);
             error := None |}
      | None => noMock
      end
  end.

(** The matching condition in the words of the specification: method
    names are compared letter by letter, a letter and its other case
    counting as the same. *)
Definition same_letter (c d : ascii) : Prop :=
  c = d
  ∨ (is_upper c = true ∧ N_of_ascii d = (N_of_ascii c + 32)%N)
  ∨ (is_upper d = true ∧ N_of_ascii c = (N_of_ascii d + 32)%N).

Inductive equal_up_to_case : string → string → Prop :=
| euc_empty : equal_up_to_case "" ""
| euc_char c d s t :
    same_letter c d → equal_up_to_case s t →
    equal_up_to_case (String c s) (String d t).

Definition selects (u m : string) (r : Rule) : Prop :=
  enabled r = true
  ∧ url (request r) = u
  ∧ equal_up_to_case (method (request r)) m.

End ServiceWorker.

(** ** [src/background/service-worker.js]: the handlers of the rule store *)

Module Worker.

(** [STORAGE_KEYS]. *)
Inductive Key := RULES | ENABLED.

#[global] Instance Key_eq_dec : EqDecision Key.
Proof. solve_decision. Defined.

(** A rule as [addRule] stores it; [updatedAt] is what [updateRule]
    adds. *)
Record StoredRequest := {
  url : string;
  method : string;
  request_headers : list (string * string);
  request_body : option string;
}.

Record StoredRule := {
  id : string;
  enabled : bool;
  name : option string;
  request : StoredRequest;
  rule_response : ResponsePayload;
  createdAt : N;
  updatedAt : option N;
}.

(** An object keyed by the storage keys: the content of
    [chrome.storage.local], the result of [get] and the argument of [set].
    A key that is absent is [None]. *)
Record Items := {
  mockRules : option (list StoredRule);
  globalEnabled : option bool;
}.

(** What [chrome.storage.local.get(keys)] gives, and what
    [chrome.storage.local.set(items)] leaves. *)
Definition get (keys : list Key) (storage : Items) : Items :=
  {| mockRules := if bool_decide (RULES ∈ keys) then mockRules storage else None;
     globalEnabled :=
       if bool_decide (ENABLED ∈ keys) then globalEnabled storage else None |}.

Definition set (items : Items) (storage : Items) : Items :=
  {| mockRules :=
       match mockRules items with
       | Some rules => Some rules
       | None => mockRules storage
       end;
     globalEnabled :=
       match globalEnabled items with
       | Some enabled => Some enabled
       | None => globalEnabled storage
       end |}.

(** The messages [notifyTabs] is called with. *)
Inductive Notification :=
| RULES_UPDATED
| GLOBAL_STATE_CHANGED (enabled : bool).

(** An [async] function of the worker: it has returned or thrown, or it
    goes on after an operation of the browser.  The two storage operations
    are awaited; [Date.now], [Math.random().toString(36)] and the call of
    [notifyTabs], which no handler awaits, are synchronous. *)
Inductive Task (A : Type) : Type :=
| Settled (c : Completion A)
| AwaitGet (keys : list Key) (k : Items → Task A)
| AwaitSet (items : Items) (k : Task A)
| DateNow (k : N → Task A)
| MathRandom (k : string → Task A)
| CallNotifyTabs (message : Notification) (k : Task A).
Arguments Settled {A} c.
Arguments AwaitGet {A} keys k.
Arguments AwaitSet {A} items k.
Arguments DateNow {A} k.
Arguments MathRandom {A} k.
Arguments CallNotifyTabs {A} message k.

(** One statement after the other: what follows runs when [t] has
    returned, and not at all when it has thrown. *)
Fixpoint bind {A B} (t : Task A) (f : A → Task B) : Task B :=
  match t with
  | Settled (Return a) => f a
  | Settled (Throw e) => Settled (Throw e)
  | AwaitGet keys k => AwaitGet keys (λ result, bind (k result) f)
  | AwaitSet items k => AwaitSet items (bind k f)
  | DateNow k => DateNow (λ t, bind (k t) f)
  | MathRandom k => MathRandom (λ r, bind (k r) f)
  | CallNotifyTabs message k => CallNotifyTabs message (bind k f)
  end.

#[global] Instance Task_ret : MRet Task := λ A a, Settled (Return a).
#[global] Instance Task_bind : MBind Task := λ A B f t, bind t f.
#[global] Instance Task_fmap : FMap Task :=
  λ A B f t, bind t (λ a, Settled (Return (f a))).

Definition throw {A} (e : Exn) : Task A := Settled (Throw e).

(** [try { t } catch (error) { handler error }]. *)
Fixpoint catch {A} (t : Task A) (handler : Exn → Task A) : Task A :=
  match t with
  | Settled (Return a) => Settled (Return a)
  | Settled (Throw e) => handler e
  | AwaitGet keys k => AwaitGet keys (λ result, catch (k result) handler)
  | AwaitSet items k => AwaitSet items (catch k handler)
  | DateNow k => DateNow (λ t, catch (k t) handler)
  | MathRandom k => MathRandom (λ r, catch (k r) handler)
  | CallNotifyTabs message k => CallNotifyTabs message (catch k handler)
  end.

Definition storage_get (keys : list Key) : Task Items := AwaitGet keys mret.
Definition storage_set (items : Items) : Task unit := AwaitSet items (mret tt).
Definition Date_now : Task N := DateNow mret.
Definition Math_random_base36 : Task string := MathRandom mret.
Definition notifyTabs (message : Notification) : Task unit :=
  CallNotifyTabs message (mret tt).

Definition rules_item (rules : list StoredRule) : Items :=
  {| mockRules := Some rules; globalEnabled := None |}.

Definition enabled_item (enabled : bool) : Items :=
  {| mockRules := None; globalEnabled := Some enabled |}.

(** The listener of [chrome.runtime.onInstalled]. *)
Definition onInstalled : Task unit :=
  existing ← storage_get [RULES; ENABLED];
  _ ← (if mockRules existing is None then storage_set (rules_item [])
       else mret tt);
  if globalEnabled existing is None then storage_set (enabled_item true)
  else mret tt.

(** What a handler answers, which is what [sendResponse] is called with. *)
Inductive Reply :=
| RulesReply (rules : list StoredRule)
| SavedReply (rule : StoredRule)
| SuccessReply
| ToggledReply (enabled : bool)
| EnabledReply (enabled : bool)
| EnabledSetReply (enabled : bool)
| DecisionReply (decision : MatchDecision)
| ErrorReply (error : string).

Definition getRules : Task Reply :=
  result ← storage_get [RULES];
  mret (RulesReply (default [] (mockRules result))).

(** [str.substr(start, length)] for two natural numbers. *)
Definition substr (start length : nat) (str : string) : string :=
  String.substring start length str.

Definition generateId : Task string :=
  t ← Date_now;
  r ← Math_random_base36;
  mret ("rule_" +:+ pretty t +:+ "_" +:+ substr 2 9 r).

(** [x || null] for an optional string. *)
Definition str_or_null (x : option string) : option string :=
  match x with
  | Some s => if String.eqb s "" then None else Some s
  | None => None
  end.

(** The payload of [ADD_RULE].  The two editors send all of it; [addRule]
    gives a default to every field but the url, and reads [request] and
    [response] without a test. *)
Record RequestData := {
  data_url : string;
  data_method : option string;
  data_headers : option (list (string * string));
  data_body : option string;
}.

Record RuleData := {
  data_name : option string;
  data_request : option RequestData;
  data_response : option ResponsePayload;
}.

Definition cannot_read (property : string) : Exn :=
  TypeError ("Cannot read properties of undefined (reading '"
             +:+ property +:+ "')").

Definition addRule (ruleData : RuleData) : Task Reply :=
  result ← storage_get [RULES];
  let rules := default [] (mockRules result) in
  id ← generateId;
  match data_request ruleData with
  | None => throw (cannot_read "url")
  | Some request =>
      match data_response ruleData with
      | None => throw (cannot_read "status")
      | Some response =>
          createdAt ← Date_now;
          let newRule :=
            {| id := id;
               enabled := true;
               name := str_or_null (data_name ruleData);
               request :=
                 {| url := data_url request;
                    method := str_or (data_method request) "GET";
                    request_headers := default [] (data_headers request);
                    request_body := str_or_null (data_body request) |};
               rule_response :=
                 {| status := Some (num_or (status response) 200);
                    statusText := Some (str_or (statusText response) "OK");
                    headers :=
                      Some (default [("Content-Type", "application/json")]
                                    (headers response));
                    body := Some (str_or (body response) "") |};
               createdAt := createdAt;
               updatedAt := None |} in
          let rules := rules ++ [newRule] in
          _ ← storage_set (rules_item rules);
          _ ← notifyTabs RULES_UPDATED;
          mret (SavedReply newRule)
      end
  end.

(** The payload of [UPDATE_RULE]: the [id], and the properties that
    replace those of the stored rule. *)
Record RuleUpdate := {
  update_id : string;
  update_enabled : option bool;
  update_name : option (option string);
  update_request : option StoredRequest;
  update_response : option ResponsePayload;
}.

(** [{ ...rule, ...ruleData, updatedAt }]. *)
Definition spread (rule : StoredRule) (ruleData : RuleUpdate) (updatedAt : N)
    : StoredRule :=
  {| id := update_id ruleData;
     enabled := default (enabled rule) (update_enabled ruleData);
     name := default (name rule) (update_name ruleData);
     request := default (request rule) (update_request ruleData);
     rule_response := default (rule_response rule) (update_response ruleData);
     createdAt := createdAt rule;
     updatedAt := Some updatedAt |}.

Definition not_found {A} (ruleId : string) : Task A :=
  throw (Error "Error" ("Rule not found: " +:+ ruleId)).

Definition updateRule (ruleData : RuleUpdate) : Task Reply :=
  result ← storage_get [RULES];
  let rules := default [] (mockRules result) in
  match list_find (λ r, id r = update_id ruleData) rules with
  | None => not_found (update_id ruleData)
  | Some (index, rule) =>
      updatedAt ← Date_now;
      let updated := spread rule ruleData updatedAt in
      let rules := <[index := updated]> rules in
      _ ← storage_set (rules_item rules);
      _ ← notifyTabs RULES_UPDATED;
      mret (SavedReply updated)
  end.

Definition deleteRule (ruleId : string) : Task Reply :=
  result ← storage_get [RULES];
  let rules := default [] (mockRules result) in
  let filteredRules := filter (λ r, id r ≠ ruleId) rules in
  if bool_decide (List.length filteredRules = List.length rules) then not_found ruleId
  else
    _ ← storage_set (rules_item filteredRules);
    _ ← notifyTabs RULES_UPDATED;
    mret SuccessReply.

Definition set_enabled (enabled : bool) (rule : StoredRule) : StoredRule :=
  {| id := id rule; enabled := enabled; name := name rule;
     request := request rule; rule_response := rule_response rule;
     createdAt := createdAt rule; updatedAt := updatedAt rule |}.

(** [rule] is the element of [rules] that [find] returned, so the
    assignment to [rule.enabled] changes the array. *)
Definition toggleRule (ruleId : string) : Task Reply :=
  result ← storage_get [RULES];
  let rules := default [] (mockRules result) in
  match list_find (λ r, id r = ruleId) rules with
  | None => not_found ruleId
  | Some (index, rule) =>
      let rule := set_enabled (negb (enabled rule)) rule in
      let rules := <[index := rule]> rules in
      _ ← storage_set (rules_item rules);
      _ ← notifyTabs RULES_UPDATED;
      mret (ToggledReply (enabled rule))
  end.

Definition getGlobalEnabled : Task Reply :=
  result ← storage_get [ENABLED];
  mret (EnabledReply (negb (bool_decide (globalEnabled result = Some false)))).

Definition setGlobalEnabled (enabled : bool) : Task Reply :=
  _ ← storage_set (enabled_item enabled);
  _ ← notifyTabs (GLOBAL_STATE_CHANGED enabled);
  mret (EnabledSetReply enabled).

(** The fields of a stored rule [checkMock] reads. *)
Definition as_rule (rule : StoredRule) : ServiceWorker.Rule :=
  {| ServiceWorker.id := id rule;
     ServiceWorker.enabled := enabled rule;
     ServiceWorker.request :=
       {| ServiceWorker.url := url (request rule);
          ServiceWorker.method := method (request rule) |};
     ServiceWorker.rule_response := rule_response rule |}.

(** [checkMock] with its two reads of the storage. *)
Definition checkMock (requestInfo : ServiceWorker.RequestInfo)
    : Task MatchDecision :=
  globalResult ← storage_get [ENABLED];
  if bool_decide (globalEnabled globalResult = Some false) then mret noMock
  else
    rulesResult ← storage_get [RULES];
    let rules := default [] (mockRules rulesResult) in
    match List.find (λ rule, ServiceWorker.rule_matches requestInfo (as_rule rule))
                    rules with
    | Some matchingRule =>
        mret {| shouldMock := true;
                response := SlotObj (rule_response matchingRule);
                ruleId := Some (id matchingRule);
                error := None |}
    | None => mret noMock
    end.

Definition clearAllRules : Task Reply :=
  _ ← storage_set (rules_item []);
  _ ← notifyTabs RULES_UPDATED;
  mret SuccessReply.

(** A message with the payload its type goes with; [Other] is a message
    of a type [handleMessage] has no case for. *)
Inductive Message :=
| GET_RULES
| ADD_RULE (payload : RuleData)
| UPDATE_RULE (payload : RuleUpdate)
| DELETE_RULE (id : string)
| TOGGLE_RULE (id : string)
| GET_GLOBAL_ENABLED
| SET_GLOBAL_ENABLED (enabled : bool)
| CHECK_MOCK (payload : ServiceWorker.RequestInfo)
| CLEAR_ALL_RULES
| Other (type : string).

Definition handleMessage (message : Message) : Task Reply :=
  match message with
  | GET_RULES => getRules
  | ADD_RULE payload => addRule payload
  | UPDATE_RULE payload => updateRule payload
  | DELETE_RULE id => deleteRule id
  | TOGGLE_RULE id => toggleRule id
  | GET_GLOBAL_ENABLED => getGlobalEnabled
  | SET_GLOBAL_ENABLED enabled => setGlobalEnabled enabled
  | CHECK_MOCK payload => DecisionReply <$> checkMock payload
  | CLEAR_ALL_RULES => clearAllRules
  | Other type => throw (Error "Error" ("Unknown message type: " +:+ type))
  end.

(** The listener of [chrome.runtime.onMessage]: the task ends with the
    value [sendResponse] is called with. *)
Definition onMessage (message : Message) : Task Reply :=
  catch (handleMessage message) (λ error, mret (ErrorReply (JS.message error))).

(** *** Running the handlers *)

(** What the worker reads from outside: the value of the [n]-th call of
    [Date.now] and of the [n]-th call of [Math.random().toString(36)]. *)
Record Env := {
  clock : nat → N;
  random : nat → string;
}.

(** The storage, the calls of [notifyTabs] made so far, and the numbers of
    calls of [Date.now] and [Math.random] made so far. *)
Record World := {
  storage : Items;
  notifications : list Notification;
  dates : nat;
  randoms : nat;
}.

Definition set_storage (f : Items → Items) (w : World) : World :=
  {| storage := f (storage w); notifications := notifications w;
     dates := dates w; randoms := randoms w |}.

Definition notify (message : Notification) (w : World) : World :=
  {| storage := storage w; notifications := notifications w ++ [message];
     dates := dates w; randoms := randoms w |}.

Definition next_date (w : World) : World :=
  {| storage := storage w; notifications := notifications w;
     dates := S (dates w); randoms := randoms w |}.

Definition next_random (w : World) : World :=
  {| storage := storage w; notifications := notifications w;
     dates := dates w; randoms := S (randoms w) |}.

(** A handler that runs to its end with no other handler in between. *)
Fixpoint exec {A} (E : Env) (t : Task A) (w : World) : Completion A * World :=
  match t with
  | Settled c => (c, w)
  | AwaitGet keys k => exec E (k (get keys (storage w))) w
  | AwaitSet items k => exec E k (set_storage (set items) w)
  | DateNow k => exec E (k (clock E (dates w))) (next_date w)
  | MathRandom k => exec E (k (random E (randoms w))) (next_random w)
  | CallNotifyTabs message k => exec E k (notify message w)
  end.

(** The synchronous code of a handler, up to its next [await]. *)
Fixpoint sync {A} (E : Env) (t : Task A) (w : World) : Task A * World :=
  match t with
  | DateNow k => sync E (k (clock E (dates w))) (next_date w)
  | MathRandom k => sync E (k (random E (randoms w))) (next_random w)
  | CallNotifyTabs message k => sync E k (notify message w)
  | Settled _ | AwaitGet _ _ | AwaitSet _ _ => (t, w)
  end.

(** The storage operation a handler awaits completes, and the handler runs
    on to its next [await]. *)
Definition resume {A} (E : Env) (t : Task A) (w : World) : Task A * World :=
  match t with
  | AwaitGet keys k => sync E (k (get keys (storage w))) w
  | AwaitSet items k => sync E k (set_storage (set items) w)
  | _ => (t, w)
  end.

(** Two handlers that run at the same time: [schedule] says, for each
    storage operation that completes, whether it is one of the first
    handler. *)
Fixpoint interleave {A} (E : Env) (schedule : list bool) (t1 t2 : Task A)
    (w : World) : Task A * Task A * World :=
  match schedule with
  | [] => (t1, t2, w)
  | true :: schedule =>
      let '(t1, w) := resume E t1 w in interleave E schedule t1 t2 w
  | false :: schedule =>
      let '(t2, w) := resume E t2 w in interleave E schedule t1 t2 w
  end.

(** A message handled with no other handler in between: what
    [sendResponse] is called with, and the world that is left. *)
Definition serve (E : Env) (message : Message) (w : World)
    : Completion Reply * World :=
  exec E (onMessage message) w.

(** The notification a message causes when its handler succeeds. *)
Definition notice (message : Message) : option Notification :=
  match message with
  | ADD_RULE _ | UPDATE_RULE _ | DELETE_RULE _ | TOGGLE_RULE _
  | CLEAR_ALL_RULES => Some RULES_UPDATED
  | SET_GLOBAL_ENABLED enabled => Some (GLOBAL_STATE_CHANGED enabled)
  | GET_RULES | GET_GLOBAL_ENABLED | CHECK_MOCK _ | Other _ => None
  end.

(** The storage as [ServiceWorker.checkMock] reads it. *)
Definition as_storage (items : Items) : ServiceWorker.Storage :=
  {| ServiceWorker.globalEnabled := globalEnabled items;
     ServiceWorker.mockRules := fmap (M := list) as_rule <$> mockRules items |}.

End Worker.

(** ** What the browser provides

    The constructors [Headers] and [Response] follow the Fetch Standard
    (sections "Headers class" and "Response class"), the property table of
    [XMLHttpRequest.prototype] follows the interface of the XMLHttpRequest
    Standard, and assignment follows ECMAScript's [OrdinarySet] and
    [PutValue]. *)

Module Platform.

Definition chars (s : string) : list ascii := list_ascii_of_string s.

Definition code_in (c : ascii) (codes : list N) : bool :=
  existsb (N.eqb (N_of_ascii c)) codes.

Definition in_range (c : ascii) (lo hi : N) : bool :=
  ((lo <=? N_of_ascii c) && (N_of_ascii c <=? hi))%N.

(** A header name is a non-empty token. *)
Definition is_token_char (c : ascii) : bool :=
  in_range c 48 57 || in_range c 65 90 || in_range c 97 122
  || code_in c [33; 35; 36; 37; 38; 39; 42; 43; 45; 46; 94; 95; 96; 124; 126]%N.

Definition is_header_name (s : string) : bool :=
  negb (String.eqb s "") && forallb is_token_char (chars s).

(** HTTP whitespace: tab, line feed, carriage return, space. *)
Definition is_http_whitespace (c : ascii) : bool :=
  code_in c [9; 10; 13; 32]%N.

Fixpoint strip_leading (l : list ascii) : list ascii :=
  match l with
  | c :: r => if is_http_whitespace c then strip_leading r else l
  | [] => []
  end.

Definition normalize_value (v : string) : string :=
  string_of_list_ascii
    (rev (strip_leading (rev (strip_leading (chars v))))).

(** A normalized value is a header value when it holds no NUL, line feed
    or carriage return. *)
Definition is_header_value (v : string) : bool :=
  forallb (λ c, negb (code_in c [0; 10; 13]%N)) (chars v).

Definition HeaderList := list (string * string).

(** [new Headers(init)] for a record [init]: every entry is appended in
    turn, and an entry that is not a header makes the constructor throw. *)
Fixpoint Headers_new (init : list (string * string)) : Completion HeaderList :=
  match init with
  | [] => Return []
  | (name, value) :: rest =>
      let value := normalize_value value in
      if is_header_name name && is_header_value value then
        match Headers_new rest with
        | Return l => Return ((name, value) :: l)
        | Throw e => Throw e
        end
      else Throw (TypeError "Invalid header")
  end.

Record ResponseInit := {
  init_status : Z;
  init_statusText : string;
  init_headers : HeaderList;
}.

Record Response := {
  resp_status : Z;
  resp_statusText : string;
  resp_headers : HeaderList;
  resp_body : string;
}.

(** A reason phrase holds tabs, spaces, visible characters and bytes above
    127. *)
Definition is_reason_phrase (s : string) : bool :=
  forallb (λ c, code_in c [9]%N || in_range c 32 126 || in_range c 128 255)
          (chars s).

Definition is_null_body_status (n : Z) : bool :=
  existsb (Z.eqb n) [101; 103; 204; 205; 304].

(** Names a response's header list refuses, whatever their case. *)
Definition is_forbidden_response_header (name : string) : bool :=
  existsb (String.eqb (toLowerCase name)) ["set-cookie"; "set-cookie2"].

Definition contains_header (name : string) (l : HeaderList) : bool :=
  existsb (λ h, String.eqb (toLowerCase h.1) (toLowerCase name)) l.

(** [new Response(body, init)] for a string [body].  The status is an
    [unsigned short]; a status outside 200..599 is a [RangeError]; a string
    body, even the empty one, is a body, which a null body status refuses;
    a body that is a string brings its content type when the headers have
    none. *)
Definition Response_new (body : string) (init : ResponseInit)
    : Completion Response :=
  let st := init_status init mod 65536 in
  if negb ((200 <=? st) && (st <=? 599)) then
    Throw (RangeError "status must be in the range of 200 to 599")
  else if negb (is_reason_phrase (init_statusText init)) then
    Throw (TypeError "Invalid statusText")
  else
    let hs := filter (λ h, is_forbidden_response_header h.1 = false)
                     (init_headers init) in
    if is_null_body_status st then
      Throw (TypeError "Response with null body status cannot have body")
    else
      let hs :=
        if contains_header "Content-Type" hs then hs
        else (hs ++ [("content-type", "text/plain;charset=UTF-8")])%list in
      Return {| resp_status := st;
                resp_statusText := init_statusText init;
                resp_headers := hs;
                resp_body := body |}.

(** The own properties of [Object.prototype], which every plain object
    inherits. *)
Definition Object_prototype : list string :=
  [ "constructor"; "__defineGetter__"; "__defineSetter__"; "hasOwnProperty";
    "__lookupGetter__"; "__lookupSetter__"; "isPrototypeOf";
    "propertyIsEnumerable"; "toString"; "valueOf"; "__proto__";
    "toLocaleString" ].

(** What [XMLHttpRequest.prototype] and its prototype chain hold under a
    name: an attribute without a setter, an attribute with one, a method or
    another writable data property, a constant. *)
Inductive Inherited :=
| ReadOnlyAttribute
| WritableAttribute
| WritableData
| Constant.

Definition XMLHttpRequest_prototype (p : string) : option Inherited :=
  if bool_decide (p ∈ [ "readyState"; "upload"; "responseURL"; "status";
                        "statusText"; "response"; "responseText";
                        "responseXML" ])
  then Some ReadOnlyAttribute
  else if bool_decide (p ∈ [ "onreadystatechange"; "timeout";
                             "withCredentials"; "responseType";
                             "onloadstart"; "onprogress"; "onabort";
                             "onerror"; "onload"; "ontimeout"; "onloadend" ])
  then Some WritableAttribute
  else if bool_decide (p ∈ [ "open"; "setRequestHeader"; "send"; "abort";
                             "getResponseHeader"; "getAllResponseHeaders";
                             "overrideMimeType"; "addEventListener";
                             "removeEventListener"; "dispatchEvent" ]
                       ∨ p ∈ Object_prototype)
  then Some WritableData
  else if bool_decide (p ∈ [ "UNSENT"; "OPENED"; "HEADERS_RECEIVED";
                             "LOADING"; "DONE" ])
  then Some Constant
  else None.

(** What the page, outside the scripts, decides: the origin of the
    document, the result of [new URL(url, base).href] ([None] when the
    constructor throws), and whether [dispatchEvent] of an event of a given
    type fails. *)
Record Browser := {
  location_origin : string;
  URL_href : string → string → option string;
  dispatchEvent_throws : string → bool;
}.

End Platform.

(** ** [src/content/interceptor.js] *)

Module Relay.

(** A message posted on the page's window by one of the two scripts. *)
Record Message := {
  source : string;
  type : string;
  requestId : string;
  payload : MatchDecision;
}.

(** The [CHECK_MOCK] branch of the relay's listener, after the [await]:
    [forwarded] is what awaiting [chrome.runtime.sendMessage] gave, the
    worker's answer or an exception. *)
Definition on_check_mock (requestId : string)
    (forwarded : Completion MatchDecision) : Message :=
  match forwarded with
  | Return response =>
      {| source := "api-mocker-content"; type := "MOCK_RESPONSE";
         requestId := requestId; payload := response |}
  | Throw error =>
      {| source := "api-mocker-content"; type := "MOCK_RESPONSE";
         requestId := requestId;
         payload := {| shouldMock := false; response := SlotPrim PUndefined;
                       ruleId := None; error := Some (message error) |} |}
  end.

End Relay.

(** ** [src/content/interceptor.js]: the listener of window messages *)

Module ContentScript.

(** The [data] of the message [checkMock] of the injected script posts. *)
Record Query := {
  source : string;
  type : string;
  requestId : string;
  payload : ServiceWorker.RequestInfo;
}.

Record QueryEvent := {
  from_window : bool;
  data : option Query;
}.

(** What awaiting [chrome.runtime.sendMessage] gave, as the shims read it
    when it is the payload of a [MOCK_RESPONSE]: [shouldMock] of an object
    that has no such property is undefined, which their test takes as
    false. *)
Definition as_decision (response : Worker.Reply) : MatchDecision :=
  match response with
  | Worker.DecisionReply decision => decision
  | Worker.ErrorReply error =>
      {| shouldMock := false; response := SlotPrim PUndefined;
         ruleId := None; error := Some error |}
  | _ => noMock
  end.

(** The listener: [sendMessage] is [chrome.runtime.sendMessage], and the
    result is the list of the messages the listener posts on the window. *)
Definition on_message
    (sendMessage : Worker.Message → Completion Worker.Reply)
    (event : QueryEvent) : list Relay.Message :=
  if negb (from_window event) then []
  else
    match data event with
    | None => []
    | Some d =>
        if negb (String.eqb (source d) "api-mocker-injected") then []
        else if String.eqb (type d) "CHECK_MOCK" then
          [ Relay.on_check_mock (requestId d)
              match sendMessage (Worker.CHECK_MOCK (payload d)) with
              | Return response => Return (as_decision response)
              | Throw error => Throw error
              end ]
        else []
    end.

End ContentScript.

(** ** [src/content/injected.js] *)

Module Injected.
Import Platform.

(** *** The page context *)

(** The arguments of a call of [fetch]: a [Request] object or anything
    else, which [String] turns into a string, and the optional [init]. *)
Inductive FetchInput :=
| RequestObject (url method : string)
| Stringable (s : string).

Record FetchInit := { init_method : option string }.

Record FetchArguments := {
  input : FetchInput;
  init : option FetchInit;
}.

(** An [async] function suspended at [await checkMock(...)], with what it
    still needs when it resumes. *)
Inductive Awaiter :=
| FetchCall (this : N) (arguments : FetchArguments) (url method : string)
| SendCall (xhr : N) (body : option string).

(** The promise made by a call of [checkMock].  Calls are numbered by
    [requestCounter], and so are their promises. *)
Record Promise := {
  awaiter : Awaiter;
  settled : bool;
}.

(** An entry of [pendingRequests]: [resolve] is the resolving function of
    the promise of that number, [timeout] a timer handle. *)
Record PendingRequest := {
  resolve : N;
  timeout : N;
}.

Inductive Stage := OPENED | HEADERS_RECEIVED | LOADING | DONE.

Definition stage_value (st : Stage) : Z :=
  match st with
  | OPENED => 1
  | HEADERS_RECEIVED => 2
  | LOADING => 3
  | DONE => 4
  end.

(** The callbacks given to [setTimeout]. *)
Inductive TimerAction :=
| MockCheckTimeout (requestId : string) (resolve : N)
| ReadyStateStep (xhr : N) (stage : Stage).

Record Timer := {
  handle : N;
  due : N;
  action : TimerAction;
}.

Record XhrInfo := {
  method : string;
  url : string;
  async : bool;
  mocked : bool;
  mockResponse : option ResponseSlot;
}.

(** An own property of an instance whose value is data: an accessor made
    by [defineReadOnly] (a getter that returns a constant, no setter,
    configurable) or a data property made by an assignment. *)
Inductive Property :=
| Accessor (getter : Prim)
| Data (value : Prim).

(** What the two header methods installed by [simulateMockedXHR] close
    over. *)
Record Emulation := {
  em_headersStr : string;
  em_headers : option (list (string * string));
}.

(** An instance made by the replaced constructor.  The methods [open] and
    [send] the constructor installs are the transitions [xhr_open] and
    [xhr_send] below; [handlers] are the [on...] attributes that hold a
    function. *)
Record Xhr := {
  info : XhrInfo;
  own : gmap string Property;
  emulation : option Emulation;
  handlers : gset string;
}.

(** What a call returns to page code. *)
Inductive Returned :=
| Undefined
| PromiseOf (call : N).

(** What leaves the script: a query posted to the relay, a call of an
    original primitive (whose result the suspended function returns), a
    synthetic response, a call the script makes of a handler of the page
    with the [readyState] it reads, an event the script gives to
    [dispatchEvent] (what the listeners of the page do with it is the
    page's). *)
Inductive Effect :=
| PostMessage (requestId url method : string)
| OriginalFetch (call : N) (this : N) (arguments : FetchArguments)
| FetchMocked (call : N) (result : Completion Response)
| OriginalOpen (xhr : N) (method url : string) (async : bool)
    (user password : option string)
| OriginalSend (call : N) (xhr : N) (body : option string)
| HandlerCalled (xhr : N) (handler : string) (readyState : option Prim)
| EventDispatched (xhr : N) (type : string).

Record State := {
  now : N;
  requestCounter : N;
  pendingRequests : gmap string PendingRequest;
  promises : gmap N Promise;
  resolve_calls : list (N * MatchDecision);
  timers : list Timer;
  nextTimer : N;
  xhrs : gmap N Xhr;
  nextXhr : N;
  trace : list (N * Effect);
  uncaught : list Exn;
}.

Definition initial : State :=
  {| now := 0; requestCounter := 0; pendingRequests := ∅; promises := ∅;
     resolve_calls := []; timers := []; nextTimer := 0; xhrs := ∅;
     nextXhr := 0; trace := []; uncaught := [] |}.

(** A callback returns normally or throws, and in both cases leaves a
    state. *)
Inductive Outcome :=
| Normal (s : State)
| Abrupt (e : Exn) (s : State).

Definition set_now (f : N → N) (s : State) : State :=
  {| now := f (now s); requestCounter := requestCounter s;
     pendingRequests := pendingRequests s; promises := promises s;
     resolve_calls := resolve_calls s; timers := timers s;
     nextTimer := nextTimer s; xhrs := xhrs s; nextXhr := nextXhr s;
     trace := trace s; uncaught := uncaught s |}.

Definition set_requestCounter (f : N → N) (s : State) : State :=
  {| now := now s; requestCounter := f (requestCounter s);
     pendingRequests := pendingRequests s; promises := promises s;
     resolve_calls := resolve_calls s; timers := timers s;
     nextTimer := nextTimer s; xhrs := xhrs s; nextXhr := nextXhr s;
     trace := trace s; uncaught := uncaught s |}.

Definition set_pendingRequests
    (f : gmap string PendingRequest → gmap string PendingRequest)
    (s : State) : State :=
  {| now := now s; requestCounter := requestCounter s;
     pendingRequests := f (pendingRequests s); promises := promises s;
     resolve_calls := resolve_calls s; timers := timers s;
     nextTimer := nextTimer s; xhrs := xhrs s; nextXhr := nextXhr s;
     trace := trace s; uncaught := uncaught s |}.

Definition set_promises (f : gmap N Promise → gmap N Promise)
    (s : State) : State :=
  {| now := now s; requestCounter := requestCounter s;
     pendingRequests := pendingRequests s; promises := f (promises s);
     resolve_calls := resolve_calls s; timers := timers s;
     nextTimer := nextTimer s; xhrs := xhrs s; nextXhr := nextXhr s;
     trace := trace s; uncaught := uncaught s |}.

Definition set_resolve_calls
    (f : list (N * MatchDecision) → list (N * MatchDecision))
    (s : State) : State :=
  {| now := now s; requestCounter := requestCounter s;
     pendingRequests := pendingRequests s; promises := promises s;
     resolve_calls := f (resolve_calls s); timers := timers s;
     nextTimer := nextTimer s; xhrs := xhrs s; nextXhr := nextXhr s;
     trace := trace s; uncaught := uncaught s |}.

Definition set_timers (f : list Timer → list Timer) (s : State) : State :=
  {| now := now s; requestCounter := requestCounter s;
     pendingRequests := pendingRequests s; promises := promises s;
     resolve_calls := resolve_calls s; timers := f (timers s);
     nextTimer := nextTimer s; xhrs := xhrs s; nextXhr := nextXhr s;
     trace := trace s; uncaught := uncaught s |}.

Definition set_nextTimer (f : N → N) (s : State) : State :=
  {| now := now s; requestCounter := requestCounter s;
     pendingRequests := pendingRequests s; promises := promises s;
     resolve_calls := resolve_calls s; timers := timers s;
     nextTimer := f (nextTimer s); xhrs := xhrs s; nextXhr := nextXhr s;
     trace := trace s; uncaught := uncaught s |}.

Definition set_xhrs (f : gmap N Xhr → gmap N Xhr) (s : State) : State :=
  {| now := now s; requestCounter := requestCounter s;
     pendingRequests := pendingRequests s; promises := promises s;
     resolve_calls := resolve_calls s; timers := timers s;
     nextTimer := nextTimer s; xhrs := f (xhrs s); nextXhr := nextXhr s;
     trace := trace s; uncaught := uncaught s |}.

Definition set_nextXhr (f : N → N) (s : State) : State :=
  {| now := now s; requestCounter := requestCounter s;
     pendingRequests := pendingRequests s; promises := promises s;
     resolve_calls := resolve_calls s; timers := timers s;
     nextTimer := nextTimer s; xhrs := xhrs s; nextXhr := f (nextXhr s);
     trace := trace s; uncaught := uncaught s |}.

Definition set_trace (f : list (N * Effect) → list (N * Effect))
    (s : State) : State :=
  {| now := now s; requestCounter := requestCounter s;
     pendingRequests := pendingRequests s; promises := promises s;
     resolve_calls := resolve_calls s; timers := timers s;
     nextTimer := nextTimer s; xhrs := xhrs s; nextXhr := nextXhr s;
     trace := f (trace s); uncaught := uncaught s |}.

Definition set_uncaught (f : list Exn → list Exn) (s : State) : State :=
  {| now := now s; requestCounter := requestCounter s;
     pendingRequests := pendingRequests s; promises := promises s;
     resolve_calls := resolve_calls s; timers := timers s;
     nextTimer := nextTimer s; xhrs := xhrs s; nextXhr := nextXhr s;
     trace := trace s; uncaught := f (uncaught s) |}.

(** An effect is recorded with the time it happens at. *)
Definition emit (e : Effect) (s : State) : State :=
  set_trace (λ t, t ++ [(now s, e)])%list s.

(** [setTimeout(callback, delay)] and [clearTimeout(handle)]. *)
Definition setTimeout (a : TimerAction) (delay : N) (s : State) : State :=
  set_nextTimer N.succ
    (set_timers
       (λ ts, ts ++ [{| handle := nextTimer s; due := (now s + delay)%N;
                        action := a |}])%list s).

Definition clearTimeout (h : N) (s : State) : State :=
  set_timers (filter (λ t, handle t ≠ h)) s.

(** *** The correlation protocol *)

(** [generateRequestId]: the counter is incremented first. *)
Definition generateRequestId (s : State) : string * State :=
  let s := set_requestCounter N.succ s in
  ("req_" +:+ pretty (now s) +:+ "_" +:+ pretty (requestCounter s), s).

(** [checkMock(url, method)], called by the function that will await its
    promise. *)
Definition checkMock (url method : string) (aw : Awaiter) (s : State)
    : State :=
  let '(requestId, s) := generateRequestId s in
  let call := requestCounter s in
  let s := set_promises <[call := {| awaiter := aw; settled := false |}]> s in
  let timeout := nextTimer s in
  let s := setTimeout (MockCheckTimeout requestId call) 1000 s in
  let s := set_pendingRequests
             <[requestId := {| resolve := call; timeout := timeout |}]> s in
  emit (PostMessage requestId url method) s.

(** [const { status, statusText, headers, body } = mockResponse] on a
    truthy value: a primitive has none of the four properties. *)
Definition destructure (mockResponse : ResponseSlot) : ResponsePayload :=
  match mockResponse with
  | SlotObj r => r
  | SlotPrim _ =>
      {| status := None; statusText := None; headers := None; body := None |}
  end.

(** *** The mock branch of [fetch] *)

Definition mock_fetch_response (mockResponse : ResponseSlot)
    : Completion Response :=
  let r := destructure mockResponse in
  match Headers_new (default [] (headers r)) with
  | Throw e => Throw e
  | Return responseHeaders =>
      let responseInit :=
        {| init_status := num_or (status r) 200;
           init_statusText := str_or (statusText r) "OK";
           init_headers := responseHeaders |} in
      Response_new (str_or (body r) "") responseInit
  end.

(** *** The emulator of a mocked [XMLHttpRequest] *)

Definition update_xhr (x : N) (f : Xhr → Xhr) (s : State) : State :=
  set_xhrs (alter f x) s.

Definition defineReadOnly (prop : string) (value : Prim) (obj : Xhr) : Xhr :=
  {| info := info obj; own := <[prop := Accessor value]> (own obj);
     emulation := emulation obj; handlers := handlers obj |}.

Definition set_emulation (e : Emulation) (obj : Xhr) : Xhr :=
  {| info := info obj; own := own obj; emulation := Some e;
     handlers := handlers obj |}.

Definition set_info (i : XhrInfo) (obj : Xhr) : Xhr :=
  {| info := i; own := own obj; emulation := emulation obj;
     handlers := handlers obj |}.

Definition set_handlers (h : gset string) (obj : Xhr) : Xhr :=
  {| info := info obj; own := own obj; emulation := emulation obj;
     handlers := h |}.

Definition set_own (o : gmap string Property) (obj : Xhr) : Xhr :=
  {| info := info obj; own := o; emulation := emulation obj;
     handlers := handlers obj |}.

Definition CRLF : string :=
  String (ascii_of_N 13) (String (ascii_of_N 10) EmptyString).

(** The loop that builds [headersStr]. *)
Definition build_headersStr (headers : option (list (string * string)))
    : string :=
  match headers with
  | Some entries =>
      fold_left (λ headersStr '(key, value),
                   headersStr +:+ key +:+ ": " +:+ value +:+ CRLF)
                entries ""
  | None => ""
  end.

(** What [getResponseHeader] of a mocked instance returns: a string, null,
    or what the header object inherits under that name. *)
Inductive HeaderResult :=
| HeaderString (value : string)
| HeaderNull
| FromObjectPrototype (name : string).

(** [headers[name]] on a plain object, [None] when undefined. *)
Definition header_property (entries : list (string * string)) (name : string)
    : option HeaderResult :=
  match List.find (λ e, String.eqb e.1 name) entries with
  | Some e => Some (HeaderString e.2)
  | None =>
      if bool_decide (name ∈ Object_prototype)
      then Some (FromObjectPrototype name)
      else None
  end.

Definition header_truthy (v : option HeaderResult) : bool :=
  match v with
  | Some (HeaderString value) => negb (String.eqb value "")
  | Some (FromObjectPrototype _) => true
  | Some HeaderNull | None => false
  end.

Definition getResponseHeader (headers : option (list (string * string)))
    (name : string) : HeaderResult :=
  match headers with
  | None => HeaderNull
  | Some entries =>
      if header_truthy (header_property entries name)
      then default HeaderNull (header_property entries name)
      else
        let lowerName := toLowerCase name in
        match List.find (λ e, String.eqb (toLowerCase e.1) lowerName) entries with
        | Some e => HeaderString e.2
        | None => HeaderNull
        end
  end.

Definition simulateMockedXHR (x : N) (mockResponse : ResponseSlot)
    (s : State) : State :=
  let r := destructure mockResponse in
  let s := update_xhr x (defineReadOnly "status" (PNum (num_or (status r) 200))) s in
  let s := update_xhr x (defineReadOnly "statusText" (PStr (str_or (statusText r) "OK"))) s in
  let s := update_xhr x (defineReadOnly "response" (PStr (str_or (body r) ""))) s in
  let s := update_xhr x (defineReadOnly "responseText" (PStr (str_or (body r) ""))) s in
  let s := update_xhr x (defineReadOnly "responseURL" (PStr "")) s in
  let headersStr := build_headersStr (headers r) in
  let s := update_xhr x (set_emulation {| em_headersStr := headersStr;
                                          em_headers := headers r |}) s in
  setTimeout (ReadyStateStep x OPENED) 5 s.

(** Reading a property of an instance: [None] stands for what the native
    object answers. *)
Definition xhr_get (obj : Xhr) (prop : string) : option Prim :=
  match own obj !! prop with
  | Some (Accessor v) => Some v
  | Some (Data v) => Some v
  | None => None
  end.

(** [if (xhr.h) xhr.h(...)]: the handler is called when one is set. *)
Definition call_handler (x : N) (h : string) (s : State) : State :=
  match xhrs s !! x with
  | Some obj =>
      if bool_decide (h ∈ handlers obj)
      then emit (HandlerCalled x h (xhr_get obj "readyState")) s
      else s
  | None => s
  end.

Definition dispatchEvent (B : Browser) (x : N) (type : string) (s : State)
    : Outcome :=
  if dispatchEvent_throws B type
  then Abrupt (Error "Error" "dispatchEvent failed") s
  else Normal (emit (EventDispatched x type) s).

Definition and_then (o : Outcome) (k : State → Outcome) : Outcome :=
  match o with
  | Normal s => k s
  | Abrupt e s => Abrupt e s
  end.

Definition try_catch (o : Outcome) (handler : Exn → State → Outcome)
    : Outcome :=
  match o with
  | Normal s => Normal s
  | Abrupt e s => handler e s
  end.

(** The four nested timer callbacks. *)
Definition ready_state_step (B : Browser) (x : N) (st : Stage) (s : State)
    : Outcome :=
  let s := update_xhr x (defineReadOnly "readyState" (PNum (stage_value st))) s in
  let s := call_handler x "onreadystatechange" s in
  match st with
  | OPENED => Normal (setTimeout (ReadyStateStep x HEADERS_RECEIVED) 5 s)
  | HEADERS_RECEIVED => Normal (setTimeout (ReadyStateStep x LOADING) 5 s)
  | LOADING => Normal (setTimeout (ReadyStateStep x DONE) 5 s)
  | DONE =>
      let s := call_handler x "onload" s in
      let s := call_handler x "onloadend" s in
      try_catch
        (and_then (dispatchEvent B x "load" s) (dispatchEvent B x "loadend"))
        (λ e s, Normal s)
  end.

(** *** Resuming after the decision *)

Definition resume (aw : Awaiter) (call : N) (mockCheck : MatchDecision)
    (s : State) : State :=
  match aw with
  | FetchCall this arguments url method =>
      if shouldMock mockCheck && slot_truthy (response mockCheck)
      then emit (FetchMocked call (mock_fetch_response (response mockCheck))) s
      else emit (OriginalFetch call this arguments) s
  | SendCall x body =>
      if shouldMock mockCheck && slot_truthy (response mockCheck)
      then
        let s := update_xhr x
                   (λ obj, set_info
                      {| method := method (info obj); url := url (info obj);
                         async := async (info obj); mocked := true;
                         mockResponse := Some (response mockCheck) |} obj) s in
        simulateMockedXHR x (response mockCheck) s
      else emit (OriginalSend call x body) s
  end.

(** A call of the resolving function of promise [p]: it settles the
    promise and resumes its awaiter unless the promise is settled
    already.  The awaiter is resumed at once; in the browser it resumes in
    the microtask that follows, before any other event of the loop. *)
Definition resolve_promise (p : N) (value : MatchDecision) (s : State)
    : State :=
  let s := set_resolve_calls (λ l, l ++ [(p, value)])%list s in
  match promises s !! p with
  | Some pr =>
      if settled pr then s
      else resume (awaiter pr) p value
             (set_promises <[p := {| awaiter := awaiter pr; settled := true |}]> s)
  | None => s
  end.

(** The listener of window messages. *)
Record MessageEvent := {
  from_window : bool;
  data : option Relay.Message;
}.

Definition on_message (event : MessageEvent) (s : State) : State :=
  if negb (from_window event) then s
  else
    match data event with
    | None => s
    | Some d =>
        if negb (String.eqb (Relay.source d) "api-mocker-content") then s
        else if String.eqb (Relay.type d) "MOCK_RESPONSE"
                && negb (String.eqb (Relay.requestId d) "")
        then
          match pendingRequests s !! Relay.requestId d with
          | Some pending =>
              let s := clearTimeout (timeout pending) s in
              let s := set_pendingRequests (delete (Relay.requestId d)) s in
              resolve_promise (resolve pending) (Relay.payload d) s
          | None => s
          end
        else s
    end.

(** *** Timers *)

Definition fire (B : Browser) (t : Timer) (s : State) : State :=
  match action t with
  | MockCheckTimeout requestId p =>
      let s := set_pendingRequests (delete requestId) s in
      resolve_promise p noMock s
  | ReadyStateStep x st =>
      match ready_state_step B x st s with
      | Normal s => s
      | Abrupt e s => set_uncaught (λ l, l ++ [e])%list s
      end
  end.

(** The timer of handle [h] runs, unless it was cleared meanwhile; a timer
    that runs is no longer set. *)
Definition run_timer (B : Browser) (s : State) (h : N) : State :=
  match List.find (λ t, N.eqb (handle t) h) (timers s) with
  | Some t => fire B t (clearTimeout h s)
  | None => s
  end.

(** One millisecond passes, and the timers that are due run, in the order
    they were set in.  Every delay in the script is positive, so a timer set
    by a callback is not due in the tick that runs the callback. *)
Definition tick (B : Browser) (s : State) : State :=
  let s := set_now N.succ s in
  fold_left (run_timer B)
    (handle <$> filter (λ t, (due t ≤ now s)%N) (timers s)) s.

(** *** The replaced primitives *)

(** [window.fetch], up to its [await]. *)
Definition fetch (B : Browser) (this : N) (arguments : FetchArguments)
    (s : State) : Returned * State :=
  let '(url, method) :=
    match input arguments with
    | RequestObject u m => (u, str_or (Some m) "GET")
    | Stringable str =>
        (str, str_or (init_method (default {| init_method := None |}
                                           (init arguments))) "GET")
    end in
  let url :=
    match URL_href B url (location_origin B) with
    | Some href => href
    | None => url
    end in
  let s := checkMock url (toUpperCase method)
             (FetchCall this arguments url method) s in
  (PromiseOf (requestCounter s), s).

(** [new XMLHttpRequest()]. *)
Definition fresh_instance : Xhr :=
  let xhrInfo := {| method := "GET"; url := ""; async := true;
                    mocked := false; mockResponse := None |} in
  {| info := xhrInfo; own := ∅; emulation := None; handlers := ∅ |}.

Definition XMLHttpRequest (s : State) : N * State :=
  (nextXhr s, set_nextXhr N.succ (set_xhrs <[nextXhr s := fresh_instance]> s)).

(** [xhr.open]. *)
Definition xhr_open (B : Browser) (x : N) (method url : string) (async : bool)
    (user password : option string) (s : State) : State :=
  let normalized :=
    match URL_href B url (location_origin B) with
    | Some href => href
    | None => url
    end in
  let s := update_xhr x
             (λ obj, set_info
                {| method := toUpperCase method; url := normalized;
                   async := async; mocked := mocked (info obj);
                   mockResponse := mockResponse (info obj) |} obj) s in
  emit (OriginalOpen x method url async user password) s.

(** [xhr.send], up to its [await]: an [async] function returns a promise. *)
Definition xhr_send (x : N) (body : option string) (s : State)
    : Returned * State :=
  match xhrs s !! x with
  | Some obj =>
      let s := checkMock (url (info obj)) (method (info obj))
                 (SendCall x body) s in
      (PromiseOf (requestCounter s), s)
  | None => (Undefined, s)
  end.

(** The native [send] the shim replaces returns nothing. *)
Definition originalSend_returns : Returned := Undefined.

(** The two header methods of an instance: [None] stands for what the
    native methods answer, which is what an instance that was not mocked
    still has. *)
Definition xhr_getAllResponseHeaders (obj : Xhr) : option string :=
  em_headersStr <$> emulation obj.

Definition xhr_getResponseHeader (obj : Xhr) (name : string)
    : option HeaderResult :=
  (λ em, getResponseHeader (em_headers em) name) <$> emulation obj.

(** *** Assignment by page code *)

(** [OrdinarySet] on an instance: [None] when the assignment fails. *)
Definition ordinary_set (obj : Xhr) (prop : string) (v : Prim) : option Xhr :=
  match own obj !! prop with
  | Some (Accessor _) => None
  | Some (Data _) => Some (set_own (<[prop := Data v]> (own obj)) obj)
  | None =>
      match XMLHttpRequest_prototype prop with
      | Some ReadOnlyAttribute | Some Constant => None
      | Some WritableAttribute =>
          Some (set_handlers (handlers obj ∖ {[prop]}) obj)
      | Some WritableData | None =>
          Some (set_own (<[prop := Data v]> (own obj)) obj)
      end
  end.

(** [xhr.prop = v] in strict or in sloppy code. *)
Definition xhr_assign (strict : bool) (x : N) (prop : string) (v : Prim)
    (s : State) : Outcome :=
  match xhrs s !! x with
  | Some obj =>
      match ordinary_set obj prop v with
      | Some obj' => Normal (set_xhrs <[x := obj']> s)
      | None =>
          if strict
          then Abrupt (TypeError "Cannot set property which has only a getter") s
          else Normal s
      end
  | None => Normal s
  end.

(** [xhr.h = function ...] and [xhr.h = null] for a handler attribute. *)
Definition set_handler (x : N) (h : string) (registered : bool) (s : State)
    : State :=
  update_xhr x
    (λ obj, set_handlers
       (if registered then handlers obj ∪ {[h]} else handlers obj ∖ {[h]})
       obj) s.

(** *** The event loop *)

Inductive Event :=
| CallFetch (this : N) (arguments : FetchArguments)
| NewXhr
| CallOpen (x : N) (method url : string) (async : bool)
    (user password : option string)
| CallSend (x : N) (body : option string)
| SetHandler (x : N) (h : string) (registered : bool)
| Assign (strict : bool) (x : N) (prop : string) (v : Prim)
| Message (event : MessageEvent)
| Tick.

Definition step (B : Browser) (s : State) (e : Event) : State :=
  match e with
  | CallFetch this arguments => (fetch B this arguments s).2
  | NewXhr => (XMLHttpRequest s).2
  | CallOpen x method url async user password =>
      xhr_open B x method url async user password s
  | CallSend x body => (xhr_send x body s).2
  | SetHandler x h registered => set_handler x h registered s
  | Assign strict x prop v =>
      match xhr_assign strict x prop v s with
      | Normal s | Abrupt _ s => s
      end
  | Message event => on_message event s
  | Tick => tick B s
  end.

Definition run (B : Browser) (s : State) (events : list Event) : State :=
  fold_left (step B) events s.

End Injected.

(** * The notions the properties are stated with *)

(** ** Messages and decisions *)

Module Pipeline.
Import Platform Injected.

(** The window message the relay posts for a query: [forwarded] is the
    worker's answer, or the exception of a failed forwarding. *)
Definition relayed (requestId : string) (forwarded : Completion MatchDecision)
    : MessageEvent :=
  {| from_window := true;
     data := Some (Relay.on_check_mock requestId forwarded) |}.

Definition reply (requestId : string) (d : MatchDecision) : MessageEvent :=
  relayed requestId (Return d).

(** The call of the original primitive a suspended function makes when it
    does not mock. *)
Definition original_call (call : N) (aw : Awaiter) : Effect :=
  match aw with
  | FetchCall this arguments _ _ => OriginalFetch call this arguments
  | SendCall x body => OriginalSend call x body
  end.

(** The guard of both shims: [mockCheck.shouldMock && mockCheck.response]. *)
Definition mocks (d : MatchDecision) : bool :=
  shouldMock d && slot_truthy (response d).

End Pipeline.

(** ** A query on its way from the page to the worker and back *)

Module RoundTrip.
Import Platform Injected.

(** The window message event of a [postMessage] of the injected script, as
    the listener of the content script gets it. *)
Definition posted (e : Effect) : option ContentScript.QueryEvent :=
  match e with
  | PostMessage requestId url method =>
      Some {| ContentScript.from_window := true;
              ContentScript.data :=
                Some {| ContentScript.source := "api-mocker-injected";
                        ContentScript.type := "CHECK_MOCK";
                        ContentScript.requestId := requestId;
                        ContentScript.payload :=
                          {| ServiceWorker.req_url := url;
                             ServiceWorker.req_method := method |} |} |}
  | _ => None
  end.

(** The window message event of a [postMessage] of the content script, as
    the listener of the injected script gets it. *)
Definition relayed (m : Relay.Message) : MessageEvent :=
  {| from_window := true; data := Some m |}.

(** [chrome.runtime.sendMessage] when the worker is in the world [w] and
    handles the message with no other handler in between. *)
Definition sendMessage (E : Worker.Env) (w : Worker.World)
    (message : Worker.Message) : Completion Worker.Reply :=
  (Worker.serve E message w).1.

(** The messages that come back to the page for an effect of the injected
    script. *)
Definition answers (E : Worker.Env) (w : Worker.World) (e : Effect)
    : list MessageEvent :=
  match posted e with
  | Some event => relayed <$> ContentScript.on_message (sendMessage E w) event
  | None => []
  end.

End RoundTrip.

(** ** Queries *)

Module Query.
Import Platform Injected.

(** The identifier of the query of call number [counter] made at time
    [now]. *)
Definition request_id (now counter : N) : string :=
  "req_" +:+ pretty now +:+ "_" +:+ pretty counter.

(** The string the shim starts from: [input.url] or [String(input)]. *)
Definition literal_url (arguments : FetchArguments) : string :=
  match input arguments with
  | RequestObject u _ => u
  | Stringable str => str
  end.

(** The method the shim extracts, before it is uppercased. *)
Definition extracted_method (arguments : FetchArguments) : string :=
  match input arguments with
  | RequestObject _ m => str_or (Some m) "GET"
  | Stringable _ =>
      str_or (init_method (default {| init_method := None |} (init arguments)))
             "GET"
  end.

(** The timer of a query. *)
Definition deadline (s : State) : Timer :=
  {| handle := nextTimer s; due := (now s + 1000)%N;
     action := MockCheckTimeout (request_id (now s) (N.succ (requestCounter s)))
                 (N.succ (requestCounter s)) |}.

(** The state [checkMock] leaves, field by field. *)
Definition issued (url method : string) (aw : Awaiter) (s : State) : State :=
  {| now := now s;
     requestCounter := N.succ (requestCounter s);
     pendingRequests :=
       <[request_id (now s) (N.succ (requestCounter s)) :=
           {| resolve := N.succ (requestCounter s); timeout := nextTimer s |}]>
         (pendingRequests s);
     promises :=
       <[N.succ (requestCounter s) := {| awaiter := aw; settled := false |}]>
         (promises s);
     resolve_calls := resolve_calls s;
     timers := timers s ++ [deadline s];
     nextTimer := N.succ (nextTimer s);
     xhrs := xhrs s;
     nextXhr := nextXhr s;
     trace := trace s
              ++ [(now s, PostMessage
                            (request_id (now s) (N.succ (requestCounter s)))
                            url method)];
     uncaught := uncaught s |}.

(** The string holds no underscore. *)
Fixpoint no_underscore (s : string) : bool :=
  match s with
  | EmptyString => true
  | String c r => negb (Ascii.eqb c "_") && no_underscore r
  end.

End Query.

(** ** The emulated instance *)

Module Emulator.
Import Platform Injected.

(** The properties [simulateMockedXHR] and its callbacks define. *)
Definition overridden : list string :=
  [ "status"; "statusText"; "response"; "responseText"; "responseURL";
    "readyState" ].

(** The state a callback leaves. *)
Definition state_of (o : Outcome) : State :=
  match o with
  | Normal s | Abrupt _ s => s
  end.

(** The instance once [simulateMockedXHR] has run on it. *)
Definition emulated (r : ResponsePayload) (obj : Xhr) : Xhr :=
  set_emulation
    {| em_headersStr := build_headersStr (headers r);
       em_headers := headers r |}
    (defineReadOnly "responseURL" (PStr "")
       (defineReadOnly "responseText" (PStr (str_or (body r) ""))
          (defineReadOnly "response" (PStr (str_or (body r) ""))
             (defineReadOnly "statusText" (PStr (str_or (statusText r) "OK"))
                (defineReadOnly "status" (PNum (num_or (status r) 200))
                   obj))))).

(** The value the emulator gives each property, in the words of the
    specification. *)
Definition fixed_value (r : ResponsePayload) (st : Stage) (prop : string)
    : option Prim :=
  if String.eqb prop "status" then Some (PNum (num_or (status r) 200))
  else if String.eqb prop "statusText" then Some (PStr (str_or (statusText r) "OK"))
  else if String.eqb prop "response" then Some (PStr (str_or (body r) ""))
  else if String.eqb prop "responseText" then Some (PStr (str_or (body r) ""))
  else if String.eqb prop "responseURL" then Some (PStr "")
  else if String.eqb prop "readyState" then Some (PNum (stage_value st))
  else None.

(** One line of the listing of [getAllResponseHeaders]. *)
Definition header_line (e : string * string) : string :=
  e.1 +:+ ": " +:+ e.2 +:+ CRLF.

End Emulator.

(** ** Well-formed states *)

Module Invariant.
Import Platform Injected Query.

(** The call an effect belongs to, for the effects a resumed call makes. *)
Definition call_of (e : Effect) : option N :=
  match e with
  | OriginalFetch c _ _ | FetchMocked c _ | OriginalSend c _ _ => Some c
  | _ => None
  end.

Definition tags (tr : list (N * Effect)) : list N :=
  omap (λ te, call_of te.2) tr.

(** The promises whose resolving function has been called. *)
Definition resolved (s : State) : list N := (resolve_calls s).*1.

Record wf (s : State) : Prop := {
  wf_handles : NoDup (handle <$> timers s);
  wf_handle_bound : ∀ t, t ∈ timers s → (handle t < nextTimer s)%N;
  wf_timeout : ∀ t i q,
    t ∈ timers s → action t = MockCheckTimeout i q →
    pendingRequests s !! i = Some {| resolve := q; timeout := handle t |};
  wf_pending : ∀ i e,
    pendingRequests s !! i = Some e →
    (resolve e ≤ requestCounter s)%N
    ∧ (timeout e < nextTimer s)%N
    ∧ (∃ t, i = request_id t (resolve e))
    ∧ (∃ aw, promises s !! resolve e
             = Some {| awaiter := aw; settled := false |})
    ∧ resolve e ∉ resolved s;
  wf_pending_inj : ∀ i j e f,
    pendingRequests s !! i = Some e → pendingRequests s !! j = Some f →
    resolve e = resolve f ∨ timeout e = timeout f → i = j;
  wf_resolved : ∀ p, p ∈ resolved s → (p ≤ requestCounter s)%N;
  wf_once : NoDup (resolved s);
  wf_promises : ∀ p pr, promises s !! p = Some pr → (p ≤ requestCounter s)%N;
  wf_tags : ∀ c, c ∈ tags (trace s) →
    ∃ aw, promises s !! c = Some {| awaiter := aw; settled := true |};
  wf_tags_once : NoDup (tags (trace s));
}.

(** The bookkeeping both ways of settling a query share: the timer of the
    entry is no longer set, the entry is deleted, the call of the resolving
    function is made and the promise is settled. *)
Definition retire (i : string) (e : PendingRequest) (aw : Awaiter)
    (d : MatchDecision) (s : State) : State :=
  set_promises <[resolve e := {| awaiter := aw; settled := true |}]>
    (set_resolve_calls (λ l, l ++ [(resolve e, d)])
       (set_pendingRequests (delete i) (clearTimeout (timeout e) s))).

(** [s'] has the registry, the log, the counter and the clock of [s]. *)
Definition same_registry (s s' : State) : Prop :=
  pendingRequests s' = pendingRequests s
  ∧ resolve_calls s' = resolve_calls s
  ∧ requestCounter s' = requestCounter s
  ∧ now s' = now s.

End Invariant.

(** ** Waiting for a decision *)

Module Waiting.
Import Platform Injected Query.

(** The number of milliseconds a list of events lasts. *)
Fixpoint ticks (events : list Event) : N :=
  match events with
  | [] => 0
  | Tick :: rest => N.succ (ticks rest)
  | _ :: rest => ticks rest
  end.

(** The event is a window message the listener accepts as a reply to the
    query [id]. *)
Definition replies_to (id : string) (ev : Event) : Prop :=
  match ev with
  | Message event =>
      from_window event = true
      ∧ ∃ m, data event = Some m
             ∧ Relay.source m = "api-mocker-content"
             ∧ Relay.type m = "MOCK_RESPONSE"
             ∧ Relay.requestId m = id
  | _ => False
  end.

(** The query [id] of call [p] is waiting: its entry is in the registry,
    its deadline [h] is set for the time [T], its promise is unsettled. *)
Definition awaiting (id : string) (p h T : N) (aw : Awaiter) (s : State)
    : Prop :=
  pendingRequests s !! id = Some {| resolve := p; timeout := h |}
  ∧ {| handle := h; due := T; action := MockCheckTimeout id p |} ∈ timers s
  ∧ promises s !! p = Some {| awaiter := aw; settled := false |}.

(** [s'] continues [s]: the log and the trace of [s'] extend those of
    [s]. *)
Definition continues (s s' : State) : Prop :=
  (∃ l, resolve_calls s' = resolve_calls s ++ l)
  ∧ (∃ l, trace s' = trace s ++ l).

End Waiting.

(** ** What a call did *)

Module PassThrough.
Import Platform Injected Invariant.

(** What the call number [p] did when it resumed. *)
Definition effects_of (p : N) (tr : list (N * Effect)) : list (N * Effect) :=
  filter (λ te, call_of te.2 = Some p) tr.

End PassThrough.

(** ** The emulation of one instance *)

Module Lifecycle.
Import Platform Injected Invariant.

(** The timer is a callback of the emulation of instance [x]. *)
Definition steps (x : N) (t : Timer) : bool :=
  match action t with
  | ReadyStateStep x' _ => N.eqb x' x
  | MockCheckTimeout _ _ => false
  end.

Definition x_timers (x : N) (s : State) : list Timer :=
  filter (λ t, steps x t = true) (timers s).

(** The effect is a call of a handler of instance [x] or an event
    dispatched on it. *)
Definition concerns (x : N) (e : Effect) : bool :=
  match e with
  | HandlerCalled x' _ _ | EventDispatched x' _ => N.eqb x' x
  | _ => false
  end.

Definition emulation_effects (x : N) (tr : list (N * Effect))
    : list (N * Effect) :=
  filter (λ te, concerns x te.2 = true) tr.

Definition next_stage (st : Stage) : option Stage :=
  match st with
  | OPENED => Some HEADERS_RECEIVED
  | HEADERS_RECEIVED => Some LOADING
  | LOADING => Some DONE
  | DONE => None
  end.

(** A call of handler [h] at time [t], if the handler is set. *)
Definition called (H : gset string) (x : N) (h : string) (t : N) (v : Z)
    : list (N * Effect) :=
  if bool_decide (h ∈ H) then [(t, HandlerCalled x h (Some (PNum v)))] else [].

(** The events dispatched at the end: [loadend] follows [load], and a
    failure ends the list. *)
Definition dispatched (B : Browser) (x : N) (t : N) : list (N * Effect) :=
  if dispatchEvent_throws B "load" then []
  else (t, EventDispatched x "load")
       :: (if dispatchEvent_throws B "loadend" then []
           else [(t, EventDispatched x "loadend")]).

(** What one callback of the emulator shows to the page at time [t]. *)
Definition step_effects (B : Browser) (H : gset string) (x : N) (st : Stage)
    (t : N) : list (N * Effect) :=
  called H x "onreadystatechange" t (stage_value st)
  ++ match st with
     | DONE => called H x "onload" t 4 ++ called H x "onloadend" t 4
               ++ dispatched B x t
     | _ => []
     end.

(** What of a state the emulation of [x] depends on and shows. *)
Definition same_view (x : N) (s s' : State) : Prop :=
  x_timers x s' = x_timers x s
  ∧ xhrs s' !! x = xhrs s !! x
  ∧ emulation_effects x (trace s') = emulation_effects x (trace s)
  ∧ uncaught s' = uncaught s
  ∧ now s' = now s.

(** The emulation of [x] has exactly one callback set, the one of stage
    [st], due at [D]; [H] are the handlers of the instance. *)
Definition scheduled (x : N) (st : Stage) (D : N) (H : gset string)
    (s : State) : Prop :=
  wf s
  ∧ (∃ h, x_timers x s
          = [{| handle := h; due := D; action := ReadyStateStep x st |}])
  ∧ handlers <$> (xhrs s !! x) = Some H.

End Lifecycle.

(** ** What a run has done so far *)

Module History.
Import Platform Injected.

(** The identifiers of the queries posted, in the order of their posting. *)
Definition queries (tr : list (N * Effect)) : list string :=
  omap (λ te, match te.2 with
              | PostMessage requestId _ _ => Some requestId
              | _ => None
              end) tr.

(** The instance carries something of the emulator: the two header methods
    it installs, or an accessor made by [defineReadOnly]. *)
Definition emulator_marks (obj : Xhr) : Prop :=
  emulation obj ≠ None ∨ ∃ prop v, own obj !! prop = Some (Accessor v).

(** A [send] of instance [x] was resumed with a decision that mocks. *)
Definition mocked_send (x : N) (s : State) : Prop :=
  ∃ p d body,
    (p, d) ∈ resolve_calls s
    ∧ promises s !! p
      = Some {| awaiter := SendCall x body; settled := true |}
    ∧ Pipeline.mocks d = true.

(** [s'] keeps the calls of resolving functions and the settled promises
    of [s]. *)
Definition keeps (s s' : State) : Prop :=
  (∀ p d, (p, d) ∈ resolve_calls s → (p, d) ∈ resolve_calls s')
  ∧ (∀ p aw, promises s !! p = Some {| awaiter := aw; settled := true |} →
             promises s' !! p = Some {| awaiter := aw; settled := true |}).

(** Whatever carries a mark of the emulator, or is about to get one from a
    timer, belongs to an instance with a mocked [send]. *)
Definition marks_justified (s : State) : Prop :=
  (∀ x obj, xhrs s !! x = Some obj → emulator_marks obj → mocked_send x s)
  ∧ (∀ t x st, t ∈ timers s → action t = ReadyStateStep x st →
               mocked_send x s).

(** The identifiers posted are those of the calls counted so far, in
    their order: the [k]-th carries the call number [k] and a time. *)
Definition queries_numbered (s : State) : Prop :=
  ∃ times : list N,
    List.length times = N.to_nat (requestCounter s)
    ∧ queries (trace s)
      = imap (λ k t, Query.request_id t (N.of_nat (S k))) times.

(** [s'] has posted what [s] has, and counts the calls [s] counts. *)
Definition same_queries (s s' : State) : Prop :=
  queries (trace s') = queries (trace s)
  ∧ requestCounter s' = requestCounter s.

End History.

(** ** [src/devtools/panel.js]: the helpers of the rule list *)

Module Panel.

(** The characters the helpers name. *)
Definition amp : ascii := ascii_of_N 38.
Definition lt : ascii := ascii_of_N 60.
Definition gt : ascii := ascii_of_N 62.
Definition quot : ascii := ascii_of_N 34.
Definition apos : ascii := ascii_of_N 39.

(** [str.replace(/c/g, by)] for a regular expression that is the one
    character [c]. *)
Fixpoint replace_all (c : ascii) (by_ : string) (str : string) : string :=
  match str with
  | EmptyString => EmptyString
  | String a rest =>
      (if Ascii.eqb a c then by_ else String a EmptyString)
      +:+ replace_all c by_ rest
  end.

(** [escapeHtml]: the test [!str] is that of the empty string, for a
    string. *)
Definition escapeHtml (str : string) : string :=
  if String.eqb str "" then ""
  else
    replace_all apos "&#039;"
      (replace_all quot "&quot;"
         (replace_all gt "&gt;"
            (replace_all lt "&lt;"
               (replace_all amp "&amp;" str)))).

(** [str.substring(0, end)] for an integer [end]: an end below 0 counts
    as 0, one beyond the string as its length. *)
Definition substring_to (end_ : Z) (str : string) : string :=
  String.substring 0 (Z.to_nat end_) str.

(** [truncateUrl(url, maxLength)]; the callers leave [maxLength] to its
    default, 50. *)
Definition truncateUrl (url : string) (maxLength : Z) : string :=
  if Z.of_nat (String.length url) <=? maxLength then url
  else substring_to (maxLength - 3) url +:+ "...".

(** What one character becomes, in the words of HTML: the reference of
    its entity, for the five characters of markup. *)
Definition entity (c : ascii) : string :=
  if Ascii.eqb c amp then "&amp;"
  else if Ascii.eqb c lt then "&lt;"
  else if Ascii.eqb c gt then "&gt;"
  else if Ascii.eqb c quot then "&quot;"
  else if Ascii.eqb c apos then "&#039;"
  else String c EmptyString.

Fixpoint entities (str : string) : string :=
  match str with
  | EmptyString => EmptyString
  | String c rest => entity c +:+ entities rest
  end.

End Panel.

(** ** [src/utils/curl-parser.js]: the tokenizer *)

Module CurlParser.

Definition double_quote : ascii := ascii_of_N 34.
Definition single_quote : ascii := ascii_of_N 39.
Definition backslash : ascii := ascii_of_N 92.
Definition space : ascii := ascii_of_N 32.

(** The variables of the loop of [tokenize]; [previous] is
    [command[i - 1]], undefined at the first character. *)
Record Tokenizer := {
  tokens : list string;
  current : string;
  inQuote : option ascii;
  previous : option ascii;
}.

Definition push (current : string) (tokens : list string) : list string :=
  if String.eqb current "" then tokens else tokens ++ [current].

(** One round of the loop, on the character [char]. *)
Definition tokenize_char (t : Tokenizer) (char : ascii) : Tokenizer :=
  match inQuote t with
  | Some quote =>
      if Ascii.eqb char quote
         && negb (bool_decide (previous t = Some backslash))
      then {| tokens := tokens t; current := current t; inQuote := None;
              previous := Some char |}
      else {| tokens := tokens t;
              current := current t +:+ String char EmptyString;
              inQuote := inQuote t; previous := Some char |}
  | None =>
      if Ascii.eqb char double_quote || Ascii.eqb char single_quote
      then {| tokens := tokens t; current := current t;
              inQuote := Some char; previous := Some char |}
      else if Ascii.eqb char space
      then {| tokens := push (current t) (tokens t); current := "";
              inQuote := None; previous := Some char |}
      else {| tokens := tokens t;
              current := current t +:+ String char EmptyString;
              inQuote := None; previous := Some char |}
  end.

(** The loop, from the variables [t], on the characters of [str]. *)
Definition scan (t : Tokenizer) (str : string) : Tokenizer :=
  fold_left tokenize_char (list_ascii_of_string str) t.
Arguments scan : simpl never.

Definition tokenize (command : string) : list string :=
  let t := scan {| tokens := []; current := ""; inQuote := None;
                   previous := None |} command in
  push (current t) (tokens t).

(** [isArgFlag]. *)
Definition argFlags : list string :=
  [ "-X"; "--request"; "-H"; "--header"; "-d"; "--data"; "--data-raw";
    "--data-binary"; "--data-urlencode"; "-u"; "--user"; "-A";
    "--user-agent"; "-e"; "--referer"; "-o"; "--output"; "--url"; "-L";
    "--location"; "-b"; "--cookie"; "-c"; "--cookie-jar";
    "--connect-timeout"; "-m"; "--max-time" ].

Definition isArgFlag (flag : string) : bool :=
  bool_decide (flag ∈ argFlags).

(** An argument between single quotes, and arguments joined by single
    spaces: how a shell command line is written. *)
Definition quoted (argument : string) : string :=
  String single_quote (argument +:+ String single_quote EmptyString).

Definition joined (arguments : list string) : string :=
  String.concat " " arguments.

(** The argument can stand between single quotes: it holds no single
    quote and does not end with a backslash. *)
Fixpoint quotable (argument : string) : bool :=
  match argument with
  | EmptyString => true
  | String c EmptyString =>
      negb (Ascii.eqb c single_quote) && negb (Ascii.eqb c backslash)
  | String c rest => negb (Ascii.eqb c single_quote) && quotable rest
  end.

(** The argument needs no quotes: it holds no space and no quote. *)
Fixpoint plain (argument : string) : bool :=
  match argument with
  | EmptyString => true
  | String c rest =>
      negb (Ascii.eqb c space) && negb (Ascii.eqb c single_quote)
      && negb (Ascii.eqb c double_quote) && plain rest
  end.

End CurlParser.

(** * Concrete data *)

(** A rule set for the rule authority. *)
Module C1Example.
Import ServiceWorker.

Definition created : ResponsePayload :=
  {| status := Some 201; statusText := Some "Created";
     headers := Some [("Content-Type", "application/json")];
     body := Some "{}" |}.

Definition ok : ResponsePayload :=
  {| status := Some 200; statusText := Some "OK";
     headers := Some []; body := Some "" |}.

Definition rules : list Rule :=
  [ {| id := "rule_1"; enabled := false;
       request := {| url := "https://api.x/users"; method := "post" |};
       rule_response := ok |};
    {| id := "rule_2"; enabled := true;
       request := {| url := "https://api.x/users"; method := "GET" |};
       rule_response := ok |};
    {| id := "rule_3"; enabled := true;
       request := {| url := "https://api.x/users"; method := "Post" |};
       rule_response := created |};
    {| id := "rule_4"; enabled := true;
       request := {| url := "https://api.x/users"; method := "POST" |};
       rule_response := ok |} ].

Definition store : Storage :=
  {| globalEnabled := None; mockRules := Some rules |}.

End C1Example.

(** A store with two rules, and the data of a third. *)
Module WorkerExample.
Import Worker.

Definition env : Env :=
  {| clock := λ n, (1700000000000 + N.of_nat n)%N;
     random := λ _, "0.4fzyo82mvyr" |}.

Definition users : StoredRule :=
  {| id := "rule_1"; enabled := true; name := Some "users";
     request := {| url := "https://api.x/users"; method := "GET";
                   request_headers := []; request_body := None |};
     rule_response := C1Example.ok; createdAt := 1; updatedAt := None |}.

Definition orders : StoredRule :=
  {| id := "rule_2"; enabled := false; name := None;
     request := {| url := "https://api.x/orders"; method := "GET";
                   request_headers := []; request_body := None |};
     rule_response := C1Example.ok; createdAt := 2; updatedAt := None |}.

Definition world : World :=
  {| storage := {| mockRules := Some [users; orders];
                   globalEnabled := Some true |};
     notifications := []; dates := 0; randoms := 0 |}.

Definition post_users_request : RequestData :=
  {| data_url := "https://api.x/users"; data_method := Some "post";
     data_headers := None; data_body := Some "{}" |}.

Definition post_users : RuleData :=
  {| data_name := Some ""; data_request := Some post_users_request;
     data_response := Some C1Example.created |}.

Definition get_items_request : RequestData :=
  {| data_url := "https://api.x/items"; data_method := None;
     data_headers := None; data_body := None |}.

Definition get_items : RuleData :=
  {| data_name := None; data_request := Some get_items_request;
     data_response := Some C1Example.ok |}.

(** What an editor sends to change the response of the second rule. *)
Definition orders_created : RuleUpdate :=
  {| update_id := "rule_2"; update_enabled := None;
     update_name := Some (Some "orders"); update_request := None;
     update_response := Some C1Example.created |}.

(** What an editor sends to change the response of the first rule. *)
Definition users_created : RuleUpdate :=
  {| update_id := "rule_1"; update_enabled := None;
     update_name := Some (Some "users"); update_request := None;
     update_response := Some C1Example.created |}.

End WorkerExample.

(** Runs of the page context. *)
Module Scenario.
Import Platform Injected Pipeline.

(** A page at [https://app.example]: relative paths resolve against the
    origin, absolute URLs are kept, and the one string that is not a URL is
    ["http://["]. *)
Definition browser : Browser :=
  {| location_origin := "https://app.example";
     URL_href := λ u base,
       if String.eqb u "http://[" then None
       else if String.prefix "https://" u then Some u
       else Some (base +:+ u);
     dispatchEvent_throws := λ _, false |}.

(** The same page in a runtime whose [dispatchEvent] fails. *)
Definition broken_dispatch : Browser :=
  {| location_origin := "https://app.example";
     URL_href := URL_href browser;
     dispatchEvent_throws := λ _, true |}.

Definition created : ResponsePayload :=
  {| status := Some 201; statusText := Some "Created";
     headers := Some [("Content-Type", "application/json")];
     body := Some "{}" |}.

Definition no_content : ResponsePayload :=
  {| status := Some 204; statusText := Some "No Content";
     headers := Some []; body := Some "" |}.

Definition affirmative (r : ResponsePayload) : MatchDecision :=
  {| shouldMock := true; response := SlotObj r;
     ruleId := Some "rule_1"; error := None |}.

(** An affirmative decision that lost its response. *)
Definition malformed : MatchDecision :=
  {| shouldMock := true; response := SlotPrim PUndefined;
     ruleId := Some "rule_1"; error := None |}.

Definition post_users : FetchArguments :=
  {| input := Stringable "/users";
     init := Some {| init_method := Some "post" |} |}.

(** [fetch("/users", {method: "post"})], suspended on its query. *)
Definition fetching : State :=
  run browser initial [CallFetch 7 post_users].

(** An instance with its three handlers set, opened and sent, suspended on
    its query. *)
Definition sending : State :=
  run browser initial
    [ NewXhr;
      SetHandler 0 "onreadystatechange" true;
      SetHandler 0 "onload" true;
      SetHandler 0 "onloadend" true;
      CallOpen 0 "post" "/users" true None None;
      CallSend 0 (Some "{}") ].

(** The same instance once the affirmative decision has come and the
    emulator has run to its end. *)
Definition done : State :=
  run browser sending
    (Message (reply "req_0_1" (affirmative created)) :: replicate 20 Tick).

End Scenario.

(** * Properties *)

(** ** Case mapping *)

Ltac bool_arith :=
  repeat match goal with
    | H : (_ && _)%bool = true |- _ => apply andb_true_iff in H; destruct H
    | H : (_ && _)%bool = false |- _ => apply andb_false_iff in H; destruct H
    | H : (_ <=? _)%N = true |- _ => apply N.leb_le in H
    | H : (_ <=? _)%N = false |- _ => apply N.leb_gt in H
    | |- (_ && _)%bool = true => apply andb_true_iff; split
    | |- (_ <=? _)%N = true => apply N.leb_le
    end;
  try lia.

Section CaseMapping.

Lemma code_inj (c d : ascii) : N_of_ascii c = N_of_ascii d → c = d.
Proof.
  intros H. rewrite <- (ascii_N_embedding c), <- (ascii_N_embedding d).
  now rewrite H.
Qed.

Lemma code_upper_char (c : ascii) :
  N_of_ascii (upper_char c)
  = (if is_lower c then N_of_ascii c - 32 else N_of_ascii c)%N.
Proof.
  unfold upper_char. destruct (is_lower c); [|done].
  apply N_ascii_embedding. pose proof (N_ascii_bounded c). lia.
Qed.

Lemma code_lower_char (c : ascii) :
  N_of_ascii (lower_char c)
  = (if is_upper c then N_of_ascii c + 32 else N_of_ascii c)%N.
Proof.
  unfold lower_char. destruct (is_upper c) eqn:E; [|done].
  apply N_ascii_embedding. unfold is_upper in E. bool_arith.
Qed.

Lemma upper_char_eq_iff (c d : ascii) :
  upper_char c = upper_char d ↔ ServiceWorker.same_letter c d.
Proof.
  unfold ServiceWorker.same_letter. split.
  - intros H. apply (f_equal N_of_ascii) in H.
    rewrite !code_upper_char in H.
    destruct (decide (N_of_ascii c = N_of_ascii d)) as [e|ne];
      [left; by apply code_inj|right].
    unfold is_lower, is_upper in *.
    destruct (_ && _)%bool eqn:Ec in H;
      destruct (_ && _)%bool eqn:Ed in H; bool_arith.
    + right. split; bool_arith.
    + left. split; bool_arith.
  - intros [->|[[U E]|[U E]]]; [done| |];
      apply code_inj; rewrite !code_upper_char;
      destruct (is_lower c) eqn:Ec, (is_lower d) eqn:Ed;
      unfold is_lower, is_upper in *; bool_arith.
Qed.

Lemma toUpperCase_eq_iff (s t : string) :
  toUpperCase s = toUpperCase t ↔ ServiceWorker.equal_up_to_case s t.
Proof.
  revert t. induction s as [|c s IH]; intros [|d t]; simpl.
  - split; [constructor|done].
  - split; [done|inversion 1].
  - split; [done|inversion 1].
  - split.
    + intros [= Hc Hs]. constructor; [by apply upper_char_eq_iff|by apply IH].
    + inversion 1; subst. f_equal; [by apply upper_char_eq_iff|by apply IH].
Qed.

End CaseMapping.

(** ** The rule authority: [checkMock] of the service worker *)

Section RuleAuthority.
Import ServiceWorker.

(** The callback of [rules.find] decides the matching condition of the
    specification. *)
Lemma rule_matches_selects (u m : string) (r : Rule) :
  rule_matches {| req_url := u; req_method := m |} r = true ↔ selects u m r.
Proof.
  unfold rule_matches, selects; simpl.
  destruct (enabled r); simpl.
  - rewrite andb_true_iff, !String.eqb_eq, toUpperCase_eq_iff. tauto.
  - split; [done|]. by intros [? _].
Qed.

Lemma rule_matches_not_selects (u m : string) (r : Rule) :
  rule_matches {| req_url := u; req_method := m |} r = false ↔ ¬ selects u m r.
Proof. rewrite <- rule_matches_selects. by destruct (rule_matches _ r). Qed.

(** [Array.prototype.find] returns the element at the least index whose
    callback result is true. *)
Lemma find_least {A} (f : A → bool) (l : list A) (i : nat) (x : A) :
  l !! i = Some x → f x = true →
  (∀ j y, (j < i)%nat → l !! j = Some y → f y = false) →
  List.find f l = Some x.
Proof.
  revert i. induction l as [|a l IH]; intros i Hi Hx Hlt; [done|].
  destruct i as [|i]; simpl in *.
  - injection Hi as ->. by rewrite Hx.
  - rewrite (Hlt 0%nat a) by (done || lia).
    apply (IH i); [done..|]. intros j y Hj. apply (Hlt (S j)). lia.
Qed.

Lemma find_nothing {A} (f : A → bool) (l : list A) :
  (∀ x, x ∈ l → f x = false) → List.find f l = None.
Proof.
  induction l as [|a l IH]; intros H; [done|]. simpl.
  rewrite (H a) by constructor. apply IH. intros x Hx. apply H. by constructor.
Qed.

End RuleAuthority.



(** ** The shim: what a decision does to the suspended call *)

Section Delivery.
Import Platform Injected Pipeline.

Lemma resume_unmocked (aw : Awaiter) (call : N) (d : MatchDecision) (s : State) :
  mocks d = false → resume aw call d s = emit (original_call call aw) s.
Proof. unfold mocks, resume. intros ->. by destruct aw. Qed.

(** A relayed message for a pending entry: the timer is cleared, the entry
    is deleted and the resolving function is called with the payload. *)
Lemma on_message_pending (s : State) (id : string)
    (forwarded : Completion MatchDecision) (pending : PendingRequest) :
  id ≠ "" →
  pendingRequests s !! id = Some pending →
  on_message (relayed id forwarded) s
  = resolve_promise (resolve pending)
      (Relay.payload (Relay.on_check_mock id forwarded))
      (set_pendingRequests (delete id) (clearTimeout (timeout pending) s)).
Proof.
  intros Hid Hp. unfold on_message, relayed; simpl.
  assert (String.eqb id "" = false) as Hne by by apply String.eqb_neq.
  destruct forwarded; simpl; rewrite Hne; simpl; by rewrite Hp.
Qed.

(** A relayed message for an identifier that has no entry does nothing. *)
Lemma on_message_not_pending (s : State) (id : string)
    (forwarded : Completion MatchDecision) :
  pendingRequests s !! id = None →
  on_message (relayed id forwarded) s = s.
Proof.
  intros Hp. unfold on_message, relayed; simpl.
  destruct forwarded; simpl; destruct (String.eqb id ""); simpl;
    by rewrite ?Hp.
Qed.

Lemma resolve_promise_unsettled (p : N) (d : MatchDecision) (s : State)
    (aw : Awaiter) :
  promises s !! p = Some {| awaiter := aw; settled := false |} →
  resolve_promise p d s
  = resume aw p d
      (set_promises <[p := {| awaiter := aw; settled := true |}]>
         (set_resolve_calls (λ l, l ++ [(p, d)]) s)).
Proof. intros Hp. unfold resolve_promise; simpl. by rewrite Hp. Qed.

End Delivery.

(** C10.  An affirmative decision whose response is missing, or is any
    other falsy value, is treated as a negative one by both shims: when it
    is delivered, the suspended call invokes its original primitive, with
    the arguments it was called with, and nothing of the emulator runs (no
    instance changes, no timer is set).  In general, whenever
    [shouldMock && response] is falsy the suspended function makes the
    original call. *)
Theorem malformed_decision_passes_through
    (s : Injected.State) (id : string) (pending : Injected.PendingRequest)
    (aw : Injected.Awaiter) (d : MatchDecision) :
  id ≠ "" →
  Injected.pendingRequests s !! id = Some pending →
  Injected.promises s !! Injected.resolve pending
    = Some {| Injected.awaiter := aw; Injected.settled := false |} →
  shouldMock d = true →
  slot_truthy (response d) = false →
  let s' := Injected.on_message (Pipeline.reply id d) s in
  Injected.trace s'
    = Injected.trace s
      ++ [(Injected.now s, Pipeline.original_call (Injected.resolve pending) aw)]
  ∧ Injected.xhrs s' = Injected.xhrs s
  ∧ Injected.timers s'
    = filter (λ t, Injected.handle t ≠ Injected.timeout pending)
             (Injected.timers s)
  ∧ Injected.pendingRequests s' = delete id (Injected.pendingRequests s)
  ∧ (∀ aw' call s0,
       Pipeline.mocks d = false ∧
       Injected.resume aw' call d s0
       = Injected.emit (Pipeline.original_call call aw') s0).
Proof.
  intros Hid Hp Hpr Hm Hr s'. subst s'.
  assert (Pipeline.mocks d = false) as Hmocks
    by (unfold Pipeline.mocks; by rewrite Hm, Hr).
  unfold Pipeline.reply. rewrite (on_message_pending _ _ _ _ Hid Hp).
  rewrite (resolve_promise_unsettled _ _ _ aw) by done.
  rewrite resume_unmocked by done.
  repeat split; try done. intros. by apply resume_unmocked.
Qed.

(** The suspended [fetch] of the concrete run, answered by an affirmative
    decision without a response, calls the original [fetch] with its own
    [this] and arguments. *)
Lemma malformed_decision_passes_through_witness :
  Injected.trace
    (Injected.on_message (Pipeline.reply "req_0_1" Scenario.malformed)
       Scenario.fetching)
  = Injected.trace Scenario.fetching
    ++ [(Injected.now Scenario.fetching,
         Injected.OriginalFetch 1 7 Scenario.post_users)].
Proof.
  refine (proj1 (malformed_decision_passes_through Scenario.fetching "req_0_1"
                   {| Injected.resolve := 1; Injected.timeout := 0 |}
                   (Injected.FetchCall 7 Scenario.post_users
                      "https://app.example/users" "post")
                   Scenario.malformed _ _ _ _ _)).
  - discriminate.
  - vm_compute. reflexivity.
  - vm_compute. reflexivity.
  - reflexivity.
  - reflexivity.
Defined.

(** ** Header introspection on a mocked instance *)

Section HeaderIntrospection.
Import Platform Injected Emulator.

Lemma append_assoc (a b c : string) : (a +:+ b) +:+ c = a +:+ (b +:+ c).
Proof.
  induction a as [|x a IH]; [done|].
  change (String x ((a +:+ b) +:+ c) = String x (a +:+ (b +:+ c))).
  by rewrite IH.
Qed.

Lemma append_empty (a : string) : a +:+ "" = a.
Proof.
  induction a as [|x a IH]; [done|].
  change (String x (a +:+ "") = String x a). by rewrite IH.
Qed.

Lemma fold_headersStr (entries : list (string * string)) (acc : string) :
  fold_left (λ headersStr '(key, value),
               headersStr +:+ key +:+ ": " +:+ value +:+ CRLF) entries acc
  = acc +:+ foldr (λ e rest, header_line e +:+ rest) "" entries.
Proof.
  revert acc. induction entries as [|[k v] es IH]; intros acc; simpl.
  - by rewrite append_empty.
  - rewrite IH. unfold header_line at 2; simpl. by rewrite !append_assoc.
Qed.

(** [getAllResponseHeaders]: the lines [key: value] of the entries, in
    their order and with their keys as they are, each ended by CRLF. *)
Lemma build_headersStr_lines (entries : list (string * string)) :
  build_headersStr (Some entries)
  = foldr (λ e rest, header_line e +:+ rest) "" entries.
Proof. unfold build_headersStr. by rewrite fold_headersStr. Qed.

Lemma getResponseHeader_no_headers (name : string) :
  getResponseHeader None name = HeaderNull.
Proof. done. Qed.

Lemma header_property_own (entries : list (string * string)) (name : string)
    (r : HeaderResult) :
  name ∉ Object_prototype →
  header_property entries name = Some r →
  ∃ k v, (k, v) ∈ entries ∧ k = name ∧ r = HeaderString v.
Proof.
  intros Hn. unfold header_property.
  destruct (List.find _ entries) as [[k v]|] eqn:E.
  - intros [= <-]. apply find_some in E as [Hin Heq]. simpl in *.
    apply String.eqb_eq in Heq. exists k, v.
    by rewrite list_elem_of_In.
  - by rewrite bool_decide_eq_false_2.
Qed.

(** A name that some key equals up to case is answered by the value of
    such a key. *)
Lemma getResponseHeader_case_insensitive
    (entries : list (string * string)) (name k v : string) :
  name ∉ Object_prototype →
  (k, v) ∈ entries →
  toLowerCase k = toLowerCase name →
  ∃ k' v', (k', v') ∈ entries
           ∧ toLowerCase k' = toLowerCase name
           ∧ getResponseHeader (Some entries) name = HeaderString v'.
Proof.
  intros Hn Hin Hk. unfold getResponseHeader.
  destruct (header_truthy (header_property entries name)) eqn:Ht.
  - destruct (header_property entries name) as [r|] eqn:Hp; [|done].
    destruct (header_property_own _ _ _ Hn Hp) as (k' & v' & ? & -> & ->).
    by exists name, v'.
  - destruct (List.find _ entries) as [[k' v']|] eqn:E.
    + apply find_some in E as [Hin' Heq]. simpl in *.
      apply String.eqb_eq in Heq. exists k', v'.
      by rewrite list_elem_of_In.
    + apply list_elem_of_In in Hin.
      pose proof (List.find_none _ _ E _ Hin) as Hf. simpl in Hf.
      by rewrite Hk, String.eqb_refl in Hf.
Qed.

(** A name that no key equals up to case, and that a plain object does not
    inherit, is answered by null. *)
Lemma getResponseHeader_absent (entries : list (string * string))
    (name : string) :
  name ∉ Object_prototype →
  (∀ k v, (k, v) ∈ entries → toLowerCase k ≠ toLowerCase name) →
  getResponseHeader (Some entries) name = HeaderNull.
Proof.
  intros Hn Hno. unfold getResponseHeader.
  destruct (header_truthy (header_property entries name)) eqn:Ht.
  - destruct (header_property entries name) as [r|] eqn:Hp; [|done].
    destruct (header_property_own _ _ _ Hn Hp) as (k' & v' & Hin & -> & ->).
    by destruct (Hno _ _ Hin).
  - destruct (List.find _ entries) as [[k' v']|] eqn:E; [|done].
    apply find_some in E as [Hin' Heq]. simpl in *.
    apply String.eqb_eq in Heq. apply list_elem_of_In in Hin'.
    by destruct (Hno _ _ Hin').
Qed.

End HeaderIntrospection.

(** ** The synthetic response of [fetch] *)

Section SyntheticResponse.
Import Platform Injected Pipeline.

(** In the mock branch the original [fetch] is not called. *)
Lemma resume_fetch_mocked (this call : N) (arguments : FetchArguments)
    (url method : string) (d : MatchDecision) (s : State) :
  mocks d = true →
  resume (FetchCall this arguments url method) call d s
  = emit (FetchMocked call (mock_fetch_response (response d))) s.
Proof. unfold mocks, resume. by intros ->. Qed.

(** A payload the two constructors accept gives a response with the
    payload's status, status text and body, 200, ["OK"] and the empty
    string standing in for a missing or falsy field. *)
Lemma mock_fetch_response_accepted (r : ResponsePayload) (hs : HeaderList) :
  Headers_new (default [] (headers r)) = Return hs →
  200 ≤ num_or (status r) 200 ≤ 599 →
  is_null_body_status (num_or (status r) 200) = false →
  is_reason_phrase (str_or (statusText r) "OK") = true →
  ∃ hs', mock_fetch_response (SlotObj r)
         = Return {| resp_status := num_or (status r) 200;
                     resp_statusText := str_or (statusText r) "OK";
                     resp_headers := hs';
                     resp_body := str_or (body r) "" |}.
Proof.
  intros Hh Hst Hnull Hphrase. unfold mock_fetch_response; simpl.
  rewrite Hh. unfold Response_new; simpl.
  rewrite Z.mod_small by lia.
  rewrite Hnull, Hphrase; simpl.
  destruct (200 <=? _) eqn:E1; [|lia].
  destruct (_ <=? 599) eqn:E2; [|lia]. simpl. eauto.
Qed.

(** A payload with a status below 200, or with one of the statuses that
    allow no body, gets no response: the constructor throws. *)
Lemma mock_fetch_response_rejected (r : ResponsePayload) :
  0 ≤ num_or (status r) 200 < 65536 →
  num_or (status r) 200 < 200
  ∨ is_null_body_status (num_or (status r) 200) = true →
  ∀ resp, mock_fetch_response (SlotObj r) ≠ Return resp.
Proof.
  intros Hr Hbad resp. unfold mock_fetch_response; simpl.
  destruct (Headers_new _); [|done]. unfold Response_new; simpl.
  rewrite Z.mod_small by lia.
  destruct (negb _) eqn:E1; [done|].
  destruct (negb (is_reason_phrase _)); [done|].
  destruct Hbad as [Hlow| ->]; [|done].
  apply negb_false_iff, andb_true_iff in E1 as [E1 _]. lia.
Qed.

End SyntheticResponse.

(** C4.  A rule that answers 204 No Content, delivered to a suspended
    [fetch]: the shim does not call the original [fetch], and it does not
    return a response with status 204 either, because [new Response("",
    {status: 204})] throws; the promise of the call is rejected with that
    TypeError.  A rule that answers 100 fails in the same way with a
    RangeError. *)
Theorem mocked_fetch_of_bodyless_status_rejects :
  Injected.trace
    (Injected.on_message
       (Pipeline.reply "req_0_1" (Scenario.affirmative Scenario.no_content))
       Scenario.fetching)
  = Injected.trace Scenario.fetching
    ++ [(0%N, Injected.FetchMocked 1
                (Throw (TypeError
                   "Response with null body status cannot have body")))]
  ∧ Injected.mock_fetch_response
      (SlotObj {| status := Some 100; statusText := Some "Continue";
                  headers := None; body := None |})
    = Throw (RangeError "status must be in the range of 200 to 599").
Proof. split; vm_compute; reflexivity. Qed.

(** C7.  On the instance of the concrete run, whose payload has the one
    header [Content-Type], [getAllResponseHeaders] is that one line, the
    header is found under [content-type], an unknown name is answered by
    null, but the name [constructor], which is no header of the payload, is
    answered by what the header object inherits from [Object.prototype]. *)
Theorem getResponseHeader_answers_inherited_name :
  let instance := Injected.xhrs Scenario.done !! 0%N in
  instance ≫= Injected.xhr_getAllResponseHeaders
    = Some ("Content-Type: application/json" +:+ Injected.CRLF)
  ∧ instance ≫= (λ obj, Injected.xhr_getResponseHeader obj "content-type")
    = Some (Injected.HeaderString "application/json")
  ∧ instance ≫= (λ obj, Injected.xhr_getResponseHeader obj "X-Request-Id")
    = Some Injected.HeaderNull
  ∧ instance ≫= (λ obj, Injected.xhr_getResponseHeader obj "constructor")
    = Some (Injected.FromObjectPrototype "constructor").
Proof. vm_compute. repeat split. Qed.

(** ** The properties the emulator fixes *)

Section ReadOnly.
Import Platform Injected Emulator.

Lemma simulateMockedXHR_instance (x : N) (slot : ResponseSlot) (s : State)
    (obj : Xhr) :
  xhrs s !! x = Some obj →
  xhrs (simulateMockedXHR x slot s) !! x = Some (emulated (destructure slot) obj).
Proof.
  intros Hx. unfold simulateMockedXHR; simpl.
  by rewrite !lookup_alter_eq, Hx.
Qed.

Lemma call_handler_xhrs (x : N) (h : string) (s : State) :
  xhrs (call_handler x h s) = xhrs s.
Proof.
  unfold call_handler. destruct (xhrs s !! x); [|done]. by case_bool_decide.
Qed.

Lemma dispatchEvent_xhrs (B : Browser) (x : N) (type : string) (s : State) :
  xhrs (state_of (dispatchEvent B x type s)) = xhrs s.
Proof. unfold dispatchEvent. by destruct (dispatchEvent_throws B type). Qed.

(** A callback of the emulator changes the instance by defining
    [readyState], and nothing else. *)
Lemma ready_state_step_xhrs (B : Browser) (x : N) (st : Stage) (s : State) :
  xhrs (state_of (ready_state_step B x st s))
  = alter (defineReadOnly "readyState" (PNum (stage_value st))) x (xhrs s).
Proof.
  unfold ready_state_step. destruct st; simpl; rewrite ?call_handler_xhrs; try done.
  unfold dispatchEvent.
  destruct (dispatchEvent_throws B "load"); simpl;
    [by rewrite !call_handler_xhrs|].
  destruct (dispatchEvent_throws B "loadend"); simpl;
    by rewrite !call_handler_xhrs.
Qed.

(** Assigning to an own accessor that has no setter. *)
Lemma xhr_assign_accessor (strict : bool) (x : N) (prop : string) (v g : Prim)
    (s : State) (obj : Xhr) :
  xhrs s !! x = Some obj →
  own obj !! prop = Some (Accessor g) →
  xhr_assign strict x prop v s
  = if strict
    then Abrupt (TypeError "Cannot set property which has only a getter") s
    else Normal s.
Proof.
  intros Hx Hp. unfold xhr_assign, ordinary_set. by rewrite Hx, Hp.
Qed.

Lemma emulated_own (r : ResponsePayload) (st : Stage) (obj : Xhr)
    (prop : string) :
  prop ∈ overridden →
  own (defineReadOnly "readyState" (PNum (stage_value st)) (emulated r obj))
    !! prop
  = Accessor <$> fixed_value r st prop.
Proof.
  unfold overridden. rewrite !elem_of_cons, elem_of_nil.
  intros [->|[->|[->|[->|[->|[->|[]]]]]]]; simpl;
    repeat (rewrite lookup_insert_ne by done); by rewrite lookup_insert_eq.
Qed.

End ReadOnly.

(** C9, as the code has it.  Once the emulator has defined them, the six
    properties read as the values the emulator fixed, and an assignment to
    any of them changes nothing: the instance, and so every later read, is
    as before.  In sloppy code the assignment is silently ignored; in strict
    code it throws a TypeError, since the accessor has no setter. *)
Theorem overridden_properties_are_read_only
    (B : Platform.Browser) (s : Injected.State) (x : N) (obj : Injected.Xhr)
    (slot : ResponseSlot) (st : Injected.Stage) (prop : string) :
  Injected.xhrs s !! x = Some obj →
  prop ∈ Emulator.overridden →
  let s' := Emulator.state_of
              (Injected.ready_state_step B x st
                 (Injected.simulateMockedXHR x slot s)) in
  ∃ obj' v,
    Injected.xhrs s' !! x = Some obj'
    ∧ Emulator.fixed_value (Injected.destructure slot) st prop = Some v
    ∧ Injected.xhr_get obj' prop = Some v
    ∧ ∀ (strict : bool) (w : Prim),
        Injected.xhr_assign strict x prop w s'
        = if strict
          then Injected.Abrupt
                 (TypeError "Cannot set property which has only a getter") s'
          else Injected.Normal s'.
Proof.
  intros Hx Hprop s'.
  assert (Injected.xhrs s' !! x
          = Some (Injected.defineReadOnly "readyState"
                    (PNum (Injected.stage_value st))
                    (Emulator.emulated (Injected.destructure slot) obj)))
    as Hx'.
  { subst s'. rewrite ready_state_step_xhrs, lookup_alter_eq.
    by rewrite (simulateMockedXHR_instance _ _ _ obj). }
  pose proof (emulated_own (Injected.destructure slot) st obj prop Hprop) as Hown.
  assert (is_Some (Emulator.fixed_value (Injected.destructure slot) st prop))
    as [v Hv].
  { revert Hprop. unfold Emulator.overridden.
    rewrite !elem_of_cons, elem_of_nil.
    intros [->|[->|[->|[->|[->|[->|[]]]]]]]; by eexists. }
  rewrite Hv in Hown.
  change (Injected.Accessor <$> Some v) with (Some (Injected.Accessor v)) in Hown.
  eexists _, v. split; [exact Hx'|]. split; [done|]. split.
  - unfold Injected.xhr_get. by rewrite Hown.
  - intros strict w. by apply (xhr_assign_accessor _ _ _ _ v _ _ Hx' Hown).
Qed.

Lemma overridden_properties_are_read_only_witness :
  ∃ obj' v,
    Injected.xhrs
      (Emulator.state_of
         (Injected.ready_state_step Scenario.browser 0 Injected.DONE
            (Injected.simulateMockedXHR 0 (SlotObj Scenario.created)
               Scenario.sending))) !! 0%N = Some obj'
    ∧ Emulator.fixed_value Scenario.created Injected.DONE "status" = Some v
    ∧ Injected.xhr_get obj' "status" = Some v
    ∧ ∀ (strict : bool) (w : Prim),
        Injected.xhr_assign strict 0 "status" w
          (Emulator.state_of
             (Injected.ready_state_step Scenario.browser 0 Injected.DONE
                (Injected.simulateMockedXHR 0 (SlotObj Scenario.created)
                   Scenario.sending)))
        = if strict
          then Injected.Abrupt
                 (TypeError "Cannot set property which has only a getter")
                 (Emulator.state_of
                    (Injected.ready_state_step Scenario.browser 0 Injected.DONE
                       (Injected.simulateMockedXHR 0 (SlotObj Scenario.created)
                          Scenario.sending)))
          else Injected.Normal
                 (Emulator.state_of
                    (Injected.ready_state_step Scenario.browser 0 Injected.DONE
                       (Injected.simulateMockedXHR 0 (SlotObj Scenario.created)
                          Scenario.sending))).
Proof.
  refine (overridden_properties_are_read_only Scenario.browser Scenario.sending
            0
            (default (Injected.fresh_instance)
               (Injected.xhrs Scenario.sending !! 0%N))
            (SlotObj Scenario.created) Injected.DONE "status" _ _).
  - vm_compute. reflexivity.
  - vm_compute. apply list_elem_of_here.
Defined.

(** Read-only as the specification words it, silently, does not hold: in
    strict code the assignment [xhr.status = 500] on the mocked instance
    throws. *)
Lemma strict_assignment_throws :
  Injected.xhr_assign true 0 "status" (PNum 500) Scenario.done
  = Injected.Abrupt
      (TypeError "Cannot set property which has only a getter") Scenario.done.
Proof. vm_compute. reflexivity. Qed.

(** ** Issuing a query *)

Section Issuing.
Import Platform Injected Query.

Lemma checkMock_issued (url method : string) (aw : Awaiter) (s : State) :
  checkMock url method aw s = issued url method aw s.
Proof. reflexivity. Qed.

Lemma fetch_issued (B : Browser) (this : N) (arguments : FetchArguments)
    (s : State) :
  let used :=
    match URL_href B (literal_url arguments) (location_origin B) with
    | Some href => href
    | None => literal_url arguments
    end in
  fetch B this arguments s
  = (PromiseOf (N.succ (requestCounter s)),
     issued used (toUpperCase (extracted_method arguments))
       (FetchCall this arguments used (extracted_method arguments)) s).
Proof.
  unfold fetch, literal_url, extracted_method.
  by destruct (input arguments).
Qed.

Lemma xhr_send_issued (x : N) (body : option string) (s : State) (obj : Xhr) :
  xhrs s !! x = Some obj →
  xhr_send x body s
  = (PromiseOf (N.succ (requestCounter s)),
     issued (url (info obj)) (method (info obj)) (SendCall x body) s).
Proof. intros Hx. unfold xhr_send. by rewrite Hx. Qed.

End Issuing.

(** C8.  URL extraction never fails.  For [fetch], whatever the input: a
    query is posted and the call is suspended on it (a pending entry and an
    unsettled promise exist), and the url of the query is the resolved href
    when resolution against the origin succeeds and the literal string when
    it fails.  For [open], on an existing instance: the recorded url is the
    resolved href or, when resolution fails, the literal string, and the
    original [open] is called with the arguments as they were given. *)
Theorem url_extraction_is_total
    (B : Platform.Browser) (s : Injected.State) (this : N)
    (arguments : Injected.FetchArguments)
    (x : N) (obj : Injected.Xhr) (method url : string) (async : bool)
    (user password : option string) :
  Injected.xhrs s !! x = Some obj →
  (∃ id used m,
     let s' := (Injected.fetch B this arguments s).2 in
     Injected.trace s'
       = Injected.trace s ++ [(Injected.now s, Injected.PostMessage id used m)]
     ∧ is_Some (Injected.pendingRequests s' !! id)
     ∧ Injected.promises s' !! N.succ (Injected.requestCounter s)
       = Some {| Injected.awaiter :=
                   Injected.FetchCall this arguments used
                     (Query.extracted_method arguments);
                 Injected.settled := false |}
     ∧ (∀ href,
          Platform.URL_href B (Query.literal_url arguments)
            (Platform.location_origin B) = Some href → used = href)
     ∧ (Platform.URL_href B (Query.literal_url arguments)
          (Platform.location_origin B) = None →
        used = Query.literal_url arguments))
  ∧ (∃ obj',
       let s' := Injected.xhr_open B x method url async user password s in
       Injected.xhrs s' !! x = Some obj'
       ∧ Injected.trace s'
         = Injected.trace s
           ++ [(Injected.now s,
                Injected.OriginalOpen x method url async user password)]
       ∧ (∀ href,
            Platform.URL_href B url (Platform.location_origin B) = Some href →
            Injected.url (Injected.info obj') = href)
       ∧ (Platform.URL_href B url (Platform.location_origin B) = None →
          Injected.url (Injected.info obj') = url)).
Proof.
  intros Hx. split.
  - rewrite fetch_issued; simpl.
    eexists _, _, _. split; [reflexivity|].
    split; [by rewrite lookup_insert_eq|].
    split; [by rewrite lookup_insert_eq|].
    destruct (Platform.URL_href B _ _); split; congruence.
  - unfold Injected.xhr_open; simpl. rewrite lookup_alter_eq, Hx; simpl.
    eexists. split; [reflexivity|]. split; [reflexivity|]. simpl.
    destruct (Platform.URL_href B _ _); split; congruence.
Qed.

(** A path resolves against the origin; ["http://["] does not resolve and
    is kept as it is. *)
Lemma url_extraction_is_total_witness :
  (∃ id used m,
     Injected.trace
       (Injected.fetch Scenario.browser 7
          {| Injected.input := Injected.Stringable "http://[";
             Injected.init := None |}
          (Injected.XMLHttpRequest Injected.initial).2).2
     = Injected.trace (Injected.XMLHttpRequest Injected.initial).2
       ++ [(Injected.now (Injected.XMLHttpRequest Injected.initial).2,
            Injected.PostMessage id used m)]
     ∧ used = "http://[")
  ∧ (∃ obj',
       Injected.xhrs
         (Injected.xhr_open Scenario.browser 0 "get" "http://[" true None None
            (Injected.XMLHttpRequest Injected.initial).2) !! 0%N = Some obj'
       ∧ Injected.url (Injected.info obj') = "http://[").
Proof.
  destruct (url_extraction_is_total Scenario.browser
              (Injected.XMLHttpRequest Injected.initial).2 7
              {| Injected.input := Injected.Stringable "http://[";
                 Injected.init := None |}
              0 Injected.fresh_instance "get" "http://[" true None None)
    as [(id & used & m & Htrace & _ & _ & _ & Hfetch)
        (obj' & Hobj & _ & _ & Hopen)];
    [vm_compute; reflexivity|].
  split.
  - exists id, used, m. split; [exact Htrace|]. apply Hfetch.
    vm_compute. reflexivity.
  - exists obj'. split; [exact Hobj|]. apply Hopen. vm_compute. reflexivity.
Defined.

(** ** Request identifiers *)

Section Identifiers.
Import Query.

Lemma append_cons (c : ascii) (a b : string) :
  String c a +:+ b = String c (a +:+ b).
Proof. reflexivity. Qed.

Lemma pretty_N_char_no_underscore (x : N) :
  Ascii.eqb (pretty_N_char x) "_" = false.
Proof. unfold pretty_N_char. by repeat case_match. Qed.

Lemma pretty_N_go_no_underscore (x : N) (s : string) :
  no_underscore s = true → no_underscore (pretty_N_go x s) = true.
Proof.
  revert s. induction (N.lt_wf_0 x) as [x _ IH]; intros s Hs.
  destruct (decide (x = 0%N)) as [->|Hx]; [by rewrite pretty_N_go_0|].
  rewrite pretty_N_go_step by lia. apply IH.
  - apply N.div_lt; lia.
  - simpl. by rewrite pretty_N_char_no_underscore.
Qed.

Lemma pretty_no_underscore (x : N) : no_underscore (pretty x) = true.
Proof.
  unfold pretty, pretty_N. case_decide; [done|].
  by apply pretty_N_go_no_underscore.
Qed.

Lemma append_nil_l (b : string) : "" +:+ b = b.
Proof. reflexivity. Qed.

Lemma split_at_underscore (a a' b b' : string) :
  no_underscore a = true → no_underscore a' = true →
  a +:+ "_" +:+ b = a' +:+ "_" +:+ b' → a = a' ∧ b = b'.
Proof.
  revert a'. induction a as [|c a IH]; intros [|c' a'] Ha Ha';
    rewrite ?append_cons, ?append_nil_l.
  - by intros [= ->].
  - intros [= <- _]. simpl in Ha'. done.
  - intros [= -> _]. simpl in Ha. done.
  - intros [= -> H]. simpl in Ha, Ha'.
    apply andb_true_iff in Ha as [_ Ha]. apply andb_true_iff in Ha' as [_ Ha'].
    destruct (IH a' Ha Ha') as [-> ->]; [|done].
    by rewrite ?append_cons, ?append_nil_l.
Qed.

(** Two identifiers are equal only when they were made at the same time by
    the same call. *)
Lemma request_id_inj (t c t' c' : N) :
  request_id t c = request_id t' c' → t = t' ∧ c = c'.
Proof.
  unfold request_id. rewrite !append_cons, append_nil_l. intros [= H].
  apply split_at_underscore in H as [Ht Hc]; auto using pretty_no_underscore.
  split; by apply (inj pretty).
Qed.

End Identifiers.

(** ** What every reachable state of the page context satisfies *)

Section WellFormed.
Import Platform Injected Query Invariant.

Lemma wf_initial : wf initial.
Proof.
  split; simpl; try (intros *; by rewrite ?lookup_empty, ?elem_of_nil);
    constructor.
Qed.

(** Only six fields matter. *)
Lemma wf_frame (s s' : State) :
  timers s' = timers s → nextTimer s' = nextTimer s →
  pendingRequests s' = pendingRequests s → promises s' = promises s →
  resolve_calls s' = resolve_calls s → requestCounter s' = requestCounter s →
  tags (trace s') = tags (trace s) →
  wf s → wf s'.
Proof.
  intros Ht Hn Hp Hpr Hr Hc Htr [].
  split; unfold resolved in *; rewrite ?Ht, ?Hn, ?Hp, ?Hpr, ?Hr, ?Hc, ?Htr; done.
Qed.

Lemma tags_snoc (tr : list (N * Effect)) (t : N) (e : Effect) :
  tags (tr ++ [(t, e)])
  = tags tr ++ match call_of e with Some c => [c] | None => [] end.
Proof. unfold tags. rewrite omap_app. simpl. by destruct (call_of e). Qed.

Lemma wf_emit_untagged (e : Effect) (s : State) :
  call_of e = None → wf s → wf (emit e s).
Proof.
  intros He. apply wf_frame; try done. simpl.
  by rewrite tags_snoc, He, app_nil_r.
Qed.

Lemma wf_emit_tagged (e : Effect) (c : N) (aw : Awaiter) (s : State) :
  call_of e = Some c →
  promises s !! c = Some {| awaiter := aw; settled := true |} →
  c ∉ tags (trace s) →
  wf s → wf (emit e s).
Proof.
  intros He Hc Hnew []. split; try done; simpl; rewrite tags_snoc, He.
  - intros c'. rewrite elem_of_app, list_elem_of_singleton.
    intros [?| ->]; eauto.
  - apply NoDup_app. split; [done|]. split; [|apply NoDup_singleton].
    intros c' ? ->%list_elem_of_singleton. done.
Qed.

Lemma wf_update_xhr (x : N) (f : Xhr → Xhr) (s : State) :
  wf s → wf (update_xhr x f s).
Proof. by apply wf_frame. Qed.

Lemma wf_setTimeout_step (x : N) (st : Stage) (delay : N) (s : State) :
  wf s → wf (setTimeout (ReadyStateStep x st) delay s).
Proof.
  intros []. split; try done; simpl.
  - rewrite fmap_app. apply NoDup_app. split; [done|].
    split; [|apply NoDup_singleton].
    intros h Hh ->%list_elem_of_singleton.
    apply list_elem_of_fmap in Hh as (t & Ht & Hin).
    apply wf_handle_bound0 in Hin. simpl in Ht. lia.
  - intros t. rewrite elem_of_app, list_elem_of_singleton.
    intros [Hin| ->]; [apply wf_handle_bound0 in Hin|simpl]; lia.
  - intros t i q. rewrite elem_of_app, list_elem_of_singleton.
    intros [Hin| ->]; [by apply wf_timeout0|done].
  - intros i e He. destruct (wf_pending0 i e He) as (? & ? & ? & ? & ?).
    repeat split; try done. lia.
Qed.

Lemma wf_clearTimeout (h : N) (s : State) : wf s → wf (clearTimeout h s).
Proof.
  intros []. split; try done; simpl.
  - apply (sublist_NoDup _ _ wf_handles0), fmap_sublist, sublist_filter.
  - intros t [_ Hin]%list_elem_of_filter. by apply wf_handle_bound0.
  - intros t i q [_ Hin]%list_elem_of_filter. by apply wf_timeout0.
Qed.

Lemma wf_issued (url method : string) (aw : Awaiter) (s : State) :
  wf s → wf (issued url method aw s).
Proof.
  intros Hwf. pose proof Hwf as [].
  assert (∀ i e, pendingRequests s !! i = Some e →
                 i ≠ request_id (now s) (N.succ (requestCounter s))) as Hfresh.
  { intros i e He ->. destruct (wf_pending0 _ _ He) as (Hle & _ & [t Ht] & _).
    apply request_id_inj in Ht as [_ Ht]. lia. }
  split; simpl.
  - rewrite fmap_app. apply NoDup_app. split; [done|].
    split; [|apply NoDup_singleton].
    intros h Hh ->%list_elem_of_singleton.
    apply list_elem_of_fmap in Hh as (t & Ht & Hin).
    apply wf_handle_bound0 in Hin. simpl in Ht. lia.
  - intros t. rewrite elem_of_app, list_elem_of_singleton.
    intros [Hin| ->]; [apply wf_handle_bound0 in Hin|simpl]; lia.
  - intros t i q. rewrite elem_of_app, list_elem_of_singleton.
    intros [Hin| ->] Ha.
    + pose proof (wf_timeout0 _ _ _ Hin Ha) as Hp.
      rewrite lookup_insert_ne; [done|]. intros <-. by eapply Hfresh.
    + injection Ha as <- <-. by rewrite lookup_insert_eq.
  - intros i e. rewrite lookup_insert_Some. intros [[<- <-]|[Hne He]]; simpl.
    + repeat split; try lia; [by eexists|by rewrite lookup_insert_eq; eexists|].
      intros Hin%wf_resolved0. lia.
    + destruct (wf_pending0 _ _ He) as (? & ? & ? & [aw' ?] & ?).
      repeat split; try lia; try done.
      exists aw'. rewrite lookup_insert_ne; [done|lia].
  - intros i j e f. rewrite !lookup_insert_Some.
    intros [[<- <-]|[Hi He]] [[<- <-]|[Hj Hf]]; simpl; try done.
    + destruct (wf_pending0 _ _ Hf) as (? & ? & _). intros [?|?]; lia.
    + destruct (wf_pending0 _ _ He) as (? & ? & _). intros [?|?]; lia.
    + by apply wf_pending_inj0.
  - intros p Hp%wf_resolved0. lia.
  - done.
  - intros p pr. rewrite lookup_insert_Some.
    intros [[<- _]|[_ Hp%wf_promises0]]; lia.
  - rewrite tags_snoc, app_nil_r. intros c Hc.
    destruct (wf_tags0 c Hc) as [aw' Haw]. exists aw'.
    rewrite lookup_insert_ne; [done|]. apply wf_promises0 in Haw. lia.
  - by rewrite tags_snoc, app_nil_r.
Qed.

(** Settling a pending query keeps the invariant, and leaves the promise
    settled with no effect of its call made yet. *)
Lemma wf_retire (i : string) (e : PendingRequest) (aw : Awaiter)
    (d : MatchDecision) (s : State) :
  wf s →
  pendingRequests s !! i = Some e →
  promises s !! resolve e = Some {| awaiter := aw; settled := false |} →
  wf (retire i e aw d s)
  ∧ promises (retire i e aw d s) !! resolve e
    = Some {| awaiter := aw; settled := true |}
  ∧ resolve e ∉ tags (trace (retire i e aw d s)).
Proof.
  intros [] Hi Hp.
  destruct (wf_pending0 _ _ Hi) as (Hle & Hlt & Hfmt & _ & Hnew).
  split; [|split].
  - split; simpl.
    + apply (sublist_NoDup _ _ wf_handles0), fmap_sublist, sublist_filter.
    + intros t [_ Hin]%list_elem_of_filter. by apply wf_handle_bound0.
    + intros t i' q [Hh Hin]%list_elem_of_filter Ha.
      pose proof (wf_timeout0 _ _ _ Hin Ha) as Hp'.
      rewrite lookup_delete_ne; [done|]. intros <-.
      rewrite Hi in Hp'. by injection Hp' as ->.
    + intros i' e' [Hne He']%lookup_delete_Some.
      destruct (wf_pending0 _ _ He') as (? & ? & ? & [aw' ?] & Hr).
      assert (resolve e ≠ resolve e') as Hres
        by (intros Heq; apply Hne; eapply wf_pending_inj0; eauto).
      repeat split; try done.
      * exists aw'. by rewrite lookup_insert_ne.
      * unfold resolved in *; simpl. rewrite fmap_app, elem_of_app; simpl.
        rewrite list_elem_of_singleton. intros [?|?]; done.
    + intros i' j e' f [_ He']%lookup_delete_Some [_ Hf]%lookup_delete_Some.
      by apply wf_pending_inj0.
    + unfold resolved in *; simpl. intros p. rewrite fmap_app, elem_of_app.
      simpl. rewrite list_elem_of_singleton.
      intros [?| ->]; [by apply wf_resolved0|done].
    + unfold resolved in *; simpl. rewrite fmap_app. apply NoDup_app.
      split; [done|]. split; [|apply NoDup_singleton]. simpl.
      intros p ? ->%list_elem_of_singleton. done.
    + intros p pr. rewrite lookup_insert_Some.
      intros [[<- _]|[_ ?]]; [done|by eapply wf_promises0].
    + intros c Hc. destruct (decide (c = resolve e)) as [->|Hne].
      * exists aw. by rewrite lookup_insert_eq.
      * destruct (wf_tags0 c Hc) as [aw' ?]. exists aw'.
        by rewrite lookup_insert_ne.
    + done.
  - simpl. by rewrite lookup_insert_eq.
  - simpl. intros [aw' Haw]%wf_tags0. rewrite Hp in Haw. done.
Qed.

Lemma wf_simulateMockedXHR (x : N) (slot : ResponseSlot) (s : State) :
  wf s → wf (simulateMockedXHR x slot s).
Proof.
  intros Hwf. unfold simulateMockedXHR.
  by repeat (apply wf_setTimeout_step || apply wf_update_xhr).
Qed.

Lemma wf_resume (aw : Awaiter) (p : N) (d : MatchDecision) (s : State) :
  wf s →
  promises s !! p = Some {| awaiter := aw; settled := true |} →
  p ∉ tags (trace s) →
  wf (resume aw p d s).
Proof.
  intros Hwf Hp Hnew. unfold resume.
  destruct aw; case_match;
    try (by eapply wf_emit_tagged; eauto).
  by apply wf_simulateMockedXHR, wf_update_xhr.
Qed.

Lemma resolve_promise_retire (i : string) (e : PendingRequest) (aw : Awaiter)
    (d : MatchDecision) (s : State) :
  promises s !! resolve e = Some {| awaiter := aw; settled := false |} →
  resolve_promise (resolve e) d
    (set_pendingRequests (delete i) (clearTimeout (timeout e) s))
  = resume aw (resolve e) d (retire i e aw d s).
Proof. intros Hp. unfold resolve_promise; simpl. by rewrite Hp. Qed.

(** The listener does nothing, or accepts the message and settles the
    entry it names. *)
Lemma on_message_cases (event : MessageEvent) (s : State) :
  on_message event s = s
  ∨ ∃ m e,
      (from_window event = true
       ∧ data event = Some m
       ∧ Relay.source m = "api-mocker-content"
       ∧ Relay.type m = "MOCK_RESPONSE")
      ∧ pendingRequests s !! Relay.requestId m = Some e
      ∧ on_message event s
        = resolve_promise (resolve e) (Relay.payload m)
            (set_pendingRequests (delete (Relay.requestId m))
               (clearTimeout (timeout e) s)).
Proof.
  unfold on_message.
  destruct (from_window event); simpl; [|by left].
  destruct (data event) as [m|]; [|by left].
  destruct (String.eqb (Relay.source m) _) eqn:Hsrc; simpl; [|by left].
  destruct (String.eqb (Relay.type m) _) eqn:Htype; simpl; [|by left].
  destruct (negb _); simpl; [|by left].
  destruct (pendingRequests s !! Relay.requestId m) as [e|] eqn:He; [|by left].
  apply String.eqb_eq in Hsrc, Htype. right. by exists m, e.
Qed.

Lemma wf_on_message (event : MessageEvent) (s : State) :
  wf s → wf (on_message event s).
Proof.
  intros Hwf.
  destruct (on_message_cases event s) as [->|(m & e & _ & He & ->)]; [done|].
  destruct (wf_pending _ Hwf _ _ He) as (_ & _ & _ & [aw Haw] & _).
  rewrite (resolve_promise_retire _ _ aw) by done.
  destruct (wf_retire _ _ aw (Relay.payload m) _ Hwf He Haw) as (? & ? & ?).
  by apply wf_resume.
Qed.

Lemma find_timer (s : State) (h : N) (t : Timer) :
  List.find (λ t, N.eqb (handle t) h) (timers s) = Some t →
  t ∈ timers s ∧ handle t = h.
Proof.
  intros [Hin Hh]%find_some. apply N.eqb_eq in Hh.
  by rewrite list_elem_of_In.
Qed.

(** With unique handles, the timer found under a handle is the timer that
    has it. *)
Lemma find_timer_elem (s : State) (t : Timer) :
  NoDup (handle <$> timers s) → t ∈ timers s →
  List.find (λ t', N.eqb (handle t') (handle t)) (timers s) = Some t.
Proof.
  induction (timers s) as [|t' ts IH]; [by intros _ ?%elem_of_nil|].
  rewrite fmap_cons, NoDup_cons, elem_of_cons. intros [Hnew Hts] Hin. simpl.
  destruct (N.eqb_spec (handle t') (handle t)) as [Heq|Hne].
  - destruct Hin as [->|Hin]; [done|]. destruct Hnew. rewrite Heq.
    by apply list_elem_of_fmap_2.
  - destruct Hin as [->|Hin]; [done|]. by apply IH.
Qed.

Lemma wf_ready_state_step (B : Browser) (x : N) (st : Stage) (s : State) :
  wf s → wf (Emulator.state_of (ready_state_step B x st s)).
Proof.
  intros Hwf.
  assert (wf (call_handler x "onreadystatechange"
                (update_xhr x (defineReadOnly "readyState"
                                 (PNum (stage_value st))) s))) as Hwf1.
  { unfold call_handler. repeat case_match;
      try apply wf_emit_untagged; try done; by apply wf_update_xhr. }
  assert (∀ h s, wf s → wf (call_handler x h s)) as Hcall.
  { intros h s0 Hs0. unfold call_handler.
    repeat case_match; try apply wf_emit_untagged; done. }
  unfold ready_state_step. destruct st; simpl;
    try (by apply wf_setTimeout_step).
  unfold dispatchEvent.
  destruct (dispatchEvent_throws B "load"); simpl; [by auto|].
  destruct (dispatchEvent_throws B "loadend"); simpl;
    repeat apply wf_emit_untagged; auto.
Qed.

(** A callback of the emulator never throws. *)
Lemma ready_state_step_normal (B : Browser) (x : N) (st : Stage) (s : State) :
  ∃ s', ready_state_step B x st s = Normal s'.
Proof.
  unfold ready_state_step. destruct st; simpl; eauto.
  unfold dispatchEvent.
  destruct (dispatchEvent_throws B "load"); simpl; eauto.
  destruct (dispatchEvent_throws B "loadend"); simpl; eauto.
Qed.

(** A timer that runs does nothing (it was cleared), or is the deadline of
    a pending query, or is a callback of the emulator. *)
Lemma run_timer_cases (B : Browser) (s : State) (h : N) :
  wf s →
  run_timer B s h = s
  ∨ (∃ t i e aw,
       t ∈ timers s ∧ handle t = h
       ∧ action t = MockCheckTimeout i (resolve e) ∧ timeout e = h
       ∧ pendingRequests s !! i = Some e
       ∧ promises s !! resolve e = Some {| awaiter := aw; settled := false |}
       ∧ run_timer B s h = resume aw (resolve e) noMock (retire i e aw noMock s))
  ∨ (∃ t x st,
       t ∈ timers s ∧ handle t = h ∧ action t = ReadyStateStep x st
       ∧ run_timer B s h
         = Emulator.state_of (ready_state_step B x st (clearTimeout h s))).
Proof.
  intros Hwf. unfold run_timer.
  destruct (List.find _ (timers s)) as [t|] eqn:E; [|by left].
  apply find_timer in E as [Hin Hh]. right. unfold fire.
  destruct (action t) as [i q|x st] eqn:Ha.
  - left. pose proof (wf_timeout _ Hwf _ _ _ Hin Ha) as Hp.
    destruct (wf_pending _ Hwf _ _ Hp) as (_ & _ & _ & [aw Haw] & _).
    simpl in Haw. rewrite Hh in Hp.
    exists t, i, {| resolve := q; timeout := h |}, aw. simpl.
    repeat split; try done.
    by rewrite <- (resolve_promise_retire i {| resolve := q; timeout := h |}).
  - right. exists t, x, st. repeat split; try done.
    by destruct (ready_state_step_normal B x st (clearTimeout h s)) as [s' ->].
Qed.

Lemma wf_run_timer (B : Browser) (s : State) (h : N) :
  wf s → wf (run_timer B s h).
Proof.
  intros Hwf.
  destruct (run_timer_cases B s h Hwf)
    as [->|[(t & i & e & aw & _ & _ & _ & _ & He & Haw & ->)
           |(t & x & st & _ & _ & _ & ->)]]; [done| |].
  - destruct (wf_retire _ _ aw noMock _ Hwf He Haw) as (? & ? & ?).
    by apply wf_resume.
  - by apply wf_ready_state_step, wf_clearTimeout.
Qed.

Lemma wf_fold_run_timer (B : Browser) (hs : list N) (s : State) :
  wf s → wf (fold_left (run_timer B) hs s).
Proof.
  revert s. induction hs as [|h hs IH]; intros s Hwf; [done|].
  simpl. by apply IH, wf_run_timer.
Qed.

Lemma wf_tick (B : Browser) (s : State) : wf s → wf (tick B s).
Proof.
  intros Hwf. unfold tick. apply wf_fold_run_timer. revert Hwf.
  by apply wf_frame.
Qed.

Lemma wf_step (B : Browser) (s : State) (e : Event) : wf s → wf (step B s e).
Proof.
  intros Hwf. destruct e; simpl.
  - rewrite fetch_issued. by apply wf_issued.
  - revert Hwf. by apply wf_frame.
  - apply wf_emit_untagged; [done|]. by apply wf_update_xhr.
  - unfold xhr_send. destruct (xhrs s !! x); [|done]. simpl.
    rewrite checkMock_issued. by apply wf_issued.
  - by apply wf_update_xhr.
  - unfold xhr_assign. repeat case_match; simplify_eq; try done;
      revert Hwf; by apply wf_frame.
  - by apply wf_on_message.
  - by apply wf_tick.
Qed.

(** Every state the page context reaches is well formed. *)
Lemma wf_run (B : Browser) (events : list Event) (s : State) :
  wf s → wf (run B s events).
Proof.
  revert s. induction events as [|e es IH]; intros s Hwf; [done|].
  simpl. by apply IH, wf_step.
Qed.

End WellFormed.

(** ** The registry over time *)

Section Registry.
Import Platform Injected Query Invariant Pipeline.

(** Resuming a call touches neither the registry nor the log of resolving
    calls nor the counter. *)
Lemma resume_registry (aw : Awaiter) (p : N) (d : MatchDecision) (s : State) :
  pendingRequests (resume aw p d s) = pendingRequests s
  ∧ resolve_calls (resume aw p d s) = resolve_calls s
  ∧ requestCounter (resume aw p d s) = requestCounter s
  ∧ now (resume aw p d s) = now s.
Proof. unfold resume. by destruct aw; case_match. Qed.

Lemma same_registry_trans (s1 s2 s3 : State) :
  same_registry s1 s2 → same_registry s2 s3 → same_registry s1 s3.
Proof.
  unfold same_registry. intros (? & ? & ? & ?) (? & ? & ? & ?).
  repeat split; congruence.
Qed.

Lemma call_handler_registry (x : N) (h : string) (s : State) :
  same_registry s (call_handler x h s).
Proof. unfold call_handler. by repeat case_match. Qed.

Lemma dispatchEvent_registry (B : Browser) (x : N) (type : string) (s : State) :
  same_registry s (Emulator.state_of (dispatchEvent B x type s)).
Proof. unfold dispatchEvent. by case_match. Qed.

Lemma ready_state_step_registry (B : Browser) (x : N) (st : Stage) (s : State) :
  same_registry s (Emulator.state_of (ready_state_step B x st s)).
Proof.
  pose proof (call_handler_registry x "onreadystatechange"
    (update_xhr x (defineReadOnly "readyState" (PNum (stage_value st))) s))
    as H1.
  unfold ready_state_step. destruct st; try exact H1.
  eapply same_registry_trans; [exact H1|].
  eapply same_registry_trans; [apply (call_handler_registry x "onload")|].
  eapply same_registry_trans; [apply (call_handler_registry x "onloadend")|].
  unfold dispatchEvent.
  destruct (dispatchEvent_throws B "load"); simpl; [done|].
  by destruct (dispatchEvent_throws B "loadend").
Qed.

(** What a message for a pending entry does to the registry and to the
    log. *)
Lemma on_message_settles (s : State) (id : string)
    (forwarded : Completion MatchDecision) (e : PendingRequest) :
  wf s → id ≠ "" → pendingRequests s !! id = Some e →
  let s' := on_message (relayed id forwarded) s in
  pendingRequests s' = delete id (pendingRequests s)
  ∧ resolve_calls s'
    = resolve_calls s
      ++ [(resolve e, Relay.payload (Relay.on_check_mock id forwarded))].
Proof.
  intros Hwf Hid He. simpl.
  rewrite (on_message_pending _ _ _ _ Hid He).
  destruct (wf_pending _ Hwf _ _ He) as (_ & _ & _ & [aw Haw] & _).
  rewrite (resolve_promise_retire _ _ aw) by done.
  by destruct (resume_registry aw (resolve e)
                 (Relay.payload (Relay.on_check_mock id forwarded))
                 (retire id e aw
                    (Relay.payload (Relay.on_check_mock id forwarded)) s))
    as (-> & -> & _).
Qed.

(** A timer that runs deletes at most entries, and makes no new call. *)
Lemma run_timer_registry (B : Browser) (s : State) (h : N) :
  wf s →
  requestCounter (run_timer B s h) = requestCounter s
  ∧ now (run_timer B s h) = now s
  ∧ ∀ i e, pendingRequests (run_timer B s h) !! i = Some e →
           pendingRequests s !! i = Some e.
Proof.
  intros Hwf.
  destruct (run_timer_cases B s h Hwf)
    as [->|[(t & i & e & aw & _ & _ & _ & _ & He & Haw & ->)
           |(t & x & st & _ & _ & _ & ->)]]; [done| |].
  - destruct (resume_registry aw (resolve e) noMock (retire i e aw noMock s))
      as (-> & _ & -> & ->). simpl.
    repeat split. by intros i' e' [_ ?]%lookup_delete_Some.
  - by destruct (ready_state_step_registry B x st (clearTimeout h s))
      as (-> & _ & -> & ->).
Qed.

Lemma fold_run_timer_registry (B : Browser) (hs : list N) (s : State) :
  wf s →
  requestCounter (fold_left (run_timer B) hs s) = requestCounter s
  ∧ now (fold_left (run_timer B) hs s) = now s
  ∧ ∀ i e, pendingRequests (fold_left (run_timer B) hs s) !! i = Some e →
           pendingRequests s !! i = Some e.
Proof.
  revert s. induction hs as [|h hs IH]; intros s Hwf; [done|]. simpl.
  destruct (IH _ (wf_run_timer B s h Hwf)) as (-> & -> & Hsub).
  destruct (run_timer_registry B s h Hwf) as (-> & -> & Hsub').
  repeat split. eauto.
Qed.

(** An event adds at most one entry to the registry: the one of the query
    it issues, which is the next call. *)
Lemma step_registry (B : Browser) (s : State) (ev : Event) :
  wf s →
  (requestCounter s ≤ requestCounter (step B s ev))%N
  ∧ ∀ i e, pendingRequests (step B s ev) !! i = Some e →
           pendingRequests s !! i = Some e
           ∨ i = request_id (now s) (N.succ (requestCounter s)).
Proof.
  intros Hwf. destruct ev; simpl.
  - rewrite fetch_issued; simpl. split; [lia|].
    intros i e [[<- _]|[_ ?]]%lookup_insert_Some; auto.
  - split; [lia|auto].
  - split; [lia|auto].
  - unfold xhr_send. destruct (xhrs s !! x); simpl; [|split; [lia|auto]].
    split; [lia|].
    intros i e [[<- _]|[_ ?]]%lookup_insert_Some; auto.
  - split; [lia|auto].
  - unfold xhr_assign. repeat case_match; simplify_eq; split; auto; lia.
  - destruct (on_message_cases event s) as [->|(m & e & _ & He & ->)];
      [split; [lia|auto]|].
    destruct (wf_pending _ Hwf _ _ He) as (_ & _ & _ & [aw Haw] & _).
    rewrite (resolve_promise_retire _ _ aw) by done.
    destruct (resume_registry aw (resolve e) (Relay.payload m)
                (retire (Relay.requestId m) e aw (Relay.payload m) s))
      as (-> & _ & -> & _). simpl. split; [lia|].
    intros i e' [_ ?]%lookup_delete_Some. auto.
  - unfold tick.
    assert (wf (set_now N.succ s)) as Hwf' by (revert Hwf; by apply wf_frame).
    destruct (fold_run_timer_registry B
                (handle <$> filter (λ t, (due t ≤ now (set_now N.succ s))%N)
                                   (timers (set_now N.succ s)))
                _ Hwf') as (-> & _ & Hsub).
    simpl. split; [lia|]. intros i e He. left. by apply Hsub in He.
Qed.

Lemma run_counter_mono (B : Browser) (events : list Event) (s : State) :
  wf s → (requestCounter s ≤ requestCounter (run B s events))%N.
Proof.
  revert s. induction events as [|ev evs IH]; intros s Hwf; [done|]. simpl.
  destruct (step_registry B s ev Hwf) as [Hle _].
  pose proof (IH _ (wf_step B s ev Hwf)). lia.
Qed.

(** An identifier that was issued and has no entry never has one again. *)
Lemma retired_forever (B : Browser) (events : list Event) (s : State)
    (id : string) (t c : N) :
  wf s → id = request_id t c → (c ≤ requestCounter s)%N →
  pendingRequests s !! id = None →
  pendingRequests (run B s events) !! id = None.
Proof.
  revert s. induction events as [|ev evs IH]; intros s Hwf Hid Hc Hnone;
    [done|]. simpl.
  destruct (step_registry B s ev Hwf) as [Hle Hsub].
  apply IH; [by apply wf_step|done|lia|].
  destruct (pendingRequests (step B s ev) !! id) as [e|] eqn:He; [|done].
  destruct (Hsub _ _ He) as [Hold|Hnew]; [congruence|].
  rewrite Hid in Hnew. apply request_id_inj in Hnew as [_ ->]. lia.
Qed.

End Registry.

Section Deadline.
Import Platform Injected Query Invariant Pipeline.

(** The deadline of a pending query runs: the query is settled with the
    negative decision and its call is resumed with it. *)
Lemma run_timer_deadline (B : Browser) (s : State) (t : Timer) (i : string)
    (q : N) :
  wf s → t ∈ timers s → action t = MockCheckTimeout i q →
  ∃ aw,
    pendingRequests s !! i = Some {| resolve := q; timeout := handle t |}
    ∧ promises s !! q = Some {| awaiter := aw; settled := false |}
    ∧ run_timer B s (handle t)
      = resume aw q noMock
          (retire i {| resolve := q; timeout := handle t |} aw noMock s).
Proof.
  intros Hwf Hin Ha.
  pose proof (wf_timeout _ Hwf _ _ _ Hin Ha) as Hp.
  destruct (wf_pending _ Hwf _ _ Hp) as (_ & _ & _ & [aw Haw] & _).
  exists aw. split; [done|]. split; [done|].
  unfold run_timer. rewrite (find_timer_elem s t (wf_handles _ Hwf) Hin).
  unfold fire. rewrite Ha.
  by rewrite <- (resolve_promise_retire i {| resolve := q; timeout := handle t |}).
Qed.

End Deadline.

(** C3.  Take any run of the page context in which the identifier [id] had
    an entry in the registry at some point and has none at a later point
    (a reply or its deadline removed it), and let the run go on in any way.
    A [MOCK_RESPONSE] for [id] that arrives then leaves the state as it is:
    no resolving function is called and the registry is unchanged.  In every
    state of the run no promise has had its resolving function called
    twice; a reply for an identifier that has an entry deletes that entry
    and no other and calls the resolving function of that entry and no
    other, whatever the order replies arrive in, and distinct entries hold
    distinct promises; a deadline that runs deletes the entry of its own
    identifier. *)
Theorem settled_query_is_final
    (B : Platform.Browser) (before between after : list Injected.Event)
    (id : string) (forwarded : Completion MatchDecision) :
  let s1 := Injected.run B Injected.initial before in
  let s2 := Injected.run B s1 between in
  let s3 := Injected.run B s2 after in
  is_Some (Injected.pendingRequests s1 !! id) →
  Injected.pendingRequests s2 !! id = None →
  Injected.on_message (Pipeline.relayed id forwarded) s3 = s3
  ∧ NoDup (Invariant.resolved s3)
  ∧ (∀ id' e' forwarded',
       id' ≠ "" → Injected.pendingRequests s3 !! id' = Some e' →
       let s4 := Injected.on_message (Pipeline.relayed id' forwarded') s3 in
       Injected.pendingRequests s4 = delete id' (Injected.pendingRequests s3)
       ∧ Injected.resolve_calls s4
         = Injected.resolve_calls s3
           ++ [(Injected.resolve e',
                Relay.payload (Relay.on_check_mock id' forwarded'))])
  ∧ (∀ i j e f,
       Injected.pendingRequests s3 !! i = Some e →
       Injected.pendingRequests s3 !! j = Some f →
       Injected.resolve e = Injected.resolve f → i = j)
  ∧ (∀ t i q,
       t ∈ Injected.timers s3 →
       Injected.action t = Injected.MockCheckTimeout i q →
       Injected.pendingRequests
         (Injected.run_timer B s3 (Injected.handle t)) !! i = None).
Proof.
  intros s1 s2 s3 [e He] Hnone.
  assert (Invariant.wf s1) as Hwf1 by apply wf_run, wf_initial.
  assert (Invariant.wf s2) as Hwf2 by by apply wf_run.
  assert (Invariant.wf s3) as Hwf3 by by apply wf_run.
  split; [|split; [|split; [|split]]].
  - apply on_message_not_pending.
    destruct (Invariant.wf_pending _ Hwf1 _ _ He) as (Hle & _ & [t Ht] & _).
    apply (retired_forever B after s2 id t (Injected.resolve e)); try done.
    pose proof (run_counter_mono B between s1 Hwf1). subst s2. lia.
  - apply (Invariant.wf_once _ Hwf3).
  - intros id' e' forwarded' Hid He'. by apply on_message_settles.
  - intros i j e1 e2 H1 H2 Heq.
    apply (Invariant.wf_pending_inj _ Hwf3 i j e1 e2); auto.
  - intros t i q Hin Ha.
    destruct (run_timer_deadline B s3 t i q Hwf3 Hin Ha) as (aw & _ & _ & ->).
    destruct (resume_registry aw q noMock
                (Invariant.retire i
                   {| Injected.resolve := q;
                      Injected.timeout := Injected.handle t |}
                   aw noMock s3)) as (-> & _).
    simpl. by rewrite lookup_delete_eq.
Qed.

(** A [fetch] is answered, time passes, another [fetch] is made, and the
    answer arrives a second time: the state does not change. *)
Lemma settled_query_is_final_witness :
  Injected.on_message (Pipeline.reply "req_0_1" Scenario.malformed)
    (Injected.run Scenario.browser
       (Injected.run Scenario.browser
          (Injected.run Scenario.browser Injected.initial
             [Injected.CallFetch 7 Scenario.post_users])
          [Injected.Message
             (Pipeline.reply "req_0_1" (Scenario.affirmative Scenario.created))])
       [Injected.Tick; Injected.CallFetch 7 Scenario.post_users])
  = Injected.run Scenario.browser
      (Injected.run Scenario.browser
         (Injected.run Scenario.browser Injected.initial
            [Injected.CallFetch 7 Scenario.post_users])
         [Injected.Message
            (Pipeline.reply "req_0_1" (Scenario.affirmative Scenario.created))])
      [Injected.Tick; Injected.CallFetch 7 Scenario.post_users].
Proof.
  refine (proj1 (settled_query_is_final Scenario.browser
                   [Injected.CallFetch 7 Scenario.post_users]
                   [Injected.Message
                      (Pipeline.reply "req_0_1"
                         (Scenario.affirmative Scenario.created))]
                   [Injected.Tick; Injected.CallFetch 7 Scenario.post_users]
                   "req_0_1" (Return Scenario.malformed) _ _)).
  - exists {| Injected.resolve := 1; Injected.timeout := 0 |}.
    vm_compute. reflexivity.
  - vm_compute. reflexivity.
Defined.

(** ** A query that gets no decision *)

Section Continuation.
Import Platform Injected Query Invariant Pipeline Waiting.

Lemma continues_refl (s : State) : continues s s.
Proof. split; exists []; by rewrite app_nil_r. Qed.

Lemma continues_trans (s1 s2 s3 : State) :
  continues s1 s2 → continues s2 s3 → continues s1 s3.
Proof.
  intros [[l1 H1] [k1 K1]] [[l2 H2] [k2 K2]]. split.
  - exists (l1 ++ l2). by rewrite H2, H1, app_assoc.
  - exists (k1 ++ k2). by rewrite K2, K1, app_assoc.
Qed.

(** A state that differs in other fields only. *)
Lemma continues_same (s s' : State) :
  resolve_calls s' = resolve_calls s → trace s' = trace s → continues s s'.
Proof. intros H1 H2. split; exists []; by rewrite app_nil_r. Qed.

Lemma continues_emit (e : Effect) (s : State) : continues s (emit e s).
Proof. split; [exists []; by rewrite app_nil_r|by eexists]. Qed.

Lemma continues_call_handler (x : N) (h : string) (s : State) :
  continues s (call_handler x h s).
Proof.
  unfold call_handler. repeat case_match;
    auto using continues_refl, continues_emit.
Qed.

Lemma continues_resume (aw : Awaiter) (p : N) (d : MatchDecision) (s : State) :
  continues s (resume aw p d s).
Proof.
  unfold resume. destruct aw; case_match; try apply continues_emit.
  by apply continues_same.
Qed.

Lemma continues_retire (i : string) (e : PendingRequest) (aw : Awaiter)
    (d : MatchDecision) (s : State) :
  continues s (retire i e aw d s).
Proof. split; simpl; [by eexists|exists []; by rewrite app_nil_r]. Qed.

Lemma continues_ready_state_step (B : Browser) (x : N) (st : Stage) (s : State) :
  continues s (Emulator.state_of (ready_state_step B x st s)).
Proof.
  assert (continues s
            (call_handler x "onreadystatechange"
               (update_xhr x (defineReadOnly "readyState"
                                (PNum (stage_value st))) s))) as H1.
  { eapply continues_trans; [|apply continues_call_handler].
    by apply continues_same. }
  unfold ready_state_step.
  destruct st; simpl;
    try (eapply continues_trans; [exact H1|by apply continues_same]).
  eapply continues_trans; [exact H1|].
  eapply continues_trans; [apply (continues_call_handler x "onload")|].
  eapply continues_trans; [apply (continues_call_handler x "onloadend")|].
  unfold dispatchEvent.
  destruct (dispatchEvent_throws B "load"); simpl; [apply continues_refl|].
  eapply continues_trans; [apply continues_emit|].
  destruct (dispatchEvent_throws B "loadend"); simpl;
    [apply continues_refl|apply continues_emit].
Qed.

Lemma continues_run_timer (B : Browser) (s : State) (h : N) :
  wf s → continues s (run_timer B s h).
Proof.
  intros Hwf.
  destruct (run_timer_cases B s h Hwf)
    as [->|[(t & i & e & aw & _ & _ & _ & _ & He & Haw & ->)
           |(t & x & st & _ & _ & _ & ->)]].
  - apply continues_refl.
  - eapply continues_trans; [apply continues_retire|apply continues_resume].
  - eapply continues_trans; [|apply continues_ready_state_step].
    by apply continues_same.
Qed.

Lemma continues_fold_run_timer (B : Browser) (hs : list N) (s : State) :
  wf s → continues s (fold_left (run_timer B) hs s).
Proof.
  revert s. induction hs as [|h hs IH]; intros s Hwf; [apply continues_refl|].
  simpl. eapply continues_trans; [by apply continues_run_timer|].
  by apply IH, wf_run_timer.
Qed.

Lemma continues_step (B : Browser) (s : State) (ev : Event) :
  wf s → continues s (step B s ev).
Proof.
  intros Hwf. destruct ev; simpl.
  - rewrite fetch_issued. split; simpl; [exists []; by rewrite app_nil_r|by eexists].
  - by apply continues_same.
  - split; simpl; [exists []; by rewrite app_nil_r|by eexists].
  - unfold xhr_send. destruct (xhrs s !! x); [|apply continues_refl].
    split; simpl; [exists []; by rewrite app_nil_r|by eexists].
  - by apply continues_same.
  - unfold xhr_assign. repeat case_match; simplify_eq;
      try apply continues_refl; by apply continues_same.
  - destruct (on_message_cases event s) as [->|(m & e & _ & He & ->)];
      [apply continues_refl|].
    destruct (wf_pending _ Hwf _ _ He) as (_ & _ & _ & [aw Haw] & _).
    rewrite (resolve_promise_retire _ _ aw) by done.
    eapply continues_trans; [apply continues_retire|apply continues_resume].
  - unfold tick. eapply continues_trans; [|apply continues_fold_run_timer].
    + by apply continues_same.
    + revert Hwf. by apply wf_frame.
Qed.

Lemma continues_run (B : Browser) (events : list Event) (s : State) :
  wf s → continues s (run B s events).
Proof.
  revert s. induction events as [|ev evs IH]; intros s Hwf;
    [apply continues_refl|].
  simpl. eapply continues_trans; [by apply continues_step|].
  by apply IH, wf_step.
Qed.

End Continuation.

Section StillWaiting.
Import Platform Injected Query Invariant Pipeline Waiting.

Context (id : string) (p h T : N) (aw : Awaiter).

Lemma awaiting_frame (s s' : State) :
  pendingRequests s' !! id = pendingRequests s !! id →
  (∀ t, t ∈ timers s → handle t = h → t ∈ timers s') →
  promises s' !! p = promises s !! p →
  awaiting id p h T aw s → awaiting id p h T aw s'.
Proof.
  intros Hp Ht Hpr (H1 & H2 & H3). unfold awaiting.
  rewrite Hp, Hpr. split; [done|]. split; [|done]. by apply Ht.
Qed.

Lemma awaiting_call_handler (x : N) (name : string) (s : State) :
  awaiting id p h T aw s → awaiting id p h T aw (call_handler x name s).
Proof. unfold call_handler. by repeat case_match. Qed.

Lemma awaiting_resume (aw' : Awaiter) (p' : N) (d : MatchDecision) (s : State) :
  awaiting id p h T aw s → awaiting id p h T aw (resume aw' p' d s).
Proof.
  unfold resume. destruct aw'; case_match; try done.
  apply awaiting_frame; try done. simpl. intros t Ht _.
  apply elem_of_app. by left.
Qed.

Lemma awaiting_ready_state_step (B : Browser) (x : N) (st : Stage) (s : State) :
  awaiting id p h T aw s →
  awaiting id p h T aw (Emulator.state_of (ready_state_step B x st s)).
Proof.
  intros Ha.
  assert (awaiting id p h T aw
            (call_handler x "onreadystatechange"
               (update_xhr x (defineReadOnly "readyState"
                                (PNum (stage_value st))) s))) as H1
    by by apply awaiting_call_handler.
  unfold ready_state_step.
  destruct st; simpl;
    try (revert H1; apply awaiting_frame; try done; simpl;
         intros t Ht _; apply elem_of_app; by left).
  unfold dispatchEvent.
  destruct (dispatchEvent_throws B "load"); simpl;
    [by repeat apply awaiting_call_handler|].
  destruct (dispatchEvent_throws B "loadend"); simpl;
    by repeat apply awaiting_call_handler.
Qed.

Lemma awaiting_clearTimeout (h' : N) (s : State) :
  h' ≠ h → awaiting id p h T aw s → awaiting id p h T aw (clearTimeout h' s).
Proof.
  intros Hne. apply awaiting_frame; try done. simpl.
  intros t Ht Hh. apply list_elem_of_filter. split; [congruence|done].
Qed.

(** Settling another query leaves this one waiting. *)
Lemma awaiting_retire (i : string) (e : PendingRequest) (aw' : Awaiter)
    (d : MatchDecision) (s : State) :
  wf s → pendingRequests s !! i = Some e → i ≠ id →
  awaiting id p h T aw s → awaiting id p h T aw (retire i e aw' d s).
Proof.
  intros Hwf He Hne Ha. pose proof Ha as (Hp & _ & _).
  revert Ha. apply awaiting_frame; simpl.
  - by rewrite lookup_delete_ne.
  - intros t Ht Hh. apply list_elem_of_filter. split; [|done].
    rewrite Hh. intros Heq. apply Hne.
    apply (wf_pending_inj _ Hwf i id e _ He Hp). by right.
  - rewrite lookup_insert_ne; [done|]. intros Heq. apply Hne.
    apply (wf_pending_inj _ Hwf i id e _ He Hp). by left.
Qed.

Lemma awaiting_issued (u m : string) (aw' : Awaiter) (s : State) :
  wf s → awaiting id p h T aw s → awaiting id p h T aw (issued u m aw' s).
Proof.
  intros Hwf Ha. pose proof Ha as (Hp & _ & _).
  destruct (wf_pending _ Hwf _ _ Hp) as (Hle & _ & [t Ht] & _). simpl in *.
  revert Ha. apply awaiting_frame; simpl.
  - rewrite lookup_insert_ne; [done|]. rewrite Ht.
    intros [_ ?]%request_id_inj. lia.
  - intros t' Ht' _. apply elem_of_app. by left.
  - rewrite lookup_insert_ne; [done|]. lia.
Qed.

Lemma awaiting_run_timer (B : Browser) (s : State) (h' : N) :
  wf s → h' ≠ h →
  awaiting id p h T aw s → awaiting id p h T aw (run_timer B s h').
Proof.
  intros Hwf Hne Ha. pose proof Ha as (Hp & _ & _).
  destruct (run_timer_cases B s h' Hwf)
    as [->|[(t & i & e & aw' & _ & _ & _ & Hto & He & Haw & ->)
           |(t & x & st & _ & _ & _ & ->)]]; [done| |].
  - apply awaiting_resume, awaiting_retire; try done.
    intros ->. rewrite Hp in He. injection He as <-. simpl in Hto. done.
  - by apply awaiting_ready_state_step, awaiting_clearTimeout.
Qed.

Lemma awaiting_fold_run_timer (B : Browser) (hs : list N) (s : State) :
  wf s → h ∉ hs →
  awaiting id p h T aw s → awaiting id p h T aw (fold_left (run_timer B) hs s).
Proof.
  revert s. induction hs as [|h' hs IH]; intros s Hwf Hh Ha; [done|].
  apply not_elem_of_cons in Hh as [Hne Hh]. simpl.
  apply IH; [by apply wf_run_timer|done|]. by apply awaiting_run_timer.
Qed.

(** With unique handles a timer is known by its handle. *)
Lemma timer_unique (s : State) (t t' : Timer) :
  NoDup (handle <$> timers s) → t ∈ timers s → t' ∈ timers s →
  handle t = handle t' → t = t'.
Proof.
  intros Hnd Ht Ht' Hh.
  pose proof (find_timer_elem s t Hnd Ht) as H1.
  pose proof (find_timer_elem s t' Hnd Ht') as H2.
  rewrite Hh in H1. congruence.
Qed.

(** While the deadline is in the future, an event that is no reply to the
    query leaves it waiting. *)
Lemma awaiting_step (B : Browser) (s : State) (ev : Event) :
  wf s → ¬ replies_to id ev → (now s + ticks [ev] < T)%N →
  awaiting id p h T aw s → awaiting id p h T aw (step B s ev).
Proof.
  intros Hwf Hno Hlt Ha. destruct ev; simpl.
  - rewrite fetch_issued. by apply awaiting_issued.
  - done.
  - done.
  - unfold xhr_send. destruct (xhrs s !! x); [|done]. simpl.
    rewrite checkMock_issued. by apply awaiting_issued.
  - done.
  - unfold xhr_assign. by repeat case_match; simplify_eq.
  - destruct (on_message_cases event s) as [->|(m & e & Hm & He & ->)];
      [done|].
    destruct (wf_pending _ Hwf _ _ He) as (_ & _ & _ & [aw' Haw] & _).
    rewrite (resolve_promise_retire _ _ aw') by done.
    apply awaiting_resume, awaiting_retire; try done.
    intros Heq. apply Hno. destruct Hm as (? & ? & ? & ?). simpl. eauto 10.
  - unfold tick.
    apply awaiting_fold_run_timer; [revert Hwf; by apply wf_frame| |done].
    simpl. intros (t & Hh & [Hdue Hin]%list_elem_of_filter)%list_elem_of_fmap.
    destruct Ha as (_ & Hours & _).
    pose proof (timer_unique s _ _ (wf_handles _ Hwf) Hin Hours (eq_sym Hh))
      as ->.
    simpl in *. lia.
Qed.

End StillWaiting.

Section DeadlinePasses.
Import Platform Injected Query Invariant Pipeline Waiting.

Lemma ticks_cons (ev : Event) (events : list Event) :
  ticks (ev :: events) = (ticks [ev] + ticks events)%N.
Proof. destruct ev; simpl; lia. Qed.

Lemma ticks_app (l k : list Event) : ticks (l ++ k) = (ticks l + ticks k)%N.
Proof.
  induction l as [|ev l IH]; [done|].
  rewrite <- app_comm_cons, (ticks_cons ev (l ++ k)), (ticks_cons ev l), IH. lia.
Qed.

(** The clock moves with the ticks and with nothing else. *)
Lemma step_now (B : Browser) (s : State) (ev : Event) :
  wf s → now (step B s ev) = (now s + ticks [ev])%N.
Proof.
  intros Hwf. destruct ev; simpl; rewrite ?N.add_0_r; try done.
  - by rewrite fetch_issued.
  - unfold xhr_send. by destruct (xhrs s !! x).
  - unfold xhr_assign. by repeat case_match; simplify_eq.
  - destruct (on_message_cases event s) as [->|(m & e & _ & He & ->)]; [done|].
    destruct (wf_pending _ Hwf _ _ He) as (_ & _ & _ & [aw Haw] & _).
    rewrite (resolve_promise_retire _ _ aw) by done.
    by destruct (resume_registry aw (resolve e) (Relay.payload m)
                   (retire (Relay.requestId m) e aw (Relay.payload m) s))
      as (_ & _ & _ & ->).
  - unfold tick.
    assert (wf (set_now N.succ s)) as Hwf' by (revert Hwf; by apply wf_frame).
    destruct (fold_run_timer_registry B
                (handle <$> filter (λ t, (due t ≤ now (set_now N.succ s))%N)
                                   (timers (set_now N.succ s)))
                _ Hwf') as (_ & -> & _).
    simpl. lia.
Qed.

Lemma run_now (B : Browser) (events : list Event) (s : State) :
  wf s → now (run B s events) = (now s + ticks events)%N.
Proof.
  revert s. induction events as [|ev evs IH]; intros s Hwf;
    [simpl; lia|].
  simpl run. rewrite IH by by apply wf_step.
  rewrite step_now by done. rewrite (ticks_cons ev evs). lia.
Qed.

(** The quiet phase: before the deadline, with no reply, the query keeps
    waiting. *)
Lemma awaiting_run (B : Browser) (id : string) (p h T : N) (aw : Awaiter)
    (events : list Event) (s : State) :
  wf s → Forall (λ ev, ¬ replies_to id ev) events →
  (now s + ticks events < T)%N →
  awaiting id p h T aw s → awaiting id p h T aw (run B s events).
Proof.
  revert s. induction events as [|ev evs IH]; intros s Hwf Hno Hlt Ha; [done|].
  apply Forall_cons in Hno as [Hev Hno]. rewrite (ticks_cons ev evs) in Hlt.
  simpl. apply IH; [by apply wf_step|done| |].
  - rewrite step_now by done. lia.
  - apply awaiting_step; try done. lia.
Qed.

(** The tick of the deadline: the entry is deleted, the resolving function
    is called with the negative decision and the call is resumed, which
    makes its original call, at the time of the deadline. *)
Lemma deadline_tick (B : Browser) (id : string) (p h T : N) (aw : Awaiter)
    (s : State) :
  wf s → N.succ (now s) = T → awaiting id p h T aw s →
  pendingRequests (tick B s) !! id = None
  ∧ (p, noMock) ∈ resolve_calls (tick B s)
  ∧ (T, original_call p aw) ∈ trace (tick B s).
Proof.
  intros Hwf HT Ha. unfold tick.
  set (s0 := set_now N.succ s).
  assert (wf s0) as Hwf0 by (revert Hwf; by apply wf_frame).
  assert (awaiting id p h T aw s0) as Ha0 by done.
  pose proof Ha0 as (_ & Hours & _).
  set (hs := handle <$> filter (λ t, (due t ≤ now s0)%N) (timers s0)).
  assert (NoDup hs) as Hnd.
  { apply (sublist_NoDup _ _ (wf_handles _ Hwf0)), fmap_sublist, sublist_filter. }
  assert (h ∈ hs) as Hin.
  { apply list_elem_of_fmap. eexists. split; [|apply list_elem_of_filter; split;
      [|exact Hours]]; simpl; [done|lia]. }
  apply list_elem_of_split in Hin as (l1 & l2 & Hsplit).
  rewrite Hsplit in Hnd |- *.
  apply NoDup_app in Hnd as (_ & Hl1 & _).
  assert (h ∉ l1) as Hh by (intros ?; eapply Hl1; [done|by left]).
  rewrite fold_left_app. simpl.
  set (sa := fold_left (run_timer B) l1 s0).
  assert (wf sa) as Hwfa by by apply wf_fold_run_timer.
  assert (awaiting id p h T aw sa) as (Hp & Hta & Hpr)
    by by apply awaiting_fold_run_timer.
  assert (now sa = T) as Hnow.
  { unfold sa. destruct (fold_run_timer_registry B l1 s0 Hwf0) as (_ & -> & _).
    simpl. lia. }
  destruct (run_timer_deadline B sa _ id p Hwfa Hta eq_refl)
    as (aw' & _ & Hpr' & Hrun).
  simpl in Hrun. rewrite Hpr in Hpr'. injection Hpr' as <-.
  rewrite resume_unmocked in Hrun by done.
  set (sb := run_timer B sa h) in *.
  assert (wf sb) as Hwfb by by apply wf_run_timer.
  destruct (fold_run_timer_registry B l2 sb Hwfb) as (_ & _ & Hsub).
  destruct (continues_fold_run_timer B l2 sb Hwfb) as [[lr Hr] [lt Ht]].
  split; [|split].
  - destruct (pendingRequests (fold_left (run_timer B) l2 sb) !! id)
      as [e|] eqn:He; [|done].
    apply Hsub in He. rewrite Hrun in He. simpl in He.
    by rewrite lookup_delete_eq in He.
  - rewrite Hr, Hrun. simpl. rewrite !elem_of_app.
    left. right. by apply list_elem_of_singleton.
  - rewrite Ht, Hrun. simpl. rewrite !elem_of_app.
    left. right. rewrite Hnow. by apply list_elem_of_singleton.
Qed.

(** A list of events that lasts more than [n] milliseconds splits at its
    tick number [n + 1]. *)
Lemma split_at_tick (events : list Event) (n : N) :
  (n < ticks events)%N →
  ∃ quiet rest, events = quiet ++ Tick :: rest ∧ ticks quiet = n.
Proof.
  revert n. induction events as [|ev evs IH]; intros n Hn; [simpl in Hn; lia|].
  assert ((∃ quiet rest, evs = quiet ++ Tick :: rest
                         ∧ (ticks [ev] + ticks quiet)%N = n)
          → ∃ quiet rest, ev :: evs = quiet ++ Tick :: rest ∧ ticks quiet = n)
    as Hcons.
  { intros (quiet & rest & -> & Hq). exists (ev :: quiet), rest.
    split; [done|]. by rewrite (ticks_cons ev quiet). }
  destruct ev; try (apply Hcons; simpl in *; by apply IH).
  destruct (decide (n = 0%N)) as [->|Hne]; [by exists [], evs|].
  apply Hcons. simpl in *.
  destruct (IH (N.pred n)) as (quiet & rest & -> & Hq); [lia|].
  exists quiet, rest. split; [done|]. lia.
Qed.

End DeadlinePasses.

Section FallBack.
Import Platform Injected Query Invariant Pipeline Waiting.

Lemma request_id_nonempty (t c : N) : request_id t c ≠ "".
Proof. unfold request_id. by rewrite !append_cons. Qed.

Lemma resolved_once (l : list (N * MatchDecision)) (p : N)
    (d1 d2 : MatchDecision) :
  NoDup l.*1 → (p, d1) ∈ l → (p, d2) ∈ l → d1 = d2.
Proof.
  induction l as [|[q d] l IH]; [by intros _ ?%elem_of_nil|].
  rewrite fmap_cons, NoDup_cons, !elem_of_cons. simpl.
  intros [Hq Hnd] [H1|H1] [H2|H2].
  - congruence.
  - injection H1 as -> ->. destruct Hq.
    by apply (list_elem_of_fmap_2 fst _ (q, d2)).
  - injection H2 as -> ->. destruct Hq.
    by apply (list_elem_of_fmap_2 fst _ (q, d1)).
  - by apply IH.
Qed.

(** The state [checkMock] leaves has the query waiting for its deadline,
    one second ahead. *)
Lemma issued_awaiting (u m : string) (aw : Awaiter) (s : State) :
  awaiting (request_id (now s) (N.succ (requestCounter s)))
    (N.succ (requestCounter s)) (nextTimer s) (now s + 1000)%N aw
    (issued u m aw s).
Proof.
  unfold awaiting; simpl. rewrite !lookup_insert_eq.
  split; [done|]. split; [|done]. apply elem_of_app. right.
  by apply list_elem_of_singleton.
Qed.

End FallBack.

(** C2.  Take a query issued by either shim in any state the page context
    reaches, and let any events follow, none of them a window message
    naming the identifier of the query.  Once the events have lasted one
    second, the entry is gone from the registry, the one decision the
    resolving function of the query was ever called with is
    [{shouldMock: false}], and the suspended call has made its original
    call at the time of the deadline.  And if, before the second is over,
    the relay's forwarding throws, the message the relay posts has
    [shouldMock] false; delivered, it deletes the entry, the resolving
    function is called with it, and the suspended call makes its original
    call: nothing is thrown into page code. *)
Theorem undecided_query_falls_back
    (B : Platform.Browser) (before events : list Injected.Event)
    (u m : string) (aw : Injected.Awaiter) (err : Exn) :
  let s0 := Injected.run B Injected.initial before in
  let s1 := Injected.checkMock u m aw s0 in
  let p := N.succ (Injected.requestCounter s0) in
  let id := Query.request_id (Injected.now s0) p in
  let s2 := Injected.run B s1 events in
  Forall (λ ev, ¬ Waiting.replies_to id ev) events →
  ((1000 ≤ Waiting.ticks events)%N →
     Injected.pendingRequests s2 !! id = None
     ∧ (∀ d, (p, d) ∈ Injected.resolve_calls s2 ↔ d = noMock)
     ∧ ((Injected.now s0 + 1000)%N, Pipeline.original_call p aw)
       ∈ Injected.trace s2)
  ∧ ((Waiting.ticks events < 1000)%N →
     let failure := Relay.payload (Relay.on_check_mock id (Throw err)) in
     let s3 := Injected.on_message (Pipeline.relayed id (Throw err)) s2 in
     shouldMock failure = false
     ∧ Injected.pendingRequests s3 !! id = None
     ∧ Injected.resolve_calls s3 = Injected.resolve_calls s2 ++ [(p, failure)]
     ∧ Injected.trace s3
       = Injected.trace s2 ++ [(Injected.now s2, Pipeline.original_call p aw)]).
Proof.
  intros s0 s1 p id s2 Hquiet.
  assert (Invariant.wf s0) as Hwf0 by apply wf_run, wf_initial.
  assert (Invariant.wf s1) as Hwf1 by by apply wf_issued.
  assert (Waiting.awaiting id p (Injected.nextTimer s0)
            (Injected.now s0 + 1000)%N aw s1) as Ha1
    by apply issued_awaiting.
  split.
  - intros Hlong.
    destruct (split_at_tick events 999) as (quiet & rest & Hev & Hq); [lia|].
    rewrite Hev in Hquiet. apply Forall_app in Hquiet as [Hq1 Hq2].
    apply Forall_cons in Hq2 as [_ Hq2].
    assert (s2 = Injected.run B (Injected.tick B (Injected.run B s1 quiet)) rest)
      as Hs2 by (subst s2; rewrite Hev; unfold Injected.run;
                 by rewrite fold_left_app).
    set (sq := Injected.run B s1 quiet) in *.
    assert (Invariant.wf sq) as Hwfq by by apply wf_run.
    assert (Injected.now sq = (Injected.now s0 + 999)%N) as Hnow
      by (unfold sq; rewrite run_now by done; by rewrite Hq).
    assert (Waiting.awaiting id p (Injected.nextTimer s0)
              (Injected.now s0 + 1000)%N aw sq) as Haq.
    { apply awaiting_run; try done. rewrite Hq. simpl. lia. }
    destruct (deadline_tick B id p (Injected.nextTimer s0)
                (Injected.now s0 + 1000)%N aw sq Hwfq)
      as (Hnone & Hres & Htr); [lia|done|].
    set (st := Injected.tick B sq) in *.
    assert (Invariant.wf st) as Hwft by by apply wf_tick.
    assert (Invariant.wf s2) as Hwf2 by (rewrite Hs2; by apply wf_run).
    destruct (continues_run B rest st Hwft) as [[lr Hr] [lt Ht]].
    rewrite <- Hs2 in Hr, Ht.
    assert ((p, noMock) ∈ Injected.resolve_calls s2) as Hin
      by (rewrite Hr, elem_of_app; by left).
    split; [|split].
    + rewrite Hs2.
      apply (retired_forever B rest st id (Injected.now s0) p); try done.
      pose proof (run_counter_mono B quiet s1 Hwf1) as Hle. fold sq in Hle.
      pose proof (step_registry B sq Injected.Tick Hwfq) as [Hle' _].
      simpl in Hle, Hle'. fold st in Hle'. unfold p. lia.
    + intros d. split; [|by intros ->].
      intros Hd. apply (resolved_once _ p d noMock (Invariant.wf_once _ Hwf2));
        done.
    + rewrite Ht, elem_of_app. by left.
  - intros Hshort failure s3.
    assert (Invariant.wf s2) as Hwf2 by by apply wf_run.
    assert (Waiting.awaiting id p (Injected.nextTimer s0)
              (Injected.now s0 + 1000)%N aw s2) as (Hp & _ & Hpr).
    { apply awaiting_run; try done. simpl. lia. }
    split; [done|]. subst s3.
    rewrite (on_message_pending _ _ _ _ (request_id_nonempty _ _) Hp).
    rewrite (resolve_promise_retire id _ aw) by done.
    rewrite resume_unmocked by done. simpl.
    by rewrite lookup_delete_eq.
Qed.

(** A [fetch] that nobody answers: after 1000 ticks its entry is gone and
    the original [fetch] has been called at time 1000. *)
Lemma undecided_query_falls_back_witness :
  Injected.pendingRequests
    (Injected.run Scenario.browser
       (Injected.checkMock "https://app.example/users" "POST"
          (Injected.FetchCall 7 Scenario.post_users
             "https://app.example/users" "post")
          (Injected.run Scenario.browser Injected.initial []))
       (replicate 1000 Injected.Tick)) !! "req_0_1" = None
  ∧ (1000%N, Injected.OriginalFetch 1 7 Scenario.post_users)
    ∈ Injected.trace
        (Injected.run Scenario.browser
           (Injected.checkMock "https://app.example/users" "POST"
              (Injected.FetchCall 7 Scenario.post_users
                 "https://app.example/users" "post")
              (Injected.run Scenario.browser Injected.initial []))
           (replicate 1000 Injected.Tick)).
Proof.
  destruct (undecided_query_falls_back Scenario.browser []
              (replicate 1000 Injected.Tick)
              "https://app.example/users" "POST"
              (Injected.FetchCall 7 Scenario.post_users
                 "https://app.example/users" "post")
              (TypeError "unused")) as [Hdeadline _].
  - apply Forall_forall. intros ev [-> _]%elem_of_replicate. simpl. tauto.
  - destruct Hdeadline as (Hnone & _ & Htrace).
    + vm_compute. discriminate.
    + split; [exact Hnone|exact Htrace].
Defined.

(** ** A call that is not mocked *)

Section Unmocked.
Import Platform Injected Query Invariant Pipeline Waiting PassThrough.

Lemma effects_of_untagged (p : N) (tr : list (N * Effect)) :
  p ∉ tags tr → effects_of p tr = [].
Proof.
  induction tr as [|[t e] tr IH]; [done|]. unfold effects_of, tags in *.
  simpl. rewrite filter_cons. simpl. destruct (call_of e) as [c|] eqn:E.
  - rewrite not_elem_of_cons. intros [Hne Hp].
    rewrite decide_False by congruence. by apply IH.
  - intros Hp. rewrite decide_False by done. by apply IH.
Qed.

(** In a trace where no call resumed twice, the effect a call made when it
    resumed is the only one it ever made. *)
Lemma effects_of_once (p t : N) (e : Effect) (a l : list (N * Effect)) :
  call_of e = Some p →
  NoDup (tags (a ++ (t, e) :: l)) →
  effects_of p (a ++ (t, e) :: l) = [(t, e)].
Proof.
  intros He. unfold tags. rewrite omap_app. simpl. rewrite He.
  intros (Ha & Hmid & Hl)%NoDup_app. apply NoDup_cons in Hl as [Hl _].
  unfold effects_of. rewrite filter_app, filter_cons. simpl.
  rewrite decide_True by done.
  fold (effects_of p a). fold (effects_of p l).
  rewrite effects_of_untagged, effects_of_untagged; [done|done|].
  intros Hin. apply (Hmid p Hin). by left.
Qed.

End Unmocked.




(** ** The lifecycle of a mocked instance *)

Section OtherTimers.
Import Platform Injected Query Invariant Pipeline Lifecycle.

Context (B : Browser) (x : N).

Local Abbreviation same_view := (Lifecycle.same_view x).

Lemma same_view_refl (s : State) : same_view s s.
Proof. done. Qed.

Lemma same_view_trans (s1 s2 s3 : State) :
  same_view s1 s2 → same_view s2 s3 → same_view s1 s3.
Proof.
  unfold same_view. intros (? & ? & ? & ? & ?) (? & ? & ? & ? & ?).
  repeat split; congruence.
Qed.

Lemma emulation_effects_snoc (tr : list (N * Effect)) (t : N) (e : Effect) :
  emulation_effects x (tr ++ [(t, e)])
  = emulation_effects x tr ++ (if concerns x e then [(t, e)] else []).
Proof.
  unfold emulation_effects. rewrite filter_app, filter_cons, filter_nil. simpl.
  by destruct (concerns x e).
Qed.

Lemma same_view_emit (e : Effect) (s : State) :
  concerns x e = false → same_view s (emit e s).
Proof.
  intros He. unfold same_view; simpl.
  by rewrite emulation_effects_snoc, He, app_nil_r.
Qed.

Lemma same_view_call_handler (x' : N) (h : string) (s : State) :
  x' ≠ x → same_view s (call_handler x' h s).
Proof.
  intros Hne. unfold call_handler. repeat case_match; try done.
  apply same_view_emit. simpl. by apply N.eqb_neq.
Qed.

Lemma same_view_update_xhr (x' : N) (f : Xhr → Xhr) (s : State) :
  x' ≠ x → same_view s (update_xhr x' f s).
Proof.
  intros Hne. unfold same_view; simpl. by rewrite lookup_alter_ne.
Qed.

Lemma same_view_setTimeout (a : TimerAction) (delay : N) (s : State) :
  (∀ st, a ≠ ReadyStateStep x st) → same_view s (setTimeout a delay s).
Proof.
  intros Ha. unfold same_view, x_timers; simpl.
  rewrite filter_app, filter_cons, filter_nil.
  rewrite decide_False; [by rewrite app_nil_r|].
  unfold steps; simpl. destruct a as [|x' st]; [done|].
  intros ->%N.eqb_eq. by destruct (Ha st).
Qed.

Lemma filter_clear_other (l : list Timer) (h : N) :
  h ∉ handle <$> filter (λ t, steps x t = true) l →
  filter (λ t, steps x t = true) (filter (λ t, handle t ≠ h) l)
  = filter (λ t, steps x t = true) l.
Proof.
  induction l as [|t l IH]; [done|]. rewrite !filter_cons.
  destruct (decide (steps x t = true)) as [Hs|Hs].
  - rewrite fmap_cons, not_elem_of_cons. intros [Hne Hl].
    rewrite decide_True by done. rewrite filter_cons, decide_True by done.
    by rewrite IH.
  - intros Hl. case_decide; [rewrite filter_cons, decide_False by done|];
      by apply IH.
Qed.

Lemma filter_clear_own (l : list Timer) (t : Timer) :
  filter (λ t', steps x t' = true) l = [t] →
  filter (λ t', steps x t' = true) (filter (λ t', handle t' ≠ handle t) l) = [].
Proof.
  induction l as [|a l IH]; [done|]. rewrite !filter_cons.
  destruct (decide (steps x a = true)) as [Hs|Hs].
  - intros [= -> Hl]. rewrite decide_False by auto.
    rewrite filter_clear_other; [done|]. rewrite Hl. apply not_elem_of_nil.
  - intros Hl. case_decide; [rewrite filter_cons, decide_False by done|];
      by apply IH.
Qed.

Lemma same_view_clearTimeout (h : N) (s : State) :
  h ∉ handle <$> x_timers x s → same_view s (clearTimeout h s).
Proof.
  intros Hh. unfold same_view, x_timers; simpl.
  by rewrite filter_clear_other.
Qed.

Lemma same_view_retire (i : string) (e : PendingRequest) (aw : Awaiter)
    (d : MatchDecision) (s : State) :
  timeout e ∉ handle <$> x_timers x s → same_view s (retire i e aw d s).
Proof.
  intros Hh. unfold same_view, x_timers, retire; simpl.
  by rewrite filter_clear_other.
Qed.

Lemma same_view_ready_state_step (x' : N) (st : Stage) (s : State) :
  x' ≠ x → same_view s (Emulator.state_of (ready_state_step B x' st s)).
Proof.
  intros Hne.
  assert (same_view s
            (call_handler x' "onreadystatechange"
               (update_xhr x' (defineReadOnly "readyState"
                                 (PNum (stage_value st))) s))) as H1.
  { eapply same_view_trans; [by apply same_view_update_xhr|].
    by apply same_view_call_handler. }
  assert (∀ st', ∀ s0, same_view s0 (setTimeout (ReadyStateStep x' st') 5 s0))
    as Hset.
  { intros st' s0. apply same_view_setTimeout. congruence. }
  unfold ready_state_step.
  destruct st; simpl;
    try (eapply same_view_trans; [exact H1|apply Hset]).
  eapply same_view_trans; [exact H1|].
  eapply same_view_trans; [by apply (same_view_call_handler x' "onload")|].
  eapply same_view_trans; [by apply (same_view_call_handler x' "onloadend")|].
  unfold dispatchEvent.
  destruct (dispatchEvent_throws B "load"); simpl; [done|].
  assert (∀ type s0, same_view s0 (emit (EventDispatched x' type) s0))
    as Hemit.
  { intros type s0. apply same_view_emit. simpl. by apply N.eqb_neq. }
  destruct (dispatchEvent_throws B "loadend"); simpl; [apply Hemit|].
  eapply same_view_trans; apply Hemit.
Qed.

(** A timer that is no callback of the emulation of [x] leaves its view
    as it is. *)
Lemma same_view_run_timer (s : State) (h : N) :
  wf s → h ∉ handle <$> x_timers x s → same_view s (run_timer B s h).
Proof.
  intros Hwf Hh.
  destruct (run_timer_cases B s h Hwf)
    as [->|[(t & i & e & aw & _ & _ & _ & Hto & He & Haw & ->)
           |(t & x' & st & Hin & Hht & Ha & ->)]]; [done| |].
  - rewrite resume_unmocked by done.
    eapply same_view_trans; [apply same_view_retire; by rewrite Hto|].
    apply same_view_emit. by destruct aw.
  - assert (x' ≠ x) as Hne.
    { intros ->. apply Hh. rewrite <- Hht. apply list_elem_of_fmap_2.
      apply list_elem_of_filter. split; [|done].
      unfold steps. rewrite Ha. by apply N.eqb_eq. }
    eapply same_view_trans; [by apply same_view_clearTimeout|].
    by apply same_view_ready_state_step.
Qed.

Lemma same_view_fold_run_timer (hs : list N) (s : State) :
  wf s → (∀ h, h ∈ hs → h ∉ handle <$> x_timers x s) →
  same_view s (fold_left (run_timer B) hs s).
Proof.
  revert s. induction hs as [|h hs IH]; intros s Hwf Hhs; [done|]. simpl.
  assert (same_view s (run_timer B s h)) as Hv
    by (apply same_view_run_timer; [done|apply Hhs; by left]).
  eapply same_view_trans; [exact Hv|].
  apply IH; [by apply wf_run_timer|].
  intros h' Hh'. destruct Hv as (-> & _). apply Hhs. by right.
Qed.

End OtherTimers.

Section OwnTimer.
Import Platform Injected Query Invariant Pipeline Lifecycle.

Context (B : Browser) (x : N).

Local Abbreviation scheduled := (Lifecycle.scheduled x).

(** A call of a handler of the instance, seen from the page. *)
Lemma view_call_handler (h : string) (s : State) (obj : Xhr) (z : Z) :
  xhrs s !! x = Some obj → xhr_get obj "readyState" = Some (PNum z) →
  let s' := call_handler x h s in
  xhrs s' = xhrs s ∧ timers s' = timers s ∧ nextTimer s' = nextTimer s
  ∧ uncaught s' = uncaught s ∧ now s' = now s
  ∧ emulation_effects x (trace s')
    = emulation_effects x (trace s) ++ called (handlers obj) x h (now s) z.
Proof.
  intros Hx Hget. unfold call_handler, called. rewrite Hx, Hget.
  case_bool_decide; simpl; [|by rewrite app_nil_r].
  by rewrite emulation_effects_snoc; simpl; rewrite N.eqb_refl.
Qed.

(** The two events dispatched at the end, inside [try]. *)
Lemma view_dispatch (s : State) :
  let s' := Emulator.state_of
              (try_catch
                 (and_then (dispatchEvent B x "load" s)
                           (dispatchEvent B x "loadend"))
                 (λ e s, Normal s)) in
  xhrs s' = xhrs s ∧ timers s' = timers s ∧ nextTimer s' = nextTimer s
  ∧ uncaught s' = uncaught s ∧ now s' = now s
  ∧ emulation_effects x (trace s')
    = emulation_effects x (trace s) ++ dispatched B x (now s).
Proof.
  unfold dispatchEvent, dispatched.
  destruct (dispatchEvent_throws B "load"); simpl; [by rewrite app_nil_r|].
  destruct (dispatchEvent_throws B "loadend"); simpl;
    rewrite ?emulation_effects_snoc; simpl; rewrite ?N.eqb_refl;
    by rewrite <- ?app_assoc.
Qed.

(** The callback of stage [st] runs on the instance. *)
Lemma own_step (st : Stage) (s : State) (obj : Xhr) :
  xhrs s !! x = Some obj → x_timers x s = [] →
  let s' := Emulator.state_of (ready_state_step B x st s) in
  xhrs s' !! x
    = Some (defineReadOnly "readyState" (PNum (stage_value st)) obj)
  ∧ emulation_effects x (trace s')
    = emulation_effects x (trace s)
      ++ step_effects B (handlers obj) x st (now s)
  ∧ x_timers x s'
    = match next_stage st with
      | Some st' => [{| handle := nextTimer s; due := (now s + 5)%N;
                        action := ReadyStateStep x st' |}]
      | None => []
      end
  ∧ uncaught s' = uncaught s
  ∧ now s' = now s.
Proof.
  intros Hx Ht.
  set (obj' := defineReadOnly "readyState" (PNum (stage_value st)) obj).
  assert (handlers obj' = handlers obj) as HH by done.
  assert (∀ z, z = stage_value st → xhr_get obj' "readyState" = Some (PNum z))
    as Hget.
  { intros z ->. unfold xhr_get, obj'; simpl. by rewrite lookup_insert_eq. }
  unfold ready_state_step.
  set (s1 := update_xhr x (defineReadOnly "readyState" (PNum (stage_value st))) s).
  assert (xhrs s1 !! x = Some obj') as X1
    by (unfold s1; simpl; by rewrite lookup_alter_eq, Hx).
  assert (timers s1 = timers s ∧ nextTimer s1 = nextTimer s
          ∧ uncaught s1 = uncaught s ∧ now s1 = now s ∧ trace s1 = trace s)
    as (T1 & N1 & U1 & C1 & E1) by done.
  clearbody s1 obj'.
  destruct (view_call_handler "onreadystatechange" s1 obj' (stage_value st) X1)
    as (X2 & T2 & N2 & U2 & C2 & E2); [by apply Hget|].
  set (s2 := call_handler x "onreadystatechange" s1) in *.
  assert (xhrs s2 !! x = Some obj') as X2' by by rewrite X2.
  rewrite T1 in T2. rewrite N1 in N2. rewrite U1 in U2.
  rewrite E1, C1, HH in E2. rewrite C1 in C2.
  clearbody s2.
  assert (∀ st',
     let s' := setTimeout (ReadyStateStep x st') 5 s2 in
     xhrs s' !! x = Some obj'
     ∧ emulation_effects x (trace s')
       = emulation_effects x (trace s)
         ++ called (handlers obj) x "onreadystatechange" (now s) (stage_value st)
           ++ []
     ∧ x_timers x s'
       = [{| handle := nextTimer s; due := (now s + 5)%N;
             action := ReadyStateStep x st' |}]
     ∧ uncaught s' = uncaught s ∧ now s' = now s) as Hnext.
  { intros st'. simpl. rewrite X2', E2, U2, C2, app_nil_r.
    repeat split; try done. unfold x_timers in *; simpl.
    rewrite T2, N2, C2, filter_app, Ht, filter_cons, filter_nil. simpl.
    rewrite decide_True; [done|]. unfold steps; simpl. by apply N.eqb_eq. }
  unfold step_effects.
  destruct st; simpl next_stage; simpl Emulator.state_of; try apply Hnext.
  destruct (view_call_handler "onload" s2 obj' 4 X2')
    as (X3 & T3 & N3 & U3 & C3 & E3); [by apply Hget|].
  set (s3 := call_handler x "onload" s2) in *.
  assert (xhrs s3 !! x = Some obj') as X3' by by rewrite X3.
  rewrite T2 in T3. rewrite U2 in U3.
  rewrite E2, C2, HH in E3. rewrite C2 in C3.
  clearbody s3.
  destruct (view_call_handler "onloadend" s3 obj' 4 X3')
    as (X4 & T4 & N4 & U4 & C4 & E4); [by apply Hget|].
  set (s4 := call_handler x "onloadend" s3) in *.
  assert (xhrs s4 !! x = Some obj') as X4' by by rewrite X4.
  rewrite T3 in T4. rewrite U3 in U4.
  rewrite E3, C3, HH in E4. rewrite C3 in C4.
  clearbody s4.
  destruct (view_dispatch s4) as (X5 & T5 & N5 & U5 & C5 & E5).
  cbv zeta in X5, T5, U5, C5, E5.
  rewrite T4 in T5. rewrite U4 in U5.
  rewrite E4, C4 in E5. rewrite C4 in C5.
  cbv zeta. rewrite X5, X4', E5, U5, C5. unfold x_timers in *. rewrite T5, Ht.
  repeat split; try done. by rewrite <- !app_assoc.
Qed.

Lemma nextTimer_run_timer (s : State) (h : N) :
  wf s → (nextTimer s ≤ nextTimer (run_timer B s h))%N.
Proof.
  intros Hwf.
  assert (∀ x' n s0, nextTimer (call_handler x' n s0) = nextTimer s0) as Hcall.
  { intros x' n s0. unfold call_handler. by repeat case_match. }
  destruct (run_timer_cases B s h Hwf)
    as [->|[(t & i & e & aw & _ & _ & _ & _ & _ & _ & ->)
           |(t & x' & st & _ & _ & _ & ->)]]; [done| |].
  - rewrite resume_unmocked by done. simpl. lia.
  - unfold ready_state_step, dispatchEvent.
    destruct st; simpl; rewrite ?Hcall; simpl; try lia.
    destruct (dispatchEvent_throws B "load"); simpl;
      [rewrite !Hcall; simpl; lia|].
    destruct (dispatchEvent_throws B "loadend"); simpl;
      rewrite !Hcall; simpl; lia.
Qed.

Lemma nextTimer_fold_run_timer (hs : list N) (s : State) :
  wf s → (nextTimer s ≤ nextTimer (fold_left (run_timer B) hs s))%N.
Proof.
  revert s. induction hs as [|h hs IH]; intros s Hwf; [done|]. simpl.
  pose proof (nextTimer_run_timer s h Hwf).
  pose proof (IH _ (wf_run_timer B s h Hwf)). lia.
Qed.

(** A tick before the callback is due. *)
Lemma idle_tick (st : Stage) (D : N) (H : gset string) (s : State) :
  scheduled st D H s → (N.succ (now s) < D)%N →
  scheduled st D H (tick B s)
  ∧ emulation_effects x (trace (tick B s)) = emulation_effects x (trace s)
  ∧ uncaught (tick B s) = uncaught s
  ∧ now (tick B s) = N.succ (now s).
Proof.
  intros (Hwf & [h Hours] & Hh) Hlt. unfold tick.
  set (s0 := set_now N.succ s).
  assert (wf s0) as Hwf0 by (revert Hwf; by apply wf_frame).
  destruct (same_view_fold_run_timer B x
              (handle <$> filter (λ t, (due t ≤ now s0)%N) (timers s0)) s0 Hwf0)
    as (Ht & Hx & He & Hu & Hn).
  { intros h' (t & -> & [Hdue Hin]%list_elem_of_filter)%list_elem_of_fmap.
    change (x_timers x s0) with (x_timers x s). rewrite Hours. simpl.
    intros Heq%list_elem_of_singleton.
    assert ({| handle := h; due := D; action := ReadyStateStep x st |}
            ∈ timers s) as Hin'.
    { assert ({| handle := h; due := D; action := ReadyStateStep x st |}
              ∈ x_timers x s) as Hf by (rewrite Hours; by left).
      by apply list_elem_of_filter in Hf as [_ ?]. }
    pose proof (timer_unique s _ _ (wf_handles _ Hwf) Hin Hin' Heq) as ->.
    simpl in *. lia. }
  split; [|by rewrite He, Hu, Hn].
  split; [by apply wf_fold_run_timer|]. split; [|by rewrite Hx].
  exists h. by rewrite Ht.
Qed.

(** The tick at which the callback is due. *)
Lemma firing_tick (st : Stage) (D : N) (H : gset string) (s : State) :
  scheduled st D H s → N.succ (now s) = D →
  let s' := tick B s in
  wf s'
  ∧ handlers <$> (xhrs s' !! x) = Some H
  ∧ emulation_effects x (trace s')
    = emulation_effects x (trace s) ++ step_effects B H x st D
  ∧ uncaught s' = uncaught s
  ∧ now s' = D
  ∧ match next_stage st with
    | Some st' => scheduled st' (D + 5)%N H s'
    | None => x_timers x s' = []
    end.
Proof.
  intros (Hwf & [h Hours] & Hh) HD. unfold tick.
  set (s0 := set_now N.succ s).
  assert (wf s0) as Hwf0 by (revert Hwf; by apply wf_frame).
  set (ours := {| handle := h; due := D; action := ReadyStateStep x st |}) in *.
  assert (ours ∈ timers s0) as Hin.
  { assert (ours ∈ x_timers x s) as Hf by (rewrite Hours; by left).
    by apply list_elem_of_filter in Hf as [_ ?]. }
  set (hs := handle <$> filter (λ t, (due t ≤ now s0)%N) (timers s0)).
  assert (NoDup hs) as Hnd.
  { apply (sublist_NoDup _ _ (wf_handles _ Hwf0)), fmap_sublist, sublist_filter. }
  assert (∀ h', h' ∈ hs → (h' < nextTimer s0)%N) as Hbound.
  { intros h' (t & -> & [_ Ht]%list_elem_of_filter)%list_elem_of_fmap.
    by apply (wf_handle_bound _ Hwf0). }
  assert (h ∈ hs) as Hhs.
  { apply list_elem_of_fmap. exists ours. split; [done|].
    apply list_elem_of_filter. split; [simpl; lia|done]. }
  apply list_elem_of_split in Hhs as (l1 & l2 & Hsplit).
  rewrite Hsplit in Hnd, Hbound |- *.
  apply NoDup_app in Hnd as (_ & Hl1 & Hl2). apply NoDup_cons in Hl2 as [Hl2 _].
  rewrite fold_left_app. simpl.
  set (sa := fold_left (run_timer B) l1 s0).
  assert (wf sa) as Hwfa by by apply wf_fold_run_timer.
  destruct (same_view_fold_run_timer B x l1 s0 Hwf0)
    as (Hta & Hxa & Hea & Hua & Hna).
  { intros h' Hh'. change (x_timers x s0) with (x_timers x s).
    rewrite Hours. simpl. intros ->%list_elem_of_singleton.
    eapply Hl1; [done|by left]. }
  fold sa in Hta, Hxa, Hea, Hua, Hna.
  change (x_timers x s0) with (x_timers x s) in Hta. rewrite Hours in Hta.
  change (xhrs s0) with (xhrs s) in Hxa.
  change (trace s0) with (trace s) in Hea.
  change (uncaught s0) with (uncaught s) in Hua.
  change (now s0) with (N.succ (now s)) in Hna.
  assert (ours ∈ timers sa) as Hina.
  { assert (ours ∈ x_timers x sa) as Hf by (rewrite Hta; by left).
    by apply list_elem_of_filter in Hf as [_ ?]. }
  assert (run_timer B sa h
          = Emulator.state_of (ready_state_step B x st (clearTimeout h sa)))
    as Hrun.
  { unfold run_timer.
    pose proof (find_timer_elem sa ours (wf_handles _ Hwfa) Hina) as Hf.
    simpl in Hf. rewrite Hf. unfold fire. simpl.
    by destruct (ready_state_step_normal B x st (clearTimeout h sa)) as [? ->]. }
  rewrite <- Hxa in Hh.
  destruct (xhrs sa !! x) as [obj|] eqn:Hobj; [|done].
  injection Hh as HH.
  assert (x_timers x (clearTimeout h sa) = []) as Hclear.
  { unfold x_timers in *; simpl. by apply (filter_clear_own x _ ours). }
  destruct (own_step st (clearTimeout h sa) obj Hobj Hclear)
    as (Hxb & Heb & Htb & Hub & Hnb).
  rewrite <- Hrun in Hxb, Heb, Htb, Hub, Hnb.
  change (trace (clearTimeout h sa)) with (trace sa) in Heb.
  change (now (clearTimeout h sa)) with (now sa) in Heb, Htb, Hnb.
  change (uncaught (clearTimeout h sa)) with (uncaught sa) in Hub.
  change (nextTimer (clearTimeout h sa)) with (nextTimer sa) in Htb.
  rewrite Hea, Hna, HH, HD in Heb. rewrite Hna, HD in Htb, Hnb.
  rewrite Hua in Hub.
  set (sb := run_timer B sa h) in *.
  assert (wf sb) as Hwfb by by apply wf_run_timer.
  destruct (same_view_fold_run_timer B x l2 sb Hwfb)
    as (Htc & Hxc & Hec & Huc & Hnc).
  { intros h' Hh'. rewrite Htb. destruct (next_stage st); simpl;
      [|by apply not_elem_of_nil].
    intros ->%list_elem_of_singleton.
    pose proof (Hbound (nextTimer sa)) as Hb.
    pose proof (nextTimer_fold_run_timer l1 s0 Hwf0) as Hmono. fold sa in Hmono.
    assert (nextTimer sa < nextTimer s0)%N
      by (apply Hb; rewrite elem_of_app; right; by right).
    lia. }
  split; [by apply wf_fold_run_timer|].
  split; [rewrite Hxc, Hxb; simpl; by rewrite HH|].
  split; [by rewrite Hec, Heb|].
  split; [by rewrite Huc, Hub|].
  split; [by rewrite Hnc, Hnb|].
  destruct (next_stage st) as [st'|] eqn:Hnext; [|by rewrite Htc, Htb].
  split; [by apply wf_fold_run_timer|].
  split; [|rewrite Hxc, Hxb; simpl; by rewrite HH].
  exists (nextTimer sa). by rewrite Htc, Htb.
Qed.

End OwnTimer.

Section Rounds.
Import Platform Injected Query Invariant Pipeline Lifecycle.

Context (B : Browser) (x : N).

(** Five milliseconds: four ticks of waiting and the tick of the
    callback. *)
Lemma round (st : Stage) (D : N) (H : gset string) (s : State) :
  scheduled x st D H s → (now s + 5)%N = D →
  let s' := run B s (replicate 5 Tick) in
  wf s'
  ∧ handlers <$> (xhrs s' !! x) = Some H
  ∧ emulation_effects x (trace s')
    = emulation_effects x (trace s) ++ step_effects B H x st D
  ∧ uncaught s' = uncaught s
  ∧ now s' = D
  ∧ match next_stage st with
    | Some st' => scheduled x st' (D + 5)%N H s'
    | None => x_timers x s' = []
    end.
Proof.
  intros Hs HD.
  change (run B s (replicate 5 Tick))
    with (tick B (tick B (tick B (tick B (tick B s))))).
  destruct (idle_tick B x st D H s Hs) as (Hs1 & E1 & U1 & C1); [lia|].
  destruct (idle_tick B x st D H _ Hs1) as (Hs2 & E2 & U2 & C2); [lia|].
  destruct (idle_tick B x st D H _ Hs2) as (Hs3 & E3 & U3 & C3); [lia|].
  destruct (idle_tick B x st D H _ Hs3) as (Hs4 & E4 & U4 & C4); [lia|].
  destruct (firing_tick B x st D H _ Hs4) as (Hwf & HH & E5 & U5 & C5 & Hn);
    [lia|].
  split; [done|]. split; [done|].
  split; [by rewrite E5, E4, E3, E2, E1|].
  split; [by rewrite U5, U4, U3, U2, U1|]. by split.
Qed.

Lemma run_app (l k : list Event) (s : State) :
  run B s (l ++ k) = run B (run B s l) k.
Proof. unfold run. by rewrite fold_left_app. Qed.

(** The emulator started on an instance on which no emulation runs. *)
Lemma simulateMockedXHR_scheduled (slot : ResponseSlot) (s : State)
    (obj : Xhr) :
  wf s → xhrs s !! x = Some obj → x_timers x s = [] →
  let s' := simulateMockedXHR x slot s in
  scheduled x OPENED (now s + 5)%N (handlers obj) s'
  ∧ emulation_effects x (trace s') = emulation_effects x (trace s)
  ∧ uncaught s' = uncaught s
  ∧ now s' = now s.
Proof.
  intros Hwf Hx Ht. split; [|done].
  split; [by apply wf_simulateMockedXHR|]. split.
  - exists (nextTimer s). unfold x_timers in *. simpl.
    rewrite filter_app, Ht, filter_cons, filter_nil. simpl.
    rewrite decide_True; [done|]. unfold steps; simpl. by apply N.eqb_eq.
  - by rewrite (simulateMockedXHR_instance _ _ _ obj).
Qed.

End Rounds.



(** * Properties of the rule store *)

(** ** A handler that runs alone *)

Section WorkerExec.
Import Worker.

Lemma exec_bind {A B} (E : Env) (t : Task A) (f : A → Task B) (w : World) :
  exec E (t ≫= f) w
  = match exec E t w with
    | (Return a, w') => exec E (f a) w'
    | (Throw e, w') => (Throw e, w')
    end.
Proof.
  unfold mbind, Task_bind. revert w.
  induction t as [[a|e]|keys k IH|items k IH|k IH|k IH|message k IH];
    intros w; simpl; auto.
Qed.

Lemma exec_catch {A} (E : Env) (t : Task A) (h : Exn → Task A) (w : World) :
  exec E (catch t h) w
  = match exec E t w with
    | (Return a, w') => (Return a, w')
    | (Throw e, w') => exec E (h e) w'
    end.
Proof.
  revert w.
  induction t as [[a|e]|keys k IH|items k IH|k IH|k IH|message k IH];
    intros w; simpl; auto.
Qed.

Lemma exec_sync {A} (E : Env) (t : Task A) (w : World) :
  exec E (sync E t w).1 (sync E t w).2 = exec E t w.
Proof.
  revert w.
  induction t as [c|keys k IH|items k IH|k IH|k IH|message k IH];
    intros w; simpl; auto.
Qed.

Lemma exec_resume {A} (E : Env) (t : Task A) (w : World) :
  exec E (resume E t w).1 (resume E t w).2 = exec E t w.
Proof. destruct t; simpl; auto using exec_sync. Qed.

Lemma find_as_rule (f : ServiceWorker.Rule → bool) (rules : list StoredRule) :
  List.find f (as_rule <$> rules) = as_rule <$> List.find (λ r, f (as_rule r)) rules.
Proof.
  induction rules as [|r rules IH]; [done|]. simpl.
  change (List.map as_rule rules) with (as_rule <$> rules).
  destruct (f (as_rule r)); [done|]. apply IH.
Qed.

(** Run alone, [checkMock] answers as the function of the storage that
    [ServiceWorker.checkMock] is, and changes nothing. *)
Lemma checkMock_exec (E : Env) (q : ServiceWorker.RequestInfo) (w : World) :
  exec E (checkMock q) w
  = (Return (ServiceWorker.checkMock (as_storage (storage w)) q), w).
Proof.
  unfold checkMock, ServiceWorker.checkMock, as_storage; simpl.
  destruct (globalEnabled (storage w)) as [[|]|] eqn:Eg; simpl; try done;
    destruct (mockRules (storage w)) as [rules|]; simpl; try done;
    rewrite find_as_rule; by destruct (List.find _ rules).
Qed.

Lemma serve_check_mock (E : Env) (q : ServiceWorker.RequestInfo) (w : World) :
  serve E (CHECK_MOCK q) w
  = (Return (DecisionReply
               (ServiceWorker.checkMock (as_storage (storage w)) q)), w).
Proof.
  unfold serve, onMessage. rewrite exec_catch.
  change (handleMessage (CHECK_MOCK q))
    with (checkMock q ≫= λ a, Settled (Return (DecisionReply a))).
  by rewrite exec_bind, checkMock_exec.
Qed.

End WorkerExec.

(** ** What the handlers do to the storage *)

Section WorkerProperties.
Import Worker.

(** X1.  The listener of the worker answers every message.  A message that
    only reads, and a message whose handler throws, leave the storage as it
    is and call [notifyTabs] for nothing; a message that changes the rules
    or the switch and succeeds calls [notifyTabs] exactly once, with
    [RULES_UPDATED] or with [GLOBAL_STATE_CHANGED] and the new value. *)
Theorem worker_notifies_on_success (E : Env) (m : Message) (w : World) :
  ∃ reply w', serve E m w = (Return reply, w')
    ∧ match notice m, reply with
      | _, ErrorReply _ | None, _ =>
          storage w' = storage w ∧ notifications w' = notifications w
      | Some n, _ =>
          notifications w' = notifications w ++ [n]
      end.
Proof.
  destruct m as [|d|u|i|i| |b|q| |ty];
    try (rewrite serve_check_mock; by eexists _, _);
    unfold serve, onMessage; rewrite exec_catch; simpl.
  - by eexists _, _.
  - destruct (data_request d) as [rq|]; simpl;
      [destruct (data_response d) as [rs|]; simpl|]; by eexists _, _.
  - destruct (list_find _ _) as [[k r]|]; simpl; by eexists _, _.
  - destruct (bool_decide _); simpl; by eexists _, _.
  - destruct (list_find _ _) as [[k r]|]; simpl; by eexists _, _.
  - by eexists _, _.
  - by eexists _, _.
  - by eexists _, _.
  - by eexists _, _.
Qed.

Lemma find_snoc {A} (f : A → bool) (l : list A) (x : A) :
  List.find f (l ++ [x])
  = match List.find f l with
    | Some y => Some y
    | None => if f x then Some x else None
    end.
Proof.
  induction l as [|a l IH]; simpl; [done|]. by destruct (f a).
Qed.



Lemma filter_length_eq {A} (P : A → Prop) `{∀ x, Decision (P x)} (l : list A) :
  List.length (filter P l) = List.length l ↔ Forall P l.
Proof.
  induction l as [|a l IH]; simpl; [by split|].
  rewrite filter_cons. destruct (decide (P a)) as [Ha|Ha]; simpl.
  - rewrite Forall_cons. split.
    + intros [= Hl]. split; [done|]. by apply IH.
    + intros [_ Hl]. f_equal. by apply IH.
  - split.
    + intros Hl. pose proof (length_filter P l). lia.
    + intros [? _]%Forall_cons. done.
Qed.

(** X3.  [DELETE_RULE] for an id no rule has is answered by the error
    [Rule not found] and changes nothing.  For an id some rule has, every
    rule with that id is removed and the others keep their order; [GET_RULES]
    lists what is left, and no [CHECK_MOCK] is answered by a rule of that id
    any more. *)
Theorem deleted_rule_is_gone (E : Env) (w : World) (i : string) :
  let rules := default [] (mockRules (storage w)) in
  ((∀ r, r ∈ rules → id r ≠ i) →
   serve E (DELETE_RULE i) w
   = (Return (ErrorReply ("Rule not found: " +:+ i)), w))
  ∧ (∀ r, r ∈ rules → id r = i →
     ∃ w1,
       serve E (DELETE_RULE i) w = (Return SuccessReply, w1)
       ∧ mockRules (storage w1) = Some (filter (λ r, id r ≠ i) rules)
       ∧ globalEnabled (storage w1) = globalEnabled (storage w)
       ∧ (serve E GET_RULES w1).1
         = Return (RulesReply (filter (λ r, id r ≠ i) rules))
       ∧ ∀ q decision w2,
           serve E (CHECK_MOCK q) w1 = (Return (DecisionReply decision), w2) →
           ruleId decision ≠ Some i).
Proof.
  intros rules. split.
  - intros Hno. unfold serve, onMessage. rewrite exec_catch. simpl.
    fold rules. rewrite bool_decide_eq_true_2; [done|].
    apply filter_length_eq, Forall_forall. auto.
  - intros r Hin Hr. unfold serve at 1. unfold onMessage.
    rewrite exec_catch. simpl. fold rules.
    rewrite bool_decide_eq_false_2.
    2:{ rewrite filter_length_eq, Forall_forall. intros Hall.
        by destruct (Hall r Hin). }
    simpl. eexists. split; [reflexivity|]. simpl.
    repeat (split; [reflexivity|]).
    intros q decision w2. rewrite serve_check_mock. intros [= <- _].
    unfold ServiceWorker.checkMock, as_storage. simpl.
    destruct (globalEnabled (storage w)) as [[|]|]; try done;
      (destruct (List.find _ _) as [r0|] eqn:Ef; [|done]; simpl;
       apply find_some in Ef as [Hin0 _];
       apply list_elem_of_In, list_elem_of_fmap in Hin0 as (r1 & -> & Hin1);
       apply list_elem_of_filter in Hin1 as [Hne _]; simpl; congruence).
Qed.

Lemma deleted_rule_is_gone_witness :
  ∃ w1,
    serve WorkerExample.env (DELETE_RULE "rule_1") WorkerExample.world
    = (Return SuccessReply, w1)
    ∧ mockRules (storage w1) = Some [WorkerExample.orders].
Proof.
  destruct (deleted_rule_is_gone WorkerExample.env WorkerExample.world "rule_1")
    as [_ H].
  destruct (H WorkerExample.users ltac:(by left) eq_refl)
    as (w1 & H1 & H2 & _).
  exists w1. split; [exact H1|exact H2].
Defined.

Lemma set_enabled_back (b : bool) (r : StoredRule) :
  set_enabled (enabled r) (set_enabled b r) = r.
Proof. by destruct r. Qed.

(** Replacing the rule [find] returned by one with the same id leaves it
    the rule [find] returns. *)
Lemma list_find_insert_same_id (i : string) (rules : list StoredRule)
    (k : nat) (r r' : StoredRule) :
  list_find (λ r, id r = i) rules = Some (k, r) →
  id r' = i →
  list_find (λ r, id r = i) (<[k := r']> rules) = Some (k, r').
Proof.
  intros (Hk & Hr & Hlt)%list_find_Some Hr'.
  apply list_find_Some. split_and!; [|done|].
  - apply list_lookup_insert_eq. by eapply lookup_lt_Some.
  - intros j y Hj Hjk. rewrite list_lookup_insert_ne in Hj by lia. eauto.
Qed.

(** X4.  [TOGGLE_RULE] for an id no rule has is answered by the error
    [Rule not found].  Otherwise it negates the [enabled] flag of the first
    rule with that id, answers with the new flag, and leaves every other
    rule as it is; toggling the same id a second time gives back the storage
    of the start. *)
Theorem toggle_twice_restores (E : Env) (w : World) (i : string) :
  let rules := default [] (mockRules (storage w)) in
  (list_find (λ r, id r = i) rules = None →
   serve E (TOGGLE_RULE i) w
   = (Return (ErrorReply ("Rule not found: " +:+ i)), w))
  ∧ (∀ k r, list_find (λ r, id r = i) rules = Some (k, r) →
     ∃ w1 w2,
       serve E (TOGGLE_RULE i) w
       = (Return (ToggledReply (negb (enabled r))), w1)
       ∧ mockRules (storage w1)
         = Some (<[k := set_enabled (negb (enabled r)) r]> rules)
       ∧ serve E (TOGGLE_RULE i) w1
         = (Return (ToggledReply (enabled r)), w2)
       ∧ storage w2 = storage w).
Proof.
  intros rules. split.
  - intros Hf. unfold serve, onMessage. rewrite exec_catch. simpl.
    fold rules. by rewrite Hf.
  - intros k r Hf. unfold serve, onMessage. rewrite !exec_catch. simpl.
    fold rules. rewrite Hf. simpl.
    eexists _, _. split; [reflexivity|]. simpl. split; [reflexivity|].
    rewrite (list_find_insert_same_id i rules k r _ Hf)
      by (by apply list_find_Some in Hf as (_ & ? & _)).
    simpl. rewrite negb_involutive. split; [reflexivity|]. simpl.
    rewrite list_insert_insert_eq, set_enabled_back.
    apply list_find_Some in Hf as (Hk & _ & _).
    rewrite list_insert_id by done.
    unfold rules in *. destruct (storage w) as [[l|] g]; simpl in *; [done|].
    by rewrite lookup_nil in Hk.
Qed.

Lemma toggle_twice_restores_witness :
  ∃ w1 w2,
    serve WorkerExample.env (TOGGLE_RULE "rule_2") WorkerExample.world
    = (Return (ToggledReply true), w1)
    ∧ serve WorkerExample.env (TOGGLE_RULE "rule_2") w1
      = (Return (ToggledReply false), w2)
    ∧ storage w2 = storage WorkerExample.world.
Proof.
  destruct (toggle_twice_restores WorkerExample.env WorkerExample.world
              "rule_2") as [_ H].
  destruct (H 1%nat WorkerExample.orders eq_refl)
    as (w1 & w2 & H1 & _ & H2 & H3).
  exists w1, w2. split; [exact H1|]. split; [exact H2|exact H3].
Defined.



(** X6.  The listener of [onInstalled] stores an empty list and [true] for
    the keys that have no value, and keeps the values of the others.  No
    answer of the worker depends on it: [GET_RULES], [GET_GLOBAL_ENABLED] and
    every [CHECK_MOCK] are answered after it as before it.  Running it a
    second time changes nothing. *)
Theorem onInstalled_keeps_answers (E : Env) (w : World) :
  ∃ w1,
    exec E onInstalled w = (Return tt, w1)
    ∧ mockRules (storage w1) = Some (default [] (mockRules (storage w)))
    ∧ globalEnabled (storage w1)
      = Some (default true (globalEnabled (storage w)))
    ∧ notifications w1 = notifications w
    ∧ (serve E GET_RULES w1).1 = (serve E GET_RULES w).1
    ∧ (serve E GET_GLOBAL_ENABLED w1).1 = (serve E GET_GLOBAL_ENABLED w).1
    ∧ (∀ q, (serve E (CHECK_MOCK q) w1).1 = (serve E (CHECK_MOCK q) w).1)
    ∧ exec E onInstalled w1 = (Return tt, w1).
Proof.
  destruct w as [[rules enabled] ns ds rs].
  destruct rules as [rules|], enabled as [[|]|];
    (eexists; split; [reflexivity|]); simpl;
    repeat split; try reflexivity; intros q; by rewrite !serve_check_mock.
Qed.

(** X7.  Switching mocking off keeps the rules: while it is off every
    [CHECK_MOCK] is answered by [{shouldMock: false}], and once it is
    switched on again every [CHECK_MOCK] is answered as before the switch
    was turned off. *)
Theorem global_switch_round_trip (E : Env) (w : World)
    (q : ServiceWorker.RequestInfo) :
  ∃ w_off w_on,
    serve E (SET_GLOBAL_ENABLED false) w
    = (Return (EnabledSetReply false), w_off)
    ∧ serve E (SET_GLOBAL_ENABLED true) w_off
      = (Return (EnabledSetReply true), w_on)
    ∧ mockRules (storage w_off) = mockRules (storage w)
    ∧ mockRules (storage w_on) = mockRules (storage w)
    ∧ (serve E GET_GLOBAL_ENABLED w_off).1 = Return (EnabledReply false)
    ∧ (serve E (CHECK_MOCK q) w_off).1 = Return (DecisionReply noMock)
    ∧ (serve E GET_GLOBAL_ENABLED w_on).1 = Return (EnabledReply true)
    ∧ (globalEnabled (storage w) ≠ Some false →
       (serve E (CHECK_MOCK q) w_on).1 = (serve E (CHECK_MOCK q) w).1).
Proof.
  eexists _, _. split; [reflexivity|]. split; [reflexivity|].
  rewrite !serve_check_mock. simpl.
  repeat (split; [reflexivity|]).
  intros Hg. do 2 f_equal.
  unfold ServiceWorker.checkMock, as_storage; simpl.
  by destruct (globalEnabled (storage w)) as [[|]|].
Qed.

Lemma global_switch_round_trip_witness :
  ∃ w_off w_on,
    serve WorkerExample.env (SET_GLOBAL_ENABLED false) WorkerExample.world
    = (Return (EnabledSetReply false), w_off)
    ∧ serve WorkerExample.env (SET_GLOBAL_ENABLED true) w_off
      = (Return (EnabledSetReply true), w_on)
    ∧ (serve WorkerExample.env
         (CHECK_MOCK {| ServiceWorker.req_url := "https://api.x/users";
                        ServiceWorker.req_method := "get" |}) w_on).1
      = (serve WorkerExample.env
           (CHECK_MOCK {| ServiceWorker.req_url := "https://api.x/users";
                          ServiceWorker.req_method := "get" |})
           WorkerExample.world).1.
Proof.
  destruct (global_switch_round_trip WorkerExample.env WorkerExample.world
              {| ServiceWorker.req_url := "https://api.x/users";
                 ServiceWorker.req_method := "get" |})
    as (w_off & w_on & H1 & H2 & _ & _ & _ & _ & _ & H3).
  exists w_off, w_on. split; [exact H1|]. split; [exact H2|].
  apply H3. discriminate.
Defined.

(** X8.  Two [ADD_RULE] handled one after the other store both rules.
    When the two handlers run at the same time, so that both have read the
    list before either writes it, both answer with success and notify the
    tabs, but the list written last replaces the other: only the rule of the
    second handler is stored. *)
Theorem concurrent_adds_lose_a_rule (E : Env) (w : World) (d1 d2 : RuleData)
    (rq1 rq2 : RequestData) (rs1 rs2 : ResponsePayload) :
  data_request d1 = Some rq1 → data_response d1 = Some rs1 →
  data_request d2 = Some rq2 → data_response d2 = Some rs2 →
  let rules := default [] (mockRules (storage w)) in
  (∃ r1 r2 w1 w2,
     serve E (ADD_RULE d1) w = (Return (SavedReply r1), w1)
     ∧ serve E (ADD_RULE d2) w1 = (Return (SavedReply r2), w2)
     ∧ mockRules (storage w2) = Some (rules ++ [r1; r2]))
  ∧ (∃ r1 r2 w',
       interleave E [true; false; true; false]
         (onMessage (ADD_RULE d1)) (onMessage (ADD_RULE d2)) w
       = (Settled (Return (SavedReply r1)), Settled (Return (SavedReply r2)), w')
       ∧ url (request r1) = data_url rq1
       ∧ url (request r2) = data_url rq2
       ∧ mockRules (storage w') = Some (rules ++ [r2])
       ∧ notifications w'
         = notifications w ++ [RULES_UPDATED; RULES_UPDATED]).
Proof.
  intros H1 H1' H2 H2' rules. split.
  - unfold serve, onMessage. rewrite !exec_catch. simpl.
    rewrite H1, H1'. simpl. rewrite H2, H2'. simpl.
    eexists _, _, _, _. split; [reflexivity|]. split; [reflexivity|].
    simpl. fold rules. by rewrite <- app_assoc.
  - unfold onMessage. simpl. rewrite H1, H1'. simpl. rewrite H2, H2'. simpl.
    eexists _, _, _. split; [reflexivity|]. simpl.
    by rewrite <- app_assoc.
Qed.

Lemma concurrent_adds_lose_a_rule_witness :
  ∃ r1 r2 w',
    interleave WorkerExample.env [true; false; true; false]
      (onMessage (ADD_RULE WorkerExample.post_users))
      (onMessage (ADD_RULE WorkerExample.get_items)) WorkerExample.world
    = (Settled (Return (SavedReply r1)), Settled (Return (SavedReply r2)), w')
    ∧ url (request r1) = "https://api.x/users"
    ∧ url (request r2) = "https://api.x/items"
    ∧ mockRules (storage w')
      = Some [WorkerExample.users; WorkerExample.orders; r2].
Proof.
  destruct (concurrent_adds_lose_a_rule WorkerExample.env WorkerExample.world
              WorkerExample.post_users WorkerExample.get_items
              _ _ _ _ eq_refl eq_refl eq_refl eq_refl)
    as (_ & r1 & r2 & w' & H1 & H2 & H3 & H4 & _).
  exists r1, r2, w'. split; [exact H1|]. split; [exact H2|].
  split; [exact H3|exact H4].
Defined.

Lemma filter_all {A} (P : A → Prop) `{∀ x, Decision (P x)} (l : list A) :
  Forall P l → filter P l = l.
Proof.
  induction l as [|a l IH]; [done|]. intros [Ha Hl]%Forall_cons.
  rewrite filter_cons, decide_True by done. f_equal. by apply IH.
Qed.

(** X17.  [DELETE_RULE] with the id [ADD_RULE] answered removes the rule
    that was added, and with it every older rule that happens to have the
    same id; when no older rule has it, the list is again what it was
    before the rule was added. *)
Theorem add_then_delete_restores (E : Env) (w : World) (d : RuleData)
    (rq : RequestData) (rs : ResponsePayload) :
  data_request d = Some rq →
  data_response d = Some rs →
  let rules := default [] (mockRules (storage w)) in
  ∃ rule w1 w2,
    serve E (ADD_RULE d) w = (Return (SavedReply rule), w1)
    ∧ serve E (DELETE_RULE (id rule)) w1 = (Return SuccessReply, w2)
    ∧ mockRules (storage w2) = Some (filter (λ r, id r ≠ id rule) rules)
    ∧ globalEnabled (storage w2) = globalEnabled (storage w)
    ∧ ((∀ r, r ∈ rules → id r ≠ id rule) →
       mockRules (storage w2) = Some rules).
Proof.
  intros Hrq Hrs rules.
  unfold serve, onMessage. rewrite exec_catch. simpl.
  rewrite Hrq, Hrs. simpl. fold rules.
  match goal with |- context [rules ++ [?r]] => set (rule := r) end.
  clearbody rule.
  assert (filter (λ r, id r ≠ id rule) (rules ++ [rule])
          = filter (λ r, id r ≠ id rule) rules) as Hf.
  { rewrite filter_app, filter_cons, decide_False by (by intros ?).
    by rewrite filter_nil, app_nil_r. }
  eexists rule, _, _. split; [reflexivity|]. simpl. fold rules.
  rewrite exec_catch, Hf, bool_decide_eq_false_2.
  2:{ rewrite length_app. simpl.
      pose proof (length_filter (λ r, id r ≠ id rule) rules). lia. }
  simpl. split; [reflexivity|]. simpl. split; [done|]. split; [done|].
  intros Hno. f_equal. apply filter_all, Forall_forall. auto.
Qed.

Lemma add_then_delete_restores_witness :
  ∃ rule w1 w2,
    serve WorkerExample.env (ADD_RULE WorkerExample.post_users)
      WorkerExample.world
    = (Return (SavedReply rule), w1)
    ∧ serve WorkerExample.env (DELETE_RULE (id rule)) w1
      = (Return SuccessReply, w2)
    ∧ mockRules (storage w2) = mockRules (storage WorkerExample.world).
Proof.
  destruct (add_then_delete_restores WorkerExample.env WorkerExample.world
              WorkerExample.post_users WorkerExample.post_users_request
              C1Example.created eq_refl eq_refl)
    as (rule & w1 & w2 & H1 & H2 & _ & _ & H3).
  exists rule, w1, w2. split; [exact H1|]. split; [exact H2|].
  apply H3.
  assert (id rule = "rule_1700000000000_4fzyo82mv") as ->.
  { unfold serve in H1. vm_compute in H1. by injection H1 as <- _. }
  intros r Hr. apply list_elem_of_In in Hr.
  destruct Hr as [<-|[<-|[]]]; discriminate.
Defined.



End WorkerProperties.

(** * Properties of the whole pipeline *)

(** ** A query from the page to the worker and back *)

Section RoundTripProperties.
Import Platform Injected Query Invariant Pipeline Waiting Emulator.

(** The decision of the rule authority mocks exactly when the switch is
    not off and some rule is selected; the response it carries is then that
    of a selected rule. *)
Lemma checkMock_mocks (st : ServiceWorker.Storage) (u m : string) :
  let d := ServiceWorker.checkMock st
             {| ServiceWorker.req_url := u; ServiceWorker.req_method := m |} in
  (mocks d = true ↔
     ServiceWorker.globalEnabled st ≠ Some false
     ∧ ∃ r, r ∈ default [] (ServiceWorker.mockRules st)
            ∧ ServiceWorker.selects u m r)
  ∧ (mocks d = true →
     ∃ r, r ∈ default [] (ServiceWorker.mockRules st)
          ∧ ServiceWorker.selects u m r
          ∧ response d = SlotObj (ServiceWorker.rule_response r)).
Proof.
  intros d. subst d. unfold ServiceWorker.checkMock, mocks.
  set (rules := default [] (ServiceWorker.mockRules st)).
  destruct (List.find _ rules) as [r|] eqn:Ef.
  - apply find_some in Ef as [Hin Hr].
    apply list_elem_of_In in Hin. apply rule_matches_selects in Hr.
    destruct (ServiceWorker.globalEnabled st) as [[|]|]; simpl;
      (split; [split; [intros; split; [done|by exists r]|try done; by intros [? _]]
              |intros; try done; by exists r]).
  - assert (∀ r, r ∈ rules → ¬ ServiceWorker.selects u m r) as Hno.
    { intros r Hin. apply rule_matches_not_selects.
      apply list_elem_of_In in Hin. by apply (List.find_none _ _ Ef). }
    destruct (ServiceWorker.globalEnabled st) as [[|]|]; simpl;
      (split; [split; [done|]|done]);
      intros [_ (r & Hin & Hsel)]; by destruct (Hno r Hin).
Qed.



End RoundTripProperties.

(** * Further properties of the shims *)

(** ** The header lookup of a mocked instance *)

Section HeaderLookup.
Import Platform Injected.



End HeaderLookup.

(** ** The response of a mocked [fetch] *)

Section FetchResponse.
Import Platform Injected.

Lemma Headers_new_accepts (init : list (string * string)) :
  Forall (λ h, is_header_name h.1 && is_header_value (normalize_value h.2)
               = true) init →
  Headers_new init = Return (prod_map Datatypes.id normalize_value <$> init).
Proof.
  induction init as [|[k v] init IH]; [done|].
  intros [Hh Hall]%Forall_cons. simpl in *. rewrite Hh, IH by done. done.
Qed.

Lemma Headers_new_rejects (init : list (string * string)) :
  ¬ Forall (λ h, is_header_name h.1 && is_header_value (normalize_value h.2)
                 = true) init →
  Headers_new init = Throw (TypeError "Invalid header").
Proof.
  induction init as [|[k v] init IH]; [by intros []|].
  intros Hno. simpl.
  destruct (is_header_name k && is_header_value (normalize_value v)) eqn:Hh;
    [|done].
  rewrite IH; [done|]. intros Hall. apply Hno. by constructor.
Qed.

(** X11.  The mock branch of [fetch] returns a response exactly for the
    payloads the two constructors accept: every header a valid name and
    value, the status (200 when missing or 0, taken modulo 65536) between
    200 and 599 and not one of 204, 205 and 304, the status text a reason
    phrase.  The response then has that status, the status text or ["OK"],
    the body or the empty string, a content type, and every header of the
    payload that a response may carry.  For every other payload the branch
    throws. *)
Theorem mock_fetch_response_returns_iff (r : ResponsePayload) :
  let st := num_or (status r) 200 mod 65536 in
  let accepted :=
    Forall (λ h, is_header_name h.1 && is_header_value (normalize_value h.2)
                 = true) (default [] (headers r))
    ∧ 200 ≤ st ≤ 599
    ∧ is_null_body_status st = false
    ∧ is_reason_phrase (str_or (statusText r) "OK") = true in
  (accepted →
   ∃ hs, mock_fetch_response (SlotObj r)
         = Return {| resp_status := st;
                     resp_statusText := str_or (statusText r) "OK";
                     resp_headers := hs;
                     resp_body := str_or (body r) "" |}
         ∧ contains_header "Content-Type" hs = true
         ∧ ∀ name value,
             (name, value) ∈ default [] (headers r) →
             is_forbidden_response_header name = false →
             (name, normalize_value value) ∈ hs)
  ∧ (¬ accepted → ∃ e, mock_fetch_response (SlotObj r) = Throw e).
Proof.
  intros st accepted. split.
  - intros (Hh & Hst & Hnull & Hphrase).
    unfold mock_fetch_response; simpl.
    rewrite (Headers_new_accepts _ Hh). unfold Response_new; simpl.
    fold st. rewrite Hnull, Hphrase; simpl.
    destruct (200 <=? st) eqn:E1; [|lia].
    destruct (st <=? 599) eqn:E2; [|lia]. simpl.
    eexists. split; [reflexivity|].
    set (hs := filter _ _).
    assert (∀ name value,
              (name, value) ∈ default [] (headers r) →
              is_forbidden_response_header name = false →
              (name, normalize_value value) ∈ hs) as Hin.
    { intros name value Hin Hf. apply list_elem_of_filter. split; [done|].
      apply list_elem_of_fmap. by exists (name, value). }
    destruct (contains_header "Content-Type" hs) eqn:Ec.
    + split; [done|]. exact Hin.
    + split.
      * unfold contains_header. rewrite existsb_app. simpl.
        by rewrite orb_true_r.
      * intros name value H1 H2. apply elem_of_app. left. by apply Hin.
  - intros Hno. unfold mock_fetch_response; simpl.
    destruct (decide (Forall (λ h, is_header_name h.1
                                   && is_header_value (normalize_value h.2)
                                   = true) (default [] (headers r))))
      as [Hh|Hh]; [|rewrite (Headers_new_rejects _ Hh); eauto].
    rewrite (Headers_new_accepts _ Hh). unfold Response_new; simpl.
    fold st.
    destruct (negb ((200 <=? st) && (st <=? 599))) eqn:E1; [eauto|].
    destruct (negb (is_reason_phrase _)) eqn:E2; [eauto|].
    destruct (is_null_body_status st) eqn:E3; [eauto|].
    destruct Hno. split; [done|].
    apply negb_false_iff, andb_true_iff in E1 as [E1 E1'].
    apply negb_false_iff in E2. split; [lia|done].
Qed.

Lemma mock_fetch_response_returns_iff_witness :
  ∃ hs, mock_fetch_response (SlotObj Scenario.created)
        = Return {| resp_status := 201; resp_statusText := "Created";
                    resp_headers := hs; resp_body := "{}" |}.
Proof.
  destruct (mock_fetch_response_returns_iff Scenario.created) as [H _].
  destruct H as (hs & H & _).
  - split; [|split; [|split]]; [|vm_compute; split; discriminate|reflexivity..].
    repeat constructor.
  - exists hs. exact H.
Defined.

End FetchResponse.

(** ** The identifiers of the queries *)

Section QueryIdentifiers.
Import Platform Injected Query Invariant History.

Lemma queries_snoc (tr : list (N * Effect)) (t : N) (e : Effect) :
  queries (tr ++ [(t, e)])
  = queries tr ++ match e with
                  | PostMessage requestId _ _ => [requestId]
                  | _ => []
                  end.
Proof. unfold queries. rewrite omap_app. simpl. by destruct e. Qed.

Lemma same_queries_refl (s : State) : same_queries s s.
Proof. done. Qed.

Lemma same_queries_trans (s1 s2 s3 : State) :
  same_queries s1 s2 → same_queries s2 s3 → same_queries s1 s3.
Proof. intros [? ?] [? ?]. split; congruence. Qed.

Lemma same_queries_frame (s s' : State) :
  trace s' = trace s → requestCounter s' = requestCounter s →
  same_queries s s'.
Proof. intros Ht Hc. split; [by rewrite Ht|done]. Qed.

Lemma same_queries_emit (e : Effect) (s : State) :
  (∀ requestId url method, e ≠ PostMessage requestId url method) →
  same_queries s (emit e s).
Proof.
  intros He. split; [|done]. unfold emit; simpl. rewrite queries_snoc.
  destruct e; try by rewrite app_nil_r. exfalso. by eapply He.
Qed.

Lemma same_queries_call_handler (x : N) (h : string) (s : State) :
  same_queries s (call_handler x h s).
Proof.
  unfold call_handler. destruct (xhrs s !! x); [|done].
  case_bool_decide; [|done]. by apply same_queries_emit.
Qed.

Lemma same_queries_ready_state_step (B : Browser) (x : N) (st : Stage)
    (s : State) :
  same_queries s (Emulator.state_of (ready_state_step B x st s)).
Proof.
  set (s1 := call_handler x "onreadystatechange"
               (update_xhr x (defineReadOnly "readyState"
                                (PNum (stage_value st))) s)).
  assert (same_queries s s1) as H1.
  { eapply same_queries_trans; [|apply same_queries_call_handler]. done. }
  unfold ready_state_step. fold s1.
  destruct st; simpl; try (eapply same_queries_trans; [exact H1|done]).
  set (s2 := call_handler x "onloadend" (call_handler x "onload" s1)).
  assert (same_queries s s2) as H2.
  { eapply same_queries_trans; [exact H1|].
    eapply same_queries_trans; apply same_queries_call_handler. }
  unfold dispatchEvent.
  destruct (dispatchEvent_throws B "load"); simpl; [done|].
  destruct (dispatchEvent_throws B "loadend"); simpl.
  - eapply same_queries_trans; [exact H2|]. by apply same_queries_emit.
  - eapply same_queries_trans; [exact H2|].
    eapply same_queries_trans; by apply same_queries_emit.
Qed.

Lemma same_queries_resume (aw : Awaiter) (p : N) (d : MatchDecision)
    (s : State) :
  same_queries s (resume aw p d s).
Proof.
  unfold resume. destruct aw; case_match; try by apply same_queries_emit.
  done.
Qed.

Lemma same_queries_run_timer (B : Browser) (s : State) (h : N) :
  wf s → same_queries s (run_timer B s h).
Proof.
  intros Hwf.
  destruct (run_timer_cases B s h Hwf)
    as [->|[(t & i & e & aw & _ & _ & _ & _ & He & Haw & ->)
           |(t & x & st & _ & _ & _ & ->)]]; [done| |].
  - eapply same_queries_trans; [|apply same_queries_resume]. done.
  - eapply same_queries_trans; [|apply same_queries_ready_state_step]. done.
Qed.

Lemma same_queries_fold_run_timer (B : Browser) (hs : list N) (s : State) :
  wf s → same_queries s (fold_left (run_timer B) hs s).
Proof.
  revert s. induction hs as [|h hs IH]; intros s Hwf; [done|]. simpl.
  eapply same_queries_trans; [by apply same_queries_run_timer|].
  by apply IH, wf_run_timer.
Qed.

Lemma queries_numbered_same (s s' : State) :
  same_queries s s' → queries_numbered s → queries_numbered s'.
Proof. intros [Hq Hc]. unfold queries_numbered. by rewrite Hq, Hc. Qed.

Lemma queries_numbered_issued (u m : string) (aw : Awaiter) (s : State) :
  queries_numbered s → queries_numbered (issued u m aw s).
Proof.
  intros (times & Hlen & Hq). exists (times ++ [now s]). simpl.
  rewrite queries_snoc, Hq, length_app, imap_app. simpl.
  split; [lia|]. do 3 f_equal. lia.
Qed.

Lemma queries_numbered_step (B : Browser) (s : State) (ev : Event) :
  wf s → queries_numbered s → queries_numbered (step B s ev).
Proof.
  intros Hwf Hq. destruct ev; simpl.
  - rewrite fetch_issued. by apply queries_numbered_issued.
  - revert Hq. by apply queries_numbered_same.
  - revert Hq. apply queries_numbered_same.
    eapply same_queries_trans; [|by apply same_queries_emit]. done.
  - unfold xhr_send. destruct (xhrs s !! x); [|done]. simpl.
    rewrite checkMock_issued. by apply queries_numbered_issued.
  - revert Hq. by apply queries_numbered_same.
  - revert Hq. apply queries_numbered_same.
    unfold xhr_assign. repeat case_match; simplify_eq; done.
  - revert Hq. apply queries_numbered_same.
    destruct (on_message_cases event s) as [->|(m' & e & _ & He & ->)]; [done|].
    destruct (wf_pending _ Hwf _ _ He) as (_ & _ & _ & [aw Haw] & _).
    rewrite (resolve_promise_retire _ _ aw) by done.
    eapply same_queries_trans; [|apply same_queries_resume]. done.
  - revert Hq. apply queries_numbered_same. unfold tick.
    eapply same_queries_trans; [|apply same_queries_fold_run_timer].
    + done.
    + revert Hwf. by apply wf_frame.
Qed.

Lemma queries_numbered_run (B : Browser) (events : list Event) (s : State) :
  wf s → queries_numbered s → queries_numbered (run B s events).
Proof.
  revert s. induction events as [|ev evs IH]; intros s Hwf Hq; [done|].
  simpl. apply IH; [by apply wf_step|by apply queries_numbered_step].
Qed.

(** X12.  In every run of the page context the identifiers of the queries
    posted are pairwise distinct: the [k]-th query posted carries the call
    number [k], and as many queries were posted as calls were counted. *)
Theorem query_identifiers_are_unique (B : Browser) (events : list Event) :
  let s := run B initial events in
  NoDup (queries (trace s))
  ∧ ∃ times : list N,
      List.length times = N.to_nat (requestCounter s)
      ∧ queries (trace s)
        = imap (λ k t, request_id t (N.of_nat (S k))) times.
Proof.
  intros s.
  assert (queries_numbered s) as (times & Hlen & Hq).
  { apply queries_numbered_run; [apply wf_initial|]. by exists []. }
  split; [|by exists times].
  rewrite Hq. apply NoDup_alt. intros i j id.
  rewrite !list_lookup_imap.
  destruct (times !! i) as [t|]; [|done].
  destruct (times !! j) as [t'|]; [|done]. simpl.
  intros [= <-] H. apply (inj Some), request_id_inj in H as [_ H]. lia.
Qed.

End QueryIdentifiers.

(** ** The instances the emulator runs on *)

Section EmulatorMarks.
Import Platform Injected Query Invariant History Pipeline.

Lemma keeps_refl (s : State) : keeps s s.
Proof. done. Qed.

Lemma keeps_trans (s1 s2 s3 : State) : keeps s1 s2 → keeps s2 s3 → keeps s1 s3.
Proof. intros [H1 H2] [H3 H4]. split; eauto. Qed.

Lemma keeps_same (s s' : State) :
  resolve_calls s' = resolve_calls s → promises s' = promises s → keeps s s'.
Proof. intros Hr Hp. unfold keeps. by rewrite Hr, Hp. Qed.

Lemma mocked_send_keeps (x : N) (s s' : State) :
  keeps s s' → mocked_send x s → mocked_send x s'.
Proof.
  intros [Hr Hp] (p & d & body & Hin & Hpr & Hd).
  exists p, d, body. eauto.
Qed.

Lemma keeps_issued (u m : string) (aw : Awaiter) (s : State) :
  wf s → keeps s (issued u m aw s).
Proof.
  intros Hwf. split; [done|]. intros p aw' Hp. simpl.
  rewrite lookup_insert_ne; [done|]. intros <-.
  pose proof (wf_promises _ Hwf _ _ Hp). lia.
Qed.

Lemma keeps_retire (i : string) (e : PendingRequest) (aw : Awaiter)
    (d : MatchDecision) (s : State) :
  promises s !! resolve e = Some {| awaiter := aw; settled := false |} →
  keeps s (retire i e aw d s).
Proof.
  intros Hp. split; simpl.
  - intros p d' Hin. apply elem_of_app. by left.
  - intros p aw' Hp'. rewrite lookup_insert_ne; [done|]. intros <-.
    rewrite Hp in Hp'. done.
Qed.

Lemma call_handler_history (x : N) (h : string) (s : State) :
  resolve_calls (call_handler x h s) = resolve_calls s
  ∧ promises (call_handler x h s) = promises s
  ∧ timers (call_handler x h s) = timers s.
Proof.
  unfold call_handler. destruct (xhrs s !! x); [|done]. by case_bool_decide.
Qed.

Lemma dispatchEvent_history (B : Browser) (x : N) (type : string) (s : State) :
  resolve_calls (Emulator.state_of (dispatchEvent B x type s)) = resolve_calls s
  ∧ promises (Emulator.state_of (dispatchEvent B x type s)) = promises s
  ∧ timers (Emulator.state_of (dispatchEvent B x type s)) = timers s.
Proof. unfold dispatchEvent. by destruct (dispatchEvent_throws B type). Qed.

(** A callback of the emulator leaves the history as it is, and sets at
    most a timer of the same instance. *)
Lemma ready_state_step_history (B : Browser) (x : N) (st : Stage) (s : State) :
  let s' := Emulator.state_of (ready_state_step B x st s) in
  resolve_calls s' = resolve_calls s
  ∧ promises s' = promises s
  ∧ ∀ t, t ∈ timers s' → t ∈ timers s ∨ ∃ st', action t = ReadyStateStep x st'.
Proof.
  set (s1 := call_handler x "onreadystatechange"
               (update_xhr x (defineReadOnly "readyState"
                                (PNum (stage_value st))) s)).
  assert (resolve_calls s1 = resolve_calls s ∧ promises s1 = promises s
          ∧ timers s1 = timers s) as (Hr1 & Hp1 & Ht1).
  { unfold s1. by destruct (call_handler_history x "onreadystatechange"
      (update_xhr x (defineReadOnly "readyState" (PNum (stage_value st))) s))
      as (-> & -> & ->). }
  unfold ready_state_step. fold s1.
  destruct st; simpl;
    try (rewrite Hr1, Hp1, Ht1; split; [done|split; [done|]];
         intros t [?| ->%list_elem_of_singleton]%elem_of_app; [by left|];
         right; by eexists).
  set (s2 := call_handler x "onloadend" (call_handler x "onload" s1)).
  assert (resolve_calls s2 = resolve_calls s ∧ promises s2 = promises s
          ∧ timers s2 = timers s) as (Hr2 & Hp2 & Ht2).
  { unfold s2.
    destruct (call_handler_history x "onloadend" (call_handler x "onload" s1))
      as (-> & -> & ->).
    by destruct (call_handler_history x "onload" s1) as (-> & -> & ->). }
  unfold dispatchEvent.
  destruct (dispatchEvent_throws B "load"); simpl;
    [rewrite Hr2, Hp2, Ht2; auto|].
  destruct (dispatchEvent_throws B "loadend"); simpl;
    rewrite Hr2, Hp2, Ht2; auto.
Qed.

Lemma emulator_marks_set_info (i : XhrInfo) (obj : Xhr) :
  emulator_marks (set_info i obj) ↔ emulator_marks obj.
Proof. done. Qed.

Lemma emulator_marks_set_handlers (h : gset string) (obj : Xhr) :
  emulator_marks (set_handlers h obj) ↔ emulator_marks obj.
Proof. done. Qed.

Lemma emulator_marks_fresh : ¬ emulator_marks fresh_instance.
Proof. intros [?|(prop & v & H)]; [done|]. simpl in H. by rewrite lookup_empty in H. Qed.

(** An assignment by page code makes no accessor. *)
Lemma emulator_marks_ordinary_set (obj obj' : Xhr) (prop : string) (v : Prim) :
  ordinary_set obj prop v = Some obj' → emulator_marks obj' → emulator_marks obj.
Proof.
  unfold ordinary_set. intros Hset Hm.
  assert (∀ o, emulator_marks (set_own (<[prop := Data v]> (own obj)) o) →
               emulation o = emulation obj → own o = own obj →
               emulator_marks obj) as Hdata.
  { intros o [He|(prop' & v' & Hp)] Hem Hown; [left; by rewrite <- Hem|].
    right. simpl in Hp. apply lookup_insert_Some in Hp as [[_ ?]|[_ Hp]]; [done|].
    by exists prop', v'. }
  repeat case_match; simplify_eq; try (by eapply Hdata); done.
Qed.

(** The frame of the property: marks and emulator timers of [s'] are
    those of [s], or belong to an instance with a mocked [send]. *)
Lemma marks_justified_step (s s' : State) :
  keeps s s' →
  (∀ y obj', xhrs s' !! y = Some obj' → emulator_marks obj' →
             mocked_send y s
             ∨ ∃ obj, xhrs s !! y = Some obj ∧ emulator_marks obj) →
  (∀ t y st, t ∈ timers s' → action t = ReadyStateStep y st →
             mocked_send y s ∨ t ∈ timers s) →
  marks_justified s → marks_justified s'.
Proof.
  intros Hk Hx Ht [Kx Kt]. split.
  - intros y obj' Hy Hm. apply (mocked_send_keeps y s s' Hk).
    destruct (Hx y obj' Hy Hm) as [?|(obj & Ho & Hmo)]; eauto.
  - intros t y st Hin Ha. apply (mocked_send_keeps y s s' Hk).
    destruct (Ht t y st Hin Ha) as [?|?]; eauto.
Qed.

Lemma marks_justified_frame (s s' : State) :
  keeps s s' → xhrs s' = xhrs s →
  (∀ t y st, t ∈ timers s' → action t = ReadyStateStep y st → t ∈ timers s) →
  marks_justified s → marks_justified s'.
Proof.
  intros Hk Hx Ht. apply marks_justified_step; [done| |by eauto].
  intros y obj' Hy Hm. right. exists obj'. by rewrite <- Hx.
Qed.

Lemma marks_justified_issued (u m : string) (aw : Awaiter) (s : State) :
  wf s → marks_justified s → marks_justified (issued u m aw s).
Proof.
  intros Hwf. apply marks_justified_frame; [by apply keeps_issued|done|].
  simpl. intros t y st [?| ->%list_elem_of_singleton]%elem_of_app Ha; done.
Qed.

Lemma marks_justified_update (x : N) (f : Xhr → Xhr) (s : State) :
  (∀ obj, emulator_marks (f obj) → emulator_marks obj) →
  marks_justified s → marks_justified (update_xhr x f s).
Proof.
  intros Hf. apply marks_justified_step; [done| |by auto].
  intros y obj' Hy Hm. right. unfold update_xhr in Hy; simpl in Hy.
  destruct (decide (y = x)) as [->|Hne].
  - rewrite lookup_alter_eq in Hy.
    destruct (xhrs s !! x) as [obj|]; [|done]. injection Hy as <-. eauto.
  - rewrite lookup_alter_ne in Hy by done. eauto.
Qed.

Lemma marks_justified_emit (e : Effect) (s : State) :
  marks_justified s → marks_justified (emit e s).
Proof. by apply marks_justified_frame. Qed.

Lemma marks_justified_retire (i : string) (e : PendingRequest) (aw : Awaiter)
    (d : MatchDecision) (s : State) :
  promises s !! resolve e = Some {| awaiter := aw; settled := false |} →
  marks_justified s → marks_justified (retire i e aw d s).
Proof.
  intros Hp. apply marks_justified_frame; [by apply keeps_retire|done|].
  simpl. by intros t y st [_ ?]%list_elem_of_filter.
Qed.

(** The instance the emulator starts on has a mocked [send]: the call that
    is resumed. *)
Lemma marks_justified_resume (i : string) (e : PendingRequest) (aw : Awaiter)
    (d : MatchDecision) (s : State) :
  promises s !! resolve e = Some {| awaiter := aw; settled := false |} →
  marks_justified s →
  marks_justified (resume aw (resolve e) d (retire i e aw d s)).
Proof.
  intros Hp Hk.
  pose proof (marks_justified_retire i e aw d s Hp Hk) as Hk'.
  unfold resume. destruct aw as [this arguments url method|x body].
  - case_match; by apply marks_justified_emit.
  - destruct (shouldMock d && slot_truthy (response d)) eqn:Hd;
      [|by apply marks_justified_emit].
    assert (mocked_send x (retire i e (SendCall x body) d s)) as Hsent.
    { exists (resolve e), d, body. simpl. split; [|split; [|done]].
      - apply elem_of_app. right. by apply list_elem_of_singleton.
      - by rewrite lookup_insert_eq. }
    revert Hk'. apply marks_justified_step; [done| |].
    + intros y obj' Hy Hm. destruct (decide (y = x)) as [->|Hne]; [by left|].
      right. exists obj'. split; [|done].
      unfold simulateMockedXHR, update_xhr in Hy; simpl in Hy.
      by rewrite !lookup_alter_ne in Hy by done.
    + intros t y st. unfold simulateMockedXHR; simpl.
      intros [?| ->%list_elem_of_singleton]%elem_of_app Ha; [by right|].
      simpl in Ha. injection Ha as <- <-. by left.
Qed.

Lemma marks_justified_on_message (event : MessageEvent) (s : State) :
  wf s → marks_justified s → marks_justified (on_message event s).
Proof.
  intros Hwf Hk.
  destruct (on_message_cases event s) as [->|(m & e & _ & He & ->)]; [done|].
  destruct (wf_pending _ Hwf _ _ He) as (_ & _ & _ & [aw Haw] & _).
  rewrite (resolve_promise_retire _ _ aw) by done.
  by apply marks_justified_resume.
Qed.

Lemma marks_justified_run_timer (B : Browser) (s : State) (h : N) :
  wf s → marks_justified s → marks_justified (run_timer B s h).
Proof.
  intros Hwf Hk.
  destruct (run_timer_cases B s h Hwf)
    as [->|[(t & i & e & aw & _ & _ & _ & _ & He & Haw & ->)
           |(t & x & st & Hin & _ & Ha & ->)]]; [done| |].
  - by apply marks_justified_resume.
  - pose proof (proj2 Hk t x st Hin Ha) as Hsent.
    destruct (ready_state_step_history B x st (clearTimeout h s))
      as (Hr & Hp & Ht).
    revert Hk. apply marks_justified_step.
    + apply keeps_same; [by rewrite Hr|by rewrite Hp].
    + intros y obj' Hy Hm. destruct (decide (y = x)) as [->|Hne]; [by left|].
      right. exists obj'. split; [|done].
      rewrite ready_state_step_xhrs in Hy. simpl in Hy.
      by rewrite lookup_alter_ne in Hy.
    + intros t' y st' Hin' Ha'.
      destruct (Ht t' Hin') as [[_ ?]%list_elem_of_filter|[st'' Hst]];
        [by right|].
      rewrite Ha' in Hst. injection Hst as -> _. by left.
Qed.

Lemma marks_justified_fold_run_timer (B : Browser) (hs : list N) (s : State) :
  wf s → marks_justified s → marks_justified (fold_left (run_timer B) hs s).
Proof.
  revert s. induction hs as [|h hs IH]; intros s Hwf Hk; [done|]. simpl.
  apply IH; [by apply wf_run_timer|by apply marks_justified_run_timer].
Qed.

Lemma marks_justified_step_event (B : Browser) (s : State) (ev : Event) :
  wf s → marks_justified s → marks_justified (step B s ev).
Proof.
  intros Hwf Hk. destruct ev; simpl.
  - rewrite fetch_issued. by apply marks_justified_issued.
  - revert Hk. apply marks_justified_step; [done| |by auto].
    intros y obj' Hy Hm. right. simpl in Hy.
    apply lookup_insert_Some in Hy as [[_ <-]|[_ Hy]]; [|by eauto].
    by destruct emulator_marks_fresh.
  - apply marks_justified_emit, marks_justified_update; [|done].
    intros obj. by rewrite emulator_marks_set_info.
  - unfold xhr_send. destruct (xhrs s !! x); [|done]. simpl.
    rewrite checkMock_issued. by apply marks_justified_issued.
  - apply marks_justified_update; [|done].
    intros obj. by rewrite emulator_marks_set_handlers.
  - unfold xhr_assign. destruct (xhrs s !! x) as [obj|] eqn:Hx; [|done].
    destruct (ordinary_set obj prop v) as [obj'|] eqn:Hset;
      [|by destruct strict].
    revert Hk. apply marks_justified_step; [done| |by auto].
    intros y obj'' Hy Hm. right. simpl in Hy.
    apply lookup_insert_Some in Hy as [[<- <-]|[_ Hy]]; [|by eauto].
    exists obj. split; [done|]. by eapply emulator_marks_ordinary_set.
  - by apply marks_justified_on_message.
  - unfold tick. apply marks_justified_fold_run_timer.
    + revert Hwf. by apply wf_frame.
    + revert Hk. by apply marks_justified_frame.
Qed.

Lemma marks_justified_run (B : Browser) (events : list Event) (s : State) :
  wf s → marks_justified s → marks_justified (run B s events).
Proof.
  revert s. induction events as [|ev evs IH]; intros s Hwf Hk; [done|].
  simpl. apply IH; [by apply wf_step|by apply marks_justified_step_event].
Qed.

(** X13.  In every run of the page context, an instance that carries
    anything of the emulator (the two header methods, or an accessor made by
    [defineReadOnly]) is one for which a [send] was resumed with a decision
    that mocks.  So an instance whose calls all went to the network has no
    property the shim defined: assignments of page code make data
    properties only. *)
Theorem emulator_touches_only_mocked_instances
    (B : Browser) (events : list Event) (x : N) (obj : Xhr) :
  let s := run B initial events in
  xhrs s !! x = Some obj →
  (emulation obj ≠ None ∨ ∃ prop v, own obj !! prop = Some (Accessor v)) →
  ∃ p d body,
    (p, d) ∈ resolve_calls s
    ∧ promises s !! p = Some {| awaiter := SendCall x body; settled := true |}
    ∧ mocks d = true.
Proof.
  intros s Hx Hm.
  assert (marks_justified s) as [Hk _].
  { apply marks_justified_run; [apply wf_initial|]. split.
    - intros y o Hy. simpl in Hy. by rewrite lookup_empty in Hy.
    - intros t y st Hin. simpl in Hin. by apply elem_of_nil in Hin. }
  exact (Hk x obj Hx Hm).
Qed.

Lemma emulator_touches_only_mocked_instances_witness :
  let s :=
    run Scenario.browser initial
      [ NewXhr; CallOpen 0 "get" "/users" true None None; CallSend 0 None;
        Message (reply "req_0_1" (Scenario.affirmative Scenario.created));
        Tick; Tick; Tick; Tick; Tick ] in
  ∃ p d body,
    (p, d) ∈ resolve_calls s
    ∧ promises s !! p = Some {| awaiter := SendCall 0 body; settled := true |}
    ∧ mocks d = true.
Proof.
  eapply (emulator_touches_only_mocked_instances Scenario.browser
            [ NewXhr; CallOpen 0 "get" "/users" true None None; CallSend 0 None;
              Message (reply "req_0_1" (Scenario.affirmative Scenario.created));
              Tick; Tick; Tick; Tick; Tick ] 0).
  - vm_compute. reflexivity.
  - left. discriminate.
Defined.

End EmulatorMarks.

(** * Properties of the helpers *)

(** ** The helpers of the DevTools panel *)

Section Escaping.
Import Panel.

Lemma string_app_assoc (a b c : string) : (a +:+ b) +:+ c = a +:+ (b +:+ c).
Proof.
  induction a as [|x a IH]; [done|].
  change (String x ((a +:+ b) +:+ c) = String x (a +:+ (b +:+ c))).
  by rewrite IH.
Qed.

Lemma string_app_cons (x : ascii) (a b : string) :
  String x a +:+ b = String x (a +:+ b).
Proof. done. Qed.

Lemma string_app_nil (b : string) : "" +:+ b = b.
Proof. done. Qed.

Lemma replace_all_app (c : ascii) (b s1 s2 : string) :
  replace_all c b (s1 +:+ s2) = replace_all c b s1 +:+ replace_all c b s2.
Proof.
  induction s1 as [|a s1 IH]; [done|].
  rewrite string_app_cons. simpl. by rewrite IH, string_app_assoc.
Qed.

Lemma replace_all_one (c a : ascii) (b : string) :
  replace_all c b (String a EmptyString)
  = if Ascii.eqb a c then b else String a EmptyString.
Proof.
  simpl. destruct (Ascii.eqb a c); [|done].
  induction b as [|x b IH]; [done|]. rewrite string_app_cons. by rewrite IH.
Qed.

(** The five passes, one after the other, do to each character what one
    pass would: no pass touches what an earlier pass wrote. *)
Lemma escapeHtml_entities (str : string) :
  replace_all apos "&#039;"
    (replace_all quot "&quot;"
       (replace_all gt "&gt;"
          (replace_all lt "&lt;"
             (replace_all amp "&amp;" str))))
  = entities str.
Proof.
  induction str as [|a str IH]; [done|].
  change (String a str) with (String a EmptyString +:+ str).
  rewrite !replace_all_app, IH. rewrite string_app_cons, string_app_nil.
  change (entities (String a str)) with (entity a +:+ entities str).
  f_equal. unfold entity. rewrite replace_all_one.
  destruct (Ascii.eqb_spec a amp) as [->|?]; [done|].
  rewrite replace_all_one.
  destruct (Ascii.eqb_spec a lt) as [->|?]; [done|].
  rewrite replace_all_one.
  destruct (Ascii.eqb_spec a gt) as [->|?]; [done|].
  rewrite replace_all_one.
  destruct (Ascii.eqb_spec a quot) as [->|?]; [done|].
  rewrite replace_all_one.
  by destruct (Ascii.eqb_spec a apos) as [->|?].
Qed.

Lemma chars_app (a b : string) :
  list_ascii_of_string (a +:+ b)
  = list_ascii_of_string a ++ list_ascii_of_string b.
Proof.
  induction a as [|x a IH]; [done|]. rewrite string_app_cons. simpl.
  by rewrite IH.
Qed.

Ltac entity_cases H :=
  unfold entity in H;
  repeat match type of H with
    | context [Ascii.eqb ?x ?y] =>
        destruct (Ascii.eqb_spec x y); [subst x|]
    end.

(** The reference of an entity starts with an ampersand, which no other
    character becomes, so what a character became tells the character. *)
Lemma entity_inj (c d : ascii) (s t : string) :
  entity c +:+ s = entity d +:+ t → c = d ∧ s = t.
Proof.
  intros H. entity_cases H;
    rewrite ?string_app_cons, ?string_app_nil in H;
    try discriminate H; by simplify_eq.
Qed.

Lemma entity_nonempty (c : ascii) (s : string) : entity c +:+ s ≠ "".
Proof.
  intros H. entity_cases H;
    rewrite ?string_app_cons, ?string_app_nil in H; discriminate H.
Qed.

Lemma entities_inj (s t : string) : entities s = entities t → s = t.
Proof.
  revert t. induction s as [|c s IH]; intros [|d t]; simpl.
  - done.
  - intros H. symmetry in H. by apply entity_nonempty in H.
  - intros H. by apply entity_nonempty in H.
  - intros [-> H]%entity_inj. f_equal. by apply IH.
Qed.

Lemma entity_safe (c : ascii) :
  Forall (λ c, c ∉ [lt; gt; quot; apos]) (list_ascii_of_string (entity c)).
Proof.
  assert (∀ a : ascii, a ≠ lt → a ≠ gt → a ≠ quot → a ≠ apos →
                       a ∉ [lt; gt; quot; apos]) as Hnot.
  { intros a ? ? ? ?. rewrite !not_elem_of_cons. repeat split; try done.
    apply not_elem_of_nil. }
  unfold entity.
  repeat match goal with
    | |- context [Ascii.eqb ?x ?y] =>
        destruct (Ascii.eqb_spec x y); [subst x|]
    end;
    simpl; repeat constructor; apply Hnot; try done;
    intros H; vm_compute in H; discriminate H.
Qed.

(** X14.  [escapeHtml] of the DevTools panel: the five replacements done
    one after the other amount to replacing each character once, by the
    reference of its entity, since no replacement touches what an earlier
    one wrote.  The result holds none of the characters that open or close
    markup or an attribute value, and two strings with the same result are
    the same string. *)
Theorem escapeHtml_is_safe_and_lossless (str : string) :
  escapeHtml str = entities str
  ∧ Forall (λ c, c ∉ [lt; gt; quot; apos])
           (list_ascii_of_string (escapeHtml str))
  ∧ ∀ str', escapeHtml str = escapeHtml str' → str = str'.
Proof.
  assert (∀ s, escapeHtml s = entities s) as Heq.
  { intros s. unfold escapeHtml. destruct (String.eqb_spec s "") as [->|?];
      [done|apply escapeHtml_entities]. }
  split; [done|]. split.
  - rewrite Heq. induction str as [|c str IH]; [constructor|].
    simpl. rewrite chars_app. apply Forall_app. split; [|done].
    apply entity_safe.
  - intros str'. rewrite !Heq. apply entities_inj.
Qed.

Lemma substring_length (n : nat) (s : string) :
  String.length (String.substring 0 n s) = (n `min` String.length s)%nat.
Proof.
  revert s. induction n as [|n IH]; intros [|c s]; simpl; try done.
  by rewrite IH.
Qed.

Lemma string_app_length (a b : string) :
  String.length (a +:+ b) = (String.length a + String.length b)%nat.
Proof.
  induction a as [|x a IH]; [done|]. rewrite string_app_cons. simpl.
  by rewrite IH.
Qed.

Lemma substring_prefix (n : nat) (s : string) :
  ∃ rest, s = String.substring 0 n s +:+ rest.
Proof.
  revert s. induction n as [|n IH]; intros [|c s]; simpl;
    try (by eexists).
  destruct (IH s) as [rest Hrest]. exists rest.
  rewrite string_app_cons. by rewrite <- Hrest.
Qed.

(** X15.  [truncateUrl] with a limit of at least 3 returns at most
    [maxLength] characters: the url itself when it fits, and otherwise its
    first [maxLength - 3] characters followed by three dots. *)
Theorem truncateUrl_fits (url : string) (maxLength : Z) :
  3 ≤ maxLength →
  Z.of_nat (String.length (truncateUrl url maxLength)) ≤ maxLength
  ∧ (Z.of_nat (String.length url) ≤ maxLength → truncateUrl url maxLength = url)
  ∧ (maxLength < Z.of_nat (String.length url) →
     ∃ kept rest,
       url = kept +:+ rest
       ∧ Z.of_nat (String.length kept) = maxLength - 3
       ∧ truncateUrl url maxLength = kept +:+ "...").
Proof.
  intros Hmax. unfold truncateUrl, substring_to.
  destruct (Z.leb_spec (Z.of_nat (String.length url)) maxLength) as [Hle|Hgt].
  - split; [done|]. split; [done|lia].
  - split; [|split; [lia|]].
    + rewrite string_app_length, substring_length. simpl. lia.
    + intros _. destruct (substring_prefix (Z.to_nat (maxLength - 3)) url)
        as [rest Hrest].
      eexists _, rest. split; [exact Hrest|]. split; [|done].
      rewrite substring_length. lia.
Qed.

Lemma truncateUrl_fits_witness :
  Z.of_nat (String.length
              (truncateUrl "https://api.example.com/v1/users/42/orders?page=2&size=50" 50))
  ≤ 50.
Proof.
  apply (truncateUrl_fits
           "https://api.example.com/v1/users/42/orders?page=2&size=50" 50).
  lia.
Defined.

End Escaping.

(** ** The tokenizer of the cURL parser *)

Section Tokenizing.
Import CurlParser.

Lemma scan_app (t : Tokenizer) (a b : string) :
  scan t (a +:+ b) = scan (scan t a) b.
Proof. unfold scan. by rewrite chars_app, fold_left_app. Qed.

Lemma scan_cons (t : Tokenizer) (c : ascii) (a : string) :
  scan t (String c a) = scan (tokenize_char t c) a.
Proof. done. Qed.

Lemma push_nonempty (current : string) (tokens : list string) :
  Forall (λ t, t ≠ "") tokens → Forall (λ t, t ≠ "") (push current tokens).
Proof.
  intros H. unfold push. destruct (String.eqb_spec current "") as [?|Hne];
    [done|]. apply Forall_app. split; [done|]. by constructor.
Qed.

Lemma scan_nil (t : Tokenizer) : scan t "" = t.
Proof. done. Qed.

Lemma scan_nonempty (t : Tokenizer) (str : string) :
  Forall (λ t, t ≠ "") (tokens t) → Forall (λ t, t ≠ "") (tokens (scan t str)).
Proof.
  revert t. induction str as [|c str IH]; intros t H; [done|].
  rewrite scan_cons. apply IH. unfold tokenize_char.
  repeat case_match; simpl; try done. by apply push_nonempty.
Qed.

(** Outside quotes, an argument that needs none is added to the token
    being read. *)
Lemma scan_plain (a : string) (ts : list string) (cur : string)
    (p : option ascii) :
  plain a = true →
  ∃ p', scan {| tokens := ts; current := cur; inQuote := None;
                previous := p |} a
        = {| tokens := ts; current := cur +:+ a; inQuote := None;
             previous := p' |}.
Proof.
  revert cur p. induction a as [|c a IH]; intros cur p Ha.
  - exists p. simpl. by rewrite append_empty.
  - simpl in Ha. apply andb_true_iff in Ha as [Hc Ha].
    apply andb_true_iff in Hc as [Hc Hdq].
    apply andb_true_iff in Hc as [Hsp Hsq].
    apply negb_true_iff in Hsp, Hsq, Hdq.
    rewrite scan_cons. unfold tokenize_char; simpl.
    rewrite Hdq, Hsq, Hsp; simpl.
    destruct (IH (cur +:+ String c "") (Some c) Ha) as [p' ->].
    exists p'. by rewrite string_app_assoc.
Qed.

(** Between single quotes, an argument that can stand there is added to
    the token being read, whatever it holds, and the quote that follows
    it is not taken as escaped. *)
Lemma scan_quotable (a : string) (ts : list string) (cur : string)
    (p : option ascii) :
  quotable a = true →
  (a = "" → p ≠ Some backslash) →
  ∃ p', p' ≠ Some backslash
        ∧ scan {| tokens := ts; current := cur;
                  inQuote := Some single_quote; previous := p |} a
          = {| tokens := ts; current := cur +:+ a;
               inQuote := Some single_quote; previous := p' |}.
Proof.
  revert cur p. induction a as [|c a IH]; intros cur p Ha Hp.
  - exists p. split; [by apply Hp|]. simpl. by rewrite append_empty.
  - assert (Ascii.eqb c single_quote = false
            ∧ quotable a = true
            ∧ (a = "" → Some c ≠ Some backslash)) as (Hsq & Ha' & Hc).
    { destruct a as [|d a].
      - simpl in Ha. apply andb_true_iff in Ha as [Hsq Hbs].
        apply negb_true_iff in Hsq, Hbs. repeat split; [done|].
        intros _ [= ->]. by rewrite Ascii.eqb_refl in Hbs.
      - change (negb (Ascii.eqb c single_quote) && quotable (String d a) = true)
          in Ha.
        apply andb_true_iff in Ha as [Hsq Ha]. apply negb_true_iff in Hsq.
        repeat split; done. }
    rewrite scan_cons. unfold tokenize_char; simpl. rewrite Hsq; simpl.
    destruct (IH (cur +:+ String c "") (Some c) Ha' Hc) as (p' & Hp' & ->).
    exists p'. split; [done|]. by rewrite string_app_assoc.
Qed.

Lemma scan_quoted (a : string) (ts : list string) (p : option ascii) :
  quotable a = true →
  ∃ p', scan {| tokens := ts; current := ""; inQuote := None;
                previous := p |} (quoted a)
        = {| tokens := ts; current := a; inQuote := None; previous := p' |}.
Proof.
  intros Ha. unfold quoted. rewrite scan_cons.
  unfold tokenize_char; simpl.
  change (Ascii.eqb single_quote double_quote) with false.
  change (Ascii.eqb single_quote single_quote) with true. simpl.
  rewrite scan_app.
  destruct (scan_quotable a ts "" (Some single_quote) Ha) as (p' & Hp' & ->);
    [done|].
  rewrite string_app_nil, scan_cons. unfold tokenize_char; simpl.
  change (Ascii.eqb single_quote single_quote) with true.
  rewrite bool_decide_eq_false_2 by done. simpl. by eexists.
Qed.

Lemma scan_space (ts : list string) (cur : string) (p : option ascii)
    (str : string) :
  scan {| tokens := ts; current := cur; inQuote := None; previous := p |}
       (String space str)
  = scan {| tokens := push cur ts; current := ""; inQuote := None;
            previous := Some space |} str.
Proof. by rewrite scan_cons. Qed.

Lemma push_token (a : string) (ts : list string) :
  a ≠ "" → push a ts = ts ++ [a].
Proof. intros Ha. unfold push. by destruct (String.eqb_spec a ""). Qed.

(** Arguments written one after the other, each in a way the tokenizer
    reads back as itself, are read back as they are. *)
Lemma scan_joined (write : string → string) (args ts : list string)
    (p : option ascii) :
  (∀ a ts p, a ∈ args →
     ∃ p', scan {| tokens := ts; current := ""; inQuote := None;
                   previous := p |} (write a)
           = {| tokens := ts; current := a; inQuote := None;
                previous := p' |}) →
  Forall (λ a, a ≠ "") args →
  let t := scan {| tokens := ts; current := ""; inQuote := None;
                   previous := p |} (joined (write <$> args)) in
  push (current t) (tokens t) = ts ++ args.
Proof.
  revert ts p. induction args as [|a args IH]; intros ts p Hw Hne.
  - cbv zeta. change (joined (write <$> [])) with "". rewrite scan_nil.
    simpl. by rewrite app_nil_r.
  - apply Forall_cons in Hne as [Ha Hne].
    destruct (Hw a ts p ltac:(by left)) as [p' Hscan].
    destruct args as [|b args].
    + cbv zeta. change (joined (write <$> [a])) with (write a).
      rewrite Hscan. simpl. by apply push_token.
    + cbv zeta.
      change (joined (write <$> a :: b :: args))
        with (write a +:+ String space (joined (write <$> b :: args))).
      rewrite scan_app, Hscan, scan_space.
      rewrite (push_token a ts) by done.
      pose proof (IH (ts ++ [a]) (Some space)) as IH'. cbv zeta in IH'.
      rewrite IH'; [by rewrite <- app_assoc| |done].
      intros a' ts' p'' Hin. apply Hw. by right.
Qed.

(** X16.  [tokenize] of the cURL parser never yields an empty token.  It
    reads back a command line as it was written: arguments without spaces
    and quotes joined by single spaces give those arguments, and arguments
    put between single quotes give those arguments with the spaces and the
    double quotes they hold, as long as none holds a single quote or ends
    with a backslash. *)
Theorem tokenize_reads_arguments_back :
  (∀ command, Forall (λ token, token ≠ "") (tokenize command))
  ∧ (∀ args, Forall (λ a, a ≠ "" ∧ plain a = true) args →
             tokenize (joined args) = args)
  ∧ (∀ args, Forall (λ a, a ≠ "" ∧ quotable a = true) args →
             tokenize (joined (quoted <$> args)) = args).
Proof.
  split; [|split].
  - intros command. unfold tokenize. apply push_nonempty.
    by apply (scan_nonempty _ command).
  - intros args Hargs. unfold tokenize.
    pose proof (scan_joined Datatypes.id args [] None) as H. cbv zeta in H.
    rewrite list_fmap_id in H. apply H.
    + intros a ts p Hin. rewrite Forall_forall in Hargs.
      destruct (Hargs a Hin) as [_ Hp].
      destruct (scan_plain a ts "" p Hp) as [p' Hs]. exists p'. exact Hs.
    + eapply Forall_impl; [exact Hargs|]. by intros a [? _].
  - intros args Hargs. unfold tokenize.
    apply (scan_joined quoted args [] None).
    + intros a ts p Hin. rewrite Forall_forall in Hargs.
      destruct (Hargs a Hin) as [_ Hq]. by apply scan_quoted.
    + eapply Forall_impl; [exact Hargs|]. by intros a [? _].
Qed.

Lemma tokenize_reads_arguments_back_witness :
  tokenize "'curl' '-H' 'Accept: application/json' 'https://api.x/users'"
  = ["curl"; "-H"; "Accept: application/json"; "https://api.x/users"].
Proof.
  apply (proj2 (proj2 tokenize_reads_arguments_back)
           ["curl"; "-H"; "Accept: application/json"; "https://api.x/users"]).
  repeat constructor; discriminate.
Defined.

End Tokenizing.
